(** * The drawable / image-map core of GIMP (app/core), embedded in Rocq

    [app/core/gimpimagemap.c] keeps an undo buffer while a GEGL operation is
    previewed on a drawable; [app/core/gimpdrawable.c] owns the drawable's
    pixel buffer and its GEGL node graph, including the nodes that
    composite a floating selection.

    The C objects become records, the functions become state transformers
    over a world that holds the objects the code reaches through pointers.
    [gint] values are [Z], and [gint] wraps the result of an addition,
    a subtraction or a multiplication of them to 32 bits; a [(gdouble)]
    cast of a [gint] is [inject_Z]. *)

From Stdlib Require Import ZArith QArith Lia.
From stdpp Require Import gmap strings list.

Close Scope Q_scope.
Open Scope Z_scope.

(** ** Machine integers

    A [gint] is a 32-bit two's-complement integer: [gint z] is what the
    machine leaves of an operation on [gint]s whose exact result is
    [z]. *)

Definition G_MININT : Z := - 2 ^ 31.
Definition G_MAXINT : Z := 2 ^ 31 - 1.

Definition gint (z : Z) : Z := (z + 2 ^ 31) mod 2 ^ 32 - 2 ^ 31.

Arguments gint : simpl never.

(** ** Rectangles *)

Record GeglRectangle := GEGL_RECTANGLE
  { r_x : Z; r_y : Z; r_width : Z; r_height : Z }.

Definition rect_contains (r : GeglRectangle) (x y : Z) : bool :=
  (r_x r <=? x) && (x <? r_x r + r_width r) &&
  (r_y r <=? y) && (y <? r_y r + r_height r).

(** Modelled from the spec: [gimp_rectangle_intersect] (gimp-utils.c is not
    part of the sources).  The spec speaks of the intersection of two
    rectangles that may be empty; the result is [None] when the
    intersection has no area. *)
Definition gimp_rectangle_intersect (x1 y1 width1 height1
                                     x2 y2 width2 height2 : Z)
  : option GeglRectangle :=
  let d_x := Z.max x1 x2 in
  let d_y := Z.max y1 y2 in
  let d_w := Z.min (x1 + width1) (x2 + width2) - d_x in
  let d_h := Z.min (y1 + height1) (y2 + height2) - d_y in
  if (0 <? d_w) && (0 <? d_h)
  then Some (GEGL_RECTANGLE d_x d_y d_w d_h)
  else None.

(** ** Messages and signals

    What the code reports through GLib ([g_message], [g_warning], a failed
    [g_return_if_fail]) and the signals it emits are appended to a log. *)

Inductive Event :=
| Message (text : string)
| Warning (text : string)
| Critical (check : string)
| Printerr (text : string)
| SignalUpdate (x y width height : Z)
| SignalFlush
| InvalidateBoundary.

(** Pixel formats are Babl pointers, compared by identity. *)
Definition Babl := string.

Definition GeglNode := nat.

(** ** GEGL graphs

    A node is an address; the proxies of a graph node are addressed
    through the node.  An input pad has at most one connection, so the
    connections are a map from a sink pad to the source pad feeding it. *)

Inductive GeglRef :=
| NodeRef (n : GeglNode)
| InputProxy (n : GeglNode) (pad : string)
| OutputProxy (n : GeglNode) (pad : string).

#[global] Instance GeglRef_eq_dec : EqDecision GeglRef.
Proof. solve_decision. Defined.

#[global] Instance GeglRef_countable : Countable GeglRef.
Proof.
  refine (inj_countable'
    (fun r => match r with
              | NodeRef n => inl n
              | InputProxy n pad => inr (inl (n, pad))
              | OutputProxy n pad => inr (inr (n, pad))
              end)
    (fun s => match s with
              | inl n => NodeRef n
              | inr (inl (n, pad)) => InputProxy n pad
              | inr (inr (n, pad)) => OutputProxy n pad
              end) _).
  intros []; reflexivity.
Defined.

(** The layer modes this code names; the others are [GIMP_OTHER_MODE n]. *)
Inductive GimpLayerModeEffects :=
| GIMP_NORMAL_MODE
| GIMP_REPLACE_MODE
| GIMP_OTHER_MODE (n : nat).

Definition GIMP_OPACITY_OPAQUE : Q := 1%Q.
Definition GIMP_OPACITY_TRANSPARENT : Q := 0%Q.

Inductive PropValue :=
| PDouble (q : Q)
| PMode (m : GimpLayerModeEffects)
| PBool (b : bool)
| PBufferOf (owner : nat).

Record GeglNodeData := mkNodeData
  { node_operation : string;
    node_parent : option GeglNode;
    node_props : gmap string PropValue }.

Record Gegl := mkGegl
  { nodes : gmap GeglNode GeglNodeData;
    connections : gmap (GeglRef * string) (GeglRef * string);
    next_node : GeglNode }.

(** [gegl_node_set]: the listed properties are written, in order; a node
    that is not in the graph is left out. *)
Definition gegl_node_set (n : GeglNode) (props : list (string * PropValue))
           (g : Gegl) : Gegl :=
  mkGegl
    (alter (fun d => mkNodeData (node_operation d) (node_parent d)
                       (foldl (fun m kv => <[kv.1 := kv.2]> m)
                              (node_props d) props)) n (nodes g))
    (connections g) (next_node g).

(** [gegl_node_new] and [gegl_node_new_child] hand out the next address. *)
Definition gegl_node_new (g : Gegl) : Gegl * GeglNode :=
  let n := next_node g in
  (mkGegl (<[n := mkNodeData "" None ∅]> (nodes g)) (connections g) (S n), n).

Definition gegl_node_new_child (parent : GeglNode) (op : string)
           (props : list (string * PropValue)) (g : Gegl) : Gegl * GeglNode :=
  let n := next_node g in
  (gegl_node_set n props
     (mkGegl (<[n := mkNodeData op (Some parent) ∅]> (nodes g))
             (connections g) (S n)), n).

(** [gegl_node_add_child] and [gegl_node_remove_child] change the parent of
    the child; the connections of the child stay. *)
Definition gegl_node_add_child (parent child : GeglNode) (g : Gegl) : Gegl :=
  mkGegl (alter (fun d => mkNodeData (node_operation d) (Some parent)
                            (node_props d)) child (nodes g))
         (connections g) (next_node g).

Definition gegl_node_remove_child (parent child : GeglNode) (g : Gegl)
  : Gegl :=
  mkGegl (alter (fun d =>
                   mkNodeData (node_operation d)
                     (if bool_decide (node_parent d = Some parent)
                      then None else node_parent d)
                     (node_props d)) child (nodes g))
         (connections g) (next_node g).

(** [gegl_node_connect_to] replaces whatever fed the sink pad;
    [gegl_node_disconnect] empties an input pad. *)
Definition gegl_node_connect_to (source : GeglRef) (source_pad : string)
           (sink : GeglRef) (sink_pad : string) (g : Gegl) : Gegl :=
  mkGegl (nodes g)
         (<[(sink, sink_pad) := (source, source_pad)]> (connections g))
         (next_node g).

Definition gegl_node_disconnect (node : GeglRef) (input_pad : string)
           (g : Gegl) : Gegl :=
  mkGegl (nodes g) (delete (node, input_pad) (connections g)) (next_node g).

Definition gegl_node_get_input_proxy (node : GeglNode) (pad : string)
  : GeglRef := InputProxy node pad.
Definition gegl_node_get_output_proxy (node : GeglNode) (pad : string)
  : GeglRef := OutputProxy node pad.

(** Signal handlers connected by this code. *)
Inductive Callback := gimp_drawable_fs_notify_cb | gimp_drawable_fs_update_cb.

#[global] Instance Callback_eq_dec : EqDecision Callback.
Proof. solve_decision. Defined.

Record Handler := mkHandler
  { h_instance : nat;
    h_signal : string;
    h_callback : Callback;
    h_data : nat }.

Record GimpLayer := mkLayer
  { layer_offset_node : option GeglNode;
    layer_mode : GimpLayerModeEffects;
    layer_opacity : Q }.

(** ** What GEGL and babl supply

    The pixel type is opaque.  [abyss] is what GEGL reads outside a
    buffer's extent ([GEGL_ABYSS_NONE]); [babl_fish] converts between two
    different formats; [gegl_over] and [gimp_blend] are the compositing
    arithmetic; [gegl_processor_chunks] gives the rectangles in which a
    GEGL processor hands out the work on a requested rectangle. *)

Class GeglRuntime (Pixel : Type) := mkRuntime
  { abyss : Pixel;
    babl_fish : Babl -> Babl -> Pixel -> Pixel;
    gegl_over : Pixel -> Pixel -> Pixel;
    gimp_blend : GimpLayerModeEffects -> Q -> Z -> Pixel -> Pixel -> Pixel;
    gegl_processor_chunks : GeglRectangle -> list GeglRectangle }.

(** Reading a property of a node back. *)
Definition gegl_node_get (n : GeglNode) (key : string) (g : Gegl)
  : option PropValue :=
  nodes g !! n ≫= (fun d => node_props d !! key).

Section Core.

Context {Pixel : Type} {runtime : GeglRuntime Pixel}.

(** *** Buffers *)

Record GeglBuffer := mkBuffer
  { buf_extent : GeglRectangle;
    buf_format : Babl;
    buf_pixels : Z -> Z -> Pixel }.

Definition gegl_buffer_new (extent : GeglRectangle) (format : Babl)
  : GeglBuffer :=
  mkBuffer extent format (fun _ _ => abyss).

Definition gegl_buffer_get_width (b : GeglBuffer) : Z :=
  r_width (buf_extent b).
Definition gegl_buffer_get_height (b : GeglBuffer) : Z :=
  r_height (buf_extent b).
Definition gegl_buffer_get_format (b : GeglBuffer) : Babl := buf_format b.

(** Reading a pixel in the buffer's own format. *)
Definition gegl_buffer_get (b : GeglBuffer) (x y : Z) : Pixel :=
  if rect_contains (buf_extent b) x y then buf_pixels b x y else abyss.

Definition babl_convert (src dst : Babl) (p : Pixel) : Pixel :=
  if String.eqb src dst then p else babl_fish src dst p.

(** [gegl_buffer_sample] with the nearest sampler and no abyss policy. *)
Definition gegl_buffer_sample (b : GeglBuffer) (x y : Z) (format : Babl)
  : Pixel :=
  babl_convert (buf_format b) format (gegl_buffer_get b x y).

(** [gegl_buffer_copy src src_rect dst dst_rect]: only the origin of
    [dst_rect] is used; pixels that fall outside [dst] are dropped. *)
Definition gegl_buffer_copy (src : GeglBuffer) (src_rect : GeglRectangle)
           (dst : GeglBuffer) (dst_rect : GeglRectangle) : GeglBuffer :=
  mkBuffer (buf_extent dst) (buf_format dst)
    (fun x y =>
       if rect_contains
            (GEGL_RECTANGLE (r_x dst_rect) (r_y dst_rect)
                            (r_width src_rect) (r_height src_rect)) x y
       then babl_convert (buf_format src) (buf_format dst)
              (gegl_buffer_get src (x - r_x dst_rect + r_x src_rect)
                                   (y - r_y dst_rect + r_y src_rect))
       else buf_pixels dst x y).

(** *** Drawables *)

Record GimpItem := mkItem
  { item_attached : bool;
    item_width : Z;
    item_height : Z;
    item_offset_x : Z;
    item_offset_y : Z;
    item_visible : bool;
    item_node : option GeglNode }.

Record GimpDrawable := mkDrawable
  { item : GimpItem;
    buffer : GeglBuffer;
    shadow : option GeglBuffer;
    source_node : option GeglNode;
    buffer_source_node : option GeglNode;
    fs_crop_node : option GeglNode;
    fs_offset_node : option GeglNode;
    fs_mode_node : option GeglNode;
    mode_node : option GeglNode;
    floating_selection : option nat }.

Definition set_buffer (b : GeglBuffer) (d : GimpDrawable) : GimpDrawable :=
  mkDrawable (item d) b (shadow d) (source_node d) (buffer_source_node d)
    (fs_crop_node d) (fs_offset_node d) (fs_mode_node d) (mode_node d)
    (floating_selection d).

Definition set_shadow (s : option GeglBuffer) (d : GimpDrawable)
  : GimpDrawable :=
  mkDrawable (item d) (buffer d) s (source_node d) (buffer_source_node d)
    (fs_crop_node d) (fs_offset_node d) (fs_mode_node d) (mode_node d)
    (floating_selection d).

Definition gimp_item_is_attached (d : GimpDrawable) : bool :=
  item_attached (item d).
Definition gimp_item_get_width (d : GimpDrawable) : Z := item_width (item d).
Definition gimp_item_get_height (d : GimpDrawable) : Z :=
  item_height (item d).

(** [gimp_drawable_get_buffer] flushes and returns the buffer. *)
Definition gimp_drawable_get_buffer (d : GimpDrawable) : GeglBuffer :=
  buffer d.

Definition gimp_drawable_get_format (d : GimpDrawable) : Babl :=
  gegl_buffer_get_format (buffer d).

(** *** The image: selection mask and undo stack *)

Record UndoRecord := mkUndo
  { undo_name : string;
    undo_pixels : GeglBuffer;
    undo_x : Z;
    undo_y : Z }.

(** The selection mask, seen from the drawable: whether it is empty, its
    bounding box and its coverage (0 is unselected, 255 fully selected),
    all in the drawable's coordinates. *)
Record GimpImage := mkImage
  { mask_is_empty : bool;
    mask_bounds : GeglRectangle;
    mask_value : Z -> Z -> Z;
    undo_stack : list UndoRecord }.

Definition gimp_channel_is_empty (i : GimpImage) : bool := mask_is_empty i.

(** Modelled from the spec: [gimp_item_mask_intersect] (gimpitem.c is not
    part of the sources).  The spec has [apply] clamp its region to "the
    intersection of the drawable's bounds and the active selection's
    bounding box", and return without effect when it is empty. *)
Definition gimp_item_mask_intersect (d : GimpDrawable) (i : GimpImage)
  : option GeglRectangle :=
  gimp_rectangle_intersect
    (r_x (mask_bounds i)) (r_y (mask_bounds i))
    (r_width (mask_bounds i)) (r_height (mask_bounds i))
    0 0 (gimp_item_get_width d) (gimp_item_get_height d).

(** *** The image map *)

Record GeglOperation := mkOperation
  { has_input_pad : bool;
    has_output_pad : bool;
    op_process : (Z -> Z -> Pixel) -> Z -> Z -> Pixel }.

(** The three ways [gimp_image_map_apply] links its graph. *)
Inductive Pipeline := FilterPipeline | SourcePipeline | NopPipeline.

Record GeglProcessor := mkProcessor
  { proc_rect : GeglRectangle;
    proc_pending : list GeglRectangle }.

Record GimpImageMap := mkImageMap
  { undo_desc : string;
    undo_buffer : option GeglBuffer;
    undo_offset_x : Z;
    undo_offset_y : Z;
    gegl : option Pipeline;
    input_buffer : option GeglBuffer;   (* "buffer" of the input node *)
    translate_x : Z;                     (* "x" of the translate node *)
    translate_y : Z;                     (* "y" of the translate node *)
    operation : GeglOperation;
    processor : option GeglProcessor;
    idle_id : nat;
    timer : bool;
    pixel_count : Z }.

Record World := mkWorld
  { drawable : GimpDrawable;
    image : GimpImage;
    image_map : GimpImageMap;
    next_source : nat;                   (* GLib's source id counter *)
    log : list Event }.

Definition set_drawable (d : GimpDrawable) (w : World) : World :=
  mkWorld d (image w) (image_map w) (next_source w) (log w).
Definition set_image (i : GimpImage) (w : World) : World :=
  mkWorld (drawable w) i (image_map w) (next_source w) (log w).
Definition set_image_map (m : GimpImageMap) (w : World) : World :=
  mkWorld (drawable w) (image w) m (next_source w) (log w).
Definition emit (e : Event) (w : World) : World :=
  mkWorld (drawable w) (image w) (image_map w) (next_source w)
          (log w ++ [e]).

Definition set_undo (ub : option GeglBuffer) (ox oy : Z) (m : GimpImageMap)
  : GimpImageMap :=
  mkImageMap (undo_desc m) ub ox oy (gegl m) (input_buffer m)
    (translate_x m) (translate_y m) (operation m) (processor m)
    (idle_id m) (timer m) (pixel_count m).

Definition set_undo_buffer (ub : option GeglBuffer) (m : GimpImageMap)
  : GimpImageMap :=
  set_undo ub (undo_offset_x m) (undo_offset_y m) m.

Definition set_gegl (g : option Pipeline) (m : GimpImageMap)
  : GimpImageMap :=
  mkImageMap (undo_desc m) (undo_buffer m) (undo_offset_x m)
    (undo_offset_y m) g (input_buffer m) (translate_x m) (translate_y m)
    (operation m) (processor m) (idle_id m) (timer m) (pixel_count m).

Definition set_graph_input (ib : option GeglBuffer) (tx ty : Z)
           (m : GimpImageMap) : GimpImageMap :=
  mkImageMap (undo_desc m) (undo_buffer m) (undo_offset_x m)
    (undo_offset_y m) (gegl m) ib tx ty
    (operation m) (processor m) (idle_id m) (timer m) (pixel_count m).

Definition set_processor (p : option GeglProcessor) (m : GimpImageMap)
  : GimpImageMap :=
  mkImageMap (undo_desc m) (undo_buffer m) (undo_offset_x m)
    (undo_offset_y m) (gegl m) (input_buffer m) (translate_x m)
    (translate_y m) (operation m) p (idle_id m) (timer m) (pixel_count m).

Definition set_idle_id (n : nat) (m : GimpImageMap) : GimpImageMap :=
  mkImageMap (undo_desc m) (undo_buffer m) (undo_offset_x m)
    (undo_offset_y m) (gegl m) (input_buffer m) (translate_x m)
    (translate_y m) (operation m) (processor m) n (timer m) (pixel_count m).

Definition set_pixel_count (c : Z) (m : GimpImageMap) : GimpImageMap :=
  mkImageMap (undo_desc m) (undo_buffer m) (undo_offset_x m)
    (undo_offset_y m) (gegl m) (input_buffer m) (translate_x m)
    (translate_y m) (operation m) (processor m) (idle_id m) (timer m) c.

(** *** gimpdrawable.c: the pixel side *)

Definition gimp_drawable_update (x y width height : Z) (w : World) : World :=
  emit (SignalUpdate x y width height) w.

Definition gimp_drawable_get_pixel_at (d : GimpDrawable) (x y : Z)
           (format : Babl) : option Pixel :=
  if (x <? 0) || (gimp_item_get_width d <=? x) ||
     (y <? 0) || (gimp_item_get_height d <=? y)
  then None
  else Some (gegl_buffer_sample (gimp_drawable_get_buffer d) x y format).

(** Modelled from the spec: [gimp_image_undo_push_drawable]
    (gimpimage-undo-push.c is not part of the sources).  The undo system
    "accepts (description, buffer-snapshot, anchor-rect)". *)
Definition gimp_image_undo_push_drawable (undo_desc : string)
           (b : GeglBuffer) (x y : Z) (w : World) : World :=
  set_image
    (mkImage (mask_is_empty (image w)) (mask_bounds (image w))
             (mask_value (image w))
             (mkUndo undo_desc b x y :: undo_stack (image w))) w.

Definition gimp_drawable_real_push_undo (undo_desc : string)
           (b : option GeglBuffer) (x y width height : Z) (w : World)
  : World :=
  let d := drawable w in
  let b' :=
    match b with
    | None =>
        gegl_buffer_copy (gimp_drawable_get_buffer d)
          (GEGL_RECTANGLE x y width height)
          (gegl_buffer_new (GEGL_RECTANGLE 0 0 width height)
                           (gimp_drawable_get_format d))
          (GEGL_RECTANGLE 0 0 0 0)
    | Some b => b
    end in
  gimp_image_undo_push_drawable undo_desc b' x y w.

Definition gimp_drawable_push_undo (undo_desc : string)
           (b : option GeglBuffer) (x y width height : Z) (w : World)
  : World :=
  let d := drawable w in
  if negb (gimp_item_is_attached d)
  then emit (Critical "gimp_item_is_attached (item)") w
  else
    match b with
    | None =>
        match gimp_rectangle_intersect x y width height
                0 0 (gimp_item_get_width d) (gimp_item_get_height d) with
        | None =>
            emit (Warning "gimp_drawable_push_undo: tried to push empty region") w
        | Some r =>
            gimp_drawable_real_push_undo undo_desc None
              (r_x r) (r_y r) (r_width r) (r_height r) w
        end
    | Some _ =>
        gimp_drawable_real_push_undo undo_desc b x y width height w
    end.

(** Modelled from the spec: [gimp_drawable_get_shadow_buffer]
    (gimpdrawable-shadow.c is not part of the sources).  The shadow
    buffer is the "write destination for incremental filter output
    before it is spliced into the live drawable"; it is created on
    demand with the drawable's size and format. *)
Definition gimp_drawable_get_shadow_buffer (d : GimpDrawable)
  : GimpDrawable * GeglBuffer :=
  match shadow d with
  | Some s => (d, s)
  | None =>
      let s := gegl_buffer_new
                 (GEGL_RECTANGLE 0 0 (gimp_item_get_width d)
                                 (gimp_item_get_height d))
                 (gimp_drawable_get_format d) in
      (set_shadow (Some s) d, s)
  end.

(** How much of the source replaces the destination at one pixel:
    nothing where the selection has no coverage, the source itself for
    an opaque replace under full coverage. *)
Definition gimp_composite (mode : GimpLayerModeEffects) (opacity : Q)
           (coverage : Z) (dst src : Pixel) : Pixel :=
  if coverage <=? 0 then dst
  else
    match mode with
    | GIMP_REPLACE_MODE =>
        if Qeq_bool opacity GIMP_OPACITY_OPAQUE && (255 <=? coverage)
        then src
        else gimp_blend mode opacity coverage dst src
    | _ => gimp_blend mode opacity coverage dst src
    end.

Definition selection_coverage (i : GimpImage) (x y : Z) : Z :=
  if gimp_channel_is_empty i then 255 else mask_value i x y.

(** Modelled from the spec: [gimp_drawable_real_apply_buffer]
    (gimpdrawable-combine.c is not part of the sources).  The spec has
    the filter's output "composed onto the drawable at full opacity,
    replace-mode, restricted to the chunk rectangle", the result being
    "masked by the current selection". *)
Definition gimp_drawable_real_apply_buffer (b : GeglBuffer)
           (buffer_region : GeglRectangle) (opacity : Q)
           (mode : GimpLayerModeEffects) (base_x base_y : Z) (w : World)
  : World :=
  let d := drawable w in
  let dst := gimp_drawable_get_buffer d in
  let target :=
    GEGL_RECTANGLE base_x base_y
                   (r_width buffer_region) (r_height buffer_region) in
  set_drawable
    (set_buffer
       (mkBuffer (buf_extent dst) (buf_format dst)
          (fun x y =>
             if rect_contains target x y
             then gimp_composite mode opacity
                    (selection_coverage (image w) x y)
                    (buf_pixels dst x y)
                    (babl_convert (buf_format b) (buf_format dst)
                       (gegl_buffer_get b
                          (x - base_x + r_x buffer_region)
                          (y - base_y + r_y buffer_region)))
             else buf_pixels dst x y)) d) w.

Definition gimp_drawable_apply_buffer (b : GeglBuffer)
           (buffer_region : GeglRectangle) (opacity : Q)
           (mode : GimpLayerModeEffects) (base_x base_y : Z) (w : World)
  : World :=
  if negb (gimp_item_is_attached (drawable w))
  then emit (Critical "gimp_item_is_attached (GIMP_ITEM (drawable))") w
  else gimp_drawable_real_apply_buffer b buffer_region opacity mode
         base_x base_y w.

(** *** gimpimagemap.c *)

(** [gimp_image_map_init] followed by the assignments of
    [gimp_image_map_new]; [unstable] stands for [GIMP_UNSTABLE], which
    decides whether a timer exists. *)
Definition gimp_image_map_new (d : GimpDrawable) (i : GimpImage)
           (desc : string) (op : GeglOperation) (unstable : bool)
  : option World :=
  if negb (gimp_item_is_attached d) then None
  else Some (mkWorld d i
               (mkImageMap desc None 0 0 None None 0 0 op None 0%nat
                           unstable 0)
               0%nat []).

Definition gimp_image_map_get_buffer (w : World) : GeglBuffer :=
  match undo_buffer (image_map w) with
  | Some ub => ub
  | None => gimp_drawable_get_buffer (drawable w)
  end.

Definition gimp_image_map_get_pixel_at (w : World) (x y : Z)
           (format : Babl) : option Pixel :=
  let m := image_map w in
  let d := drawable w in
  if (0 <=? x) && (x <? gimp_item_get_width d) &&
     (0 <=? y) && (y <? gimp_item_get_height d)
  then
    match undo_buffer m with
    | Some ub =>
        let offset_x := undo_offset_x m in
        let offset_y := undo_offset_y m in
        let width := gegl_buffer_get_width ub in
        let height := gegl_buffer_get_height ub in
        if (offset_x <=? x) && (x <? offset_x + width) &&
           (offset_y <=? y) && (y <? offset_y + height)
        then Some (gegl_buffer_sample ub (x - offset_x) (y - offset_y)
                                      format)
        else gimp_drawable_get_pixel_at d x y format
    | None => gimp_drawable_get_pixel_at d x y format
    end
  else None.

Definition gimp_image_map_stop_idle (w : World) : World :=
  let m := image_map w in
  if Nat.eqb (idle_id m) 0 then w
  else
    let m1 := set_idle_id 0 m in
    match processor m1 with
    | Some _ => set_image_map (set_processor None m1) w
    | None => set_image_map m1 w
    end.

Definition gimp_image_map_update_undo_buffer (w : World)
           (rect : GeglRectangle) : World :=
  let m := image_map w in
  let d := drawable w in
  let '(undo_offset_x, undo_offset_y, undo_width, undo_height) :=
    match undo_buffer m with
    | Some ub => (undo_offset_x m, undo_offset_y m,
                  gegl_buffer_get_width ub, gegl_buffer_get_height ub)
    | None => (0, 0, 0, 0)
    end in
  if negb (bool_decide (is_Some (undo_buffer m))) ||
     negb (undo_offset_x =? r_x rect) ||
     negb (undo_offset_y =? r_y rect) ||
     negb (undo_width =? r_width rect) ||
     negb (undo_height =? r_height rect)
  then
    let fresh :=
      gegl_buffer_new (GEGL_RECTANGLE 0 0 (r_width rect) (r_height rect))
                      (gimp_drawable_get_format d) in
    let ub :=
      match undo_buffer m with
      | Some ub =>
          if negb (undo_width =? r_width rect) ||
             negb (undo_height =? r_height rect)
          then fresh else ub
      | None => fresh
      end in
    let ub' := gegl_buffer_copy (gimp_drawable_get_buffer d) rect
                                ub (GEGL_RECTANGLE 0 0 0 0) in
    set_image_map (set_undo (Some ub') (r_x rect) (r_y rect) m) w
  else w.

(** The value the image map's graph produces at a pixel: the input node
    reads [input_buffer], moved by the translate node, and feeds the
    operation according to the way the graph was linked. *)
Definition graph_input (m : GimpImageMap) (x y : Z) : Pixel :=
  match input_buffer m with
  | Some b => gegl_buffer_get b (x - translate_x m) (y - translate_y m)
  | None => abyss
  end.

Definition graph_output (m : GimpImageMap) : Z -> Z -> Pixel :=
  match gegl m with
  | Some FilterPipeline => op_process (operation m) (graph_input m)
  | Some SourcePipeline =>
      fun x y => gegl_over (graph_input m x y)
                   (op_process (operation m) (fun _ _ => abyss) x y)
  | Some NopPipeline | None => graph_input m
  end.

Definition graph_format (m : GimpImageMap) (fallback : Babl) : Babl :=
  match input_buffer m with
  | Some b => buf_format b
  | None => fallback
  end.

Definition gimp_image_map_data_written (extent : GeglRectangle) (w : World)
  : World :=
  let w1 :=
    if negb (gimp_channel_is_empty (image w))
    then
      (* Reset to initial drawable conditions. *)
      match undo_buffer (image_map w) with
      | Some ub =>
          set_drawable
            (set_buffer
               (gegl_buffer_copy ub
                  (GEGL_RECTANGLE
                     (r_x extent - undo_offset_x (image_map w))
                     (r_y extent - undo_offset_y (image_map w))
                     (r_width extent) (r_height extent))
                  (gimp_drawable_get_buffer (drawable w))
                  (GEGL_RECTANGLE (r_x extent) (r_y extent) 0 0))
               (drawable w)) w
      | None => emit (Critical "GEGL_IS_BUFFER (src)") w
      end
    else w in
  (* Apply the result of the gegl graph. *)
  let '(d2, sh) := gimp_drawable_get_shadow_buffer (drawable w1) in
  let w2 := set_drawable d2 w1 in
  let w3 :=
    gimp_drawable_apply_buffer sh
      (GEGL_RECTANGLE (r_x extent) (r_y extent)
                      (r_width extent) (r_height extent))
      GIMP_OPACITY_OPAQUE GIMP_REPLACE_MODE (r_x extent) (r_y extent) w2 in
  let w4 :=
    gimp_drawable_update (r_x extent) (r_y extent)
                         (r_width extent) (r_height extent) w3 in
  if timer (image_map w4)
  then set_image_map
         (set_pixel_count
            ((pixel_count (image_map w4)
              + gint (r_width extent * r_height extent)) mod 2 ^ 64)
            (image_map w4)) w4
  else w4.

(** The write-buffer node stores the graph's result for one chunk in the
    output buffer, which is the drawable's shadow buffer. *)
Definition gegl_write_buffer (chunk : GeglRectangle) (w : World) : World :=
  let m := image_map w in
  match shadow (drawable w) with
  | Some sh =>
      set_drawable
        (set_shadow
           (Some (mkBuffer (buf_extent sh) (buf_format sh)
                    (fun x y =>
                       if rect_contains chunk x y
                       then babl_convert
                              (graph_format m (buf_format sh))
                              (buf_format sh) (graph_output m x y)
                       else buf_pixels sh x y)))
           (drawable w)) w
  | None => w
  end.

(** [gegl_processor_work]: compute the next chunk, signal "computed" for
    it, and tell whether work remains. *)
Definition gegl_processor_work (w : World) : World * bool :=
  match processor (image_map w) with
  | None => (emit (Critical "GEGL_IS_PROCESSOR (processor)") w, false)
  | Some p =>
      match proc_pending p with
      | [] => (w, false)
      | chunk :: rest =>
          let w1 := gegl_write_buffer chunk w in
          let w2 := gimp_image_map_data_written chunk w1 in
          let w3 :=
            set_image_map
              (set_processor (Some (mkProcessor (proc_rect p) rest))
                             (image_map w2)) w2 in
          (w3, negb (bool_decide (rest = [])))
      end
  end.

Definition gimp_image_map_do (w : World) : World * bool :=
  if negb (gimp_item_is_attached (drawable w))
  then
    let m1 := set_idle_id 0 (image_map w) in
    match processor m1 with
    | Some _ => (set_image_map (set_processor None m1) w, false)
    | None => (set_image_map m1 w, false)
    end
  else
    let '(w1, pending) := gegl_processor_work w in
    if negb pending
    then
      let w2 := if timer (image_map w1)
                then emit (Printerr (undo_desc (image_map w1))) w1
                else w1 in
      let w3 :=
        set_image_map
          (set_idle_id 0 (set_processor None (image_map w2))) w2 in
      (emit SignalFlush w3, false)
    else (emit SignalFlush w1, true).

(** One turn of the main loop: the idle source, when one is installed,
    calls [gimp_image_map_do]; the source goes away when that returns
    [FALSE], and [gimp_image_map_do] has then already cleared
    [idle_id]. *)
Definition idle_dispatch (w : World) : World :=
  if Nat.eqb (idle_id (image_map w)) 0 then w
  else fst (gimp_image_map_do w).

Fixpoint idle_dispatches (n : nat) (w : World) : World :=
  match n with
  | O => w
  | S n' => idle_dispatches n' (idle_dispatch w)
  end.

(** [while (gimp_image_map_do (image_map));] with a bound on the number
    of turns: [None] when the bound is reached before the loop ends. *)
Fixpoint finish_changes (fuel : nat) (w : World) : option World :=
  match fuel with
  | O => None
  | S fuel' =>
      let '(w1, again) := gimp_image_map_do w in
      if again then finish_changes fuel' w1 else Some w1
  end.

Definition pending_chunks (w : World) : nat :=
  match processor (image_map w) with
  | Some p => length (proc_pending p)
  | None => 0%nat
  end.

Definition gimp_image_map_apply (w : World) (visible : GeglRectangle)
  : World :=
  (* If we're still working, remove the timer *)
  let w := gimp_image_map_stop_idle w in
  (* Make sure the drawable is still valid *)
  if negb (gimp_item_is_attached (drawable w)) then w
  else
    (* The application should occur only within selection bounds *)
    match gimp_item_mask_intersect (drawable w) (image w) with
    | None => w
    | Some rect =>
        (* If undo buffer don't exist, or change size, (re)allocate *)
        let w := gimp_image_map_update_undo_buffer w rect in
        let input_buffer := undo_buffer (image_map w) in
        let '(d, output_buffer) :=
          gimp_drawable_get_shadow_buffer (drawable w) in
        let w := set_drawable d w in
        let m := image_map w in
        let m :=
          match gegl m with
          | Some _ => m
          | None =>
              if has_input_pad (operation m) &&
                 has_output_pad (operation m)
              then set_gegl (Some FilterPipeline) m
              else if has_output_pad (operation m)
              then set_gegl (Some SourcePipeline) m
              else set_gegl (Some NopPipeline) m
          end in
        let m := set_graph_input input_buffer (r_x rect) (r_y rect) m in
        let m :=
          set_processor
            (Some (mkProcessor rect (gegl_processor_chunks rect))) m in
        let m := if timer m then set_pixel_count 0 m else m in
        (* Start the intermittant work procedure *)
        let id := S (next_source w) in
        mkWorld (drawable w) (image w) (set_idle_id id m) id (log w)
    end.

(** The two halves of [gimp_image_map_commit]: finishing the pending
    work, then registering the undo step. *)
Definition commit_finish_changes (w : World) : World :=
  if Nat.eqb (idle_id (image_map w)) 0 then w
  else
    let w0 := set_image_map (set_idle_id 0 (image_map w)) w in
    (* Finish the changes *)
    match finish_changes (S (pending_chunks w0)) w0 with
    | Some w1 => w1
    | None => w0
    end.

Definition commit_register_undo (w : World) : World :=
  (* Make sure the drawable is still valid *)
  if negb (gimp_item_is_attached (drawable w)) then w
  else
    (* Register an undo step *)
    match undo_buffer (image_map w) with
    | Some ub =>
        let x := undo_offset_x (image_map w) in
        let y := undo_offset_y (image_map w) in
        let width := gegl_buffer_get_width ub in
        let height := gegl_buffer_get_height ub in
        let w1 :=
          gimp_drawable_push_undo (undo_desc (image_map w)) (Some ub)
                                  x y width height w in
        set_image_map (set_undo_buffer None (image_map w1)) w1
    | None => w
    end.

Definition gimp_image_map_commit (w : World) : World :=
  commit_register_undo (commit_finish_changes w).

Definition gimp_image_map_clear (w : World) : World :=
  let w := gimp_image_map_stop_idle w in
  (* Make sure the drawable is still valid *)
  if negb (gimp_item_is_attached (drawable w)) then w
  else
    (* restore the original image *)
    match undo_buffer (image_map w) with
    | Some ub =>
        let w1 :=
          if negb (String.eqb (gegl_buffer_get_format ub)
                              (gimp_drawable_get_format (drawable w)))
          then
            emit (Message
              "image depth change, unable to restore original image") w
          else
            let x := undo_offset_x (image_map w) in
            let y := undo_offset_y (image_map w) in
            let width := gegl_buffer_get_width ub in
            let height := gegl_buffer_get_height ub in
            let w' :=
              set_drawable
                (set_buffer
                   (gegl_buffer_copy ub (GEGL_RECTANGLE 0 0 width height)
                      (gimp_drawable_get_buffer (drawable w))
                      (GEGL_RECTANGLE x y width height))
                   (drawable w)) w in
            gimp_drawable_update x y width height w' in
        set_image_map (set_undo_buffer None (image_map w1)) w1
    | None => w
    end.

Definition gimp_image_map_abort (w : World) : World :=
  let w := gimp_image_map_stop_idle w in
  if negb (gimp_item_is_attached (drawable w)) then w
  else gimp_image_map_clear w.

(** *** What a preview session keeps

    The part of the world that the idle source leaves alone while it
    works: the item, the size and format of the drawable's buffer, the
    image, the undo buffer with its anchor, and the graph's settings. *)
Definition session (w : World) :=
  (item (drawable w),
   buf_extent (buffer (drawable w)),
   buf_format (buffer (drawable w)),
   image w,
   (undo_desc (image_map w), undo_buffer (image_map w),
    undo_offset_x (image_map w), undo_offset_y (image_map w)),
   (gegl (image_map w), input_buffer (image_map w),
    translate_x (image_map w), translate_y (image_map w),
    operation (image_map w), timer (image_map w))).

(** The undo buffer's pixel for a coordinate of the drawable. *)
Definition snapshot_pixel (w : World) (x y : Z) : Pixel :=
  match undo_buffer (image_map w) with
  | Some ub =>
      gegl_buffer_get ub (x - undo_offset_x (image_map w))
                         (y - undo_offset_y (image_map w))
  | None => abyss
  end.

(** Whether [gimp_image_map_update_undo_buffer] finds an undo buffer
    that already covers [rect], and so copies nothing. *)
Definition snapshot_kept (w : World) (rect : GeglRectangle) : bool :=
  match undo_buffer (image_map w) with
  | Some ub =>
      (undo_offset_x (image_map w) =? r_x rect) &&
      (undo_offset_y (image_map w) =? r_y rect) &&
      (gegl_buffer_get_width ub =? r_width rect) &&
      (gegl_buffer_get_height ub =? r_height rect)
  | None => false
  end.

(** The drawable's buffer has the drawable's size; an undo buffer that
    is held starts at the origin and has the drawable's format. *)
Definition buffers_consistent (w : World) : Prop :=
  buf_extent (buffer (drawable w)) =
    GEGL_RECTANGLE 0 0 (gimp_item_get_width (drawable w))
                       (gimp_item_get_height (drawable w)) /\
  match undo_buffer (image_map w) with
  | Some ub =>
      r_x (buf_extent ub) = 0 /\ r_y (buf_extent ub) = 0 /\
      gegl_buffer_get_format ub = gimp_drawable_get_format (drawable w)
  | None => True
  end.

Definition rect_within (outer inner : GeglRectangle) : Prop :=
  forall x y,
    rect_contains inner x y = true -> rect_contains outer x y = true.

(** *** gimpdrawable.c: the node graph

    The drawables and layers the graph code reaches through pointers
    live in a table indexed by address; a layer is a drawable with the
    fields of [GimpLayer] on top. *)

Record GimpObject := mkObject
  { obj_drawable : GimpDrawable;
    obj_layer : option GimpLayer }.

Record Canvas := mkCanvas
  { objects : gmap nat GimpObject;
    graph : Gegl;
    image_floating_selection : option nat;
    handlers : list Handler;
    canvas_log : list Event }.

Definition set_item (it : GimpItem) (d : GimpDrawable) : GimpDrawable :=
  mkDrawable it (buffer d) (shadow d) (source_node d) (buffer_source_node d)
    (fs_crop_node d) (fs_offset_node d) (fs_mode_node d) (mode_node d)
    (floating_selection d).

Definition set_item_visible (v : bool) (it : GimpItem) : GimpItem :=
  mkItem (item_attached it) (item_width it) (item_height it)
    (item_offset_x it) (item_offset_y it) v (item_node it).

Definition set_item_node (n : option GeglNode) (it : GimpItem) : GimpItem :=
  mkItem (item_attached it) (item_width it) (item_height it)
    (item_offset_x it) (item_offset_y it) (item_visible it) n.

Definition set_source_node (n : option GeglNode) (d : GimpDrawable)
  : GimpDrawable :=
  mkDrawable (item d) (buffer d) (shadow d) n (buffer_source_node d)
    (fs_crop_node d) (fs_offset_node d) (fs_mode_node d) (mode_node d)
    (floating_selection d).

Definition set_buffer_source_node (n : option GeglNode) (d : GimpDrawable)
  : GimpDrawable :=
  mkDrawable (item d) (buffer d) (shadow d) (source_node d) n
    (fs_crop_node d) (fs_offset_node d) (fs_mode_node d) (mode_node d)
    (floating_selection d).

Definition set_fs_crop_node (n : option GeglNode) (d : GimpDrawable)
  : GimpDrawable :=
  mkDrawable (item d) (buffer d) (shadow d) (source_node d)
    (buffer_source_node d) n (fs_offset_node d) (fs_mode_node d)
    (mode_node d) (floating_selection d).

Definition set_fs_offset_node (n : option GeglNode) (d : GimpDrawable)
  : GimpDrawable :=
  mkDrawable (item d) (buffer d) (shadow d) (source_node d)
    (buffer_source_node d) (fs_crop_node d) n (fs_mode_node d)
    (mode_node d) (floating_selection d).

Definition set_fs_mode_node (n : option GeglNode) (d : GimpDrawable)
  : GimpDrawable :=
  mkDrawable (item d) (buffer d) (shadow d) (source_node d)
    (buffer_source_node d) (fs_crop_node d) (fs_offset_node d) n
    (mode_node d) (floating_selection d).

Definition set_mode_node (n : option GeglNode) (d : GimpDrawable)
  : GimpDrawable :=
  mkDrawable (item d) (buffer d) (shadow d) (source_node d)
    (buffer_source_node d) (fs_crop_node d) (fs_offset_node d)
    (fs_mode_node d) n (floating_selection d).

Definition set_floating_selection (fs : option nat) (d : GimpDrawable)
  : GimpDrawable :=
  mkDrawable (item d) (buffer d) (shadow d) (source_node d)
    (buffer_source_node d) (fs_crop_node d) (fs_offset_node d)
    (fs_mode_node d) (mode_node d) fs.

Definition update_drawable (p : nat) (f : GimpDrawable -> GimpDrawable)
           (c : Canvas) : Canvas :=
  mkCanvas
    (alter (fun o => mkObject (f (obj_drawable o)) (obj_layer o)) p
           (objects c))
    (graph c) (image_floating_selection c) (handlers c) (canvas_log c).

Definition update_graph (f : Gegl -> Gegl) (c : Canvas) : Canvas :=
  mkCanvas (objects c) (f (graph c)) (image_floating_selection c)
           (handlers c) (canvas_log c).

Definition set_handlers (h : list Handler) (c : Canvas) : Canvas :=
  mkCanvas (objects c) (graph c) (image_floating_selection c) h
           (canvas_log c).

Definition canvas_emit (e : Event) (c : Canvas) : Canvas :=
  mkCanvas (objects c) (graph c) (image_floating_selection c) (handlers c)
           (canvas_log c ++ [e]).

Definition canvas_node_new (c : Canvas) : Canvas * GeglNode :=
  let '(g, n) := gegl_node_new (graph c) in (update_graph (fun _ => g) c, n).

Definition canvas_node_new_child (parent : GeglNode) (op : string)
           (props : list (string * PropValue)) (c : Canvas)
  : Canvas * GeglNode :=
  let '(g, n) := gegl_node_new_child parent op props (graph c) in
  (update_graph (fun _ => g) c, n).

(** A GEGL call on a [NULL] node fails its check and changes nothing. *)
Definition on_node (n : option GeglNode) (f : GeglRef -> Gegl -> Gegl)
           (g : Gegl) : Gegl :=
  match n with
  | Some n => f (NodeRef n) g
  | None => g
  end.

Definition on_nodes (a b : option GeglNode)
           (f : GeglNode -> GeglNode -> Gegl -> Gegl) (g : Gegl) : Gegl :=
  match a, b with
  | Some a, Some b => f a b g
  | _, _ => g
  end.

Definition the_drawable (p : nat) (c : Canvas) : option GimpDrawable :=
  obj_drawable <$> objects c !! p.

Definition the_layer (p : nat) (c : Canvas) : option GimpLayer :=
  objects c !! p ≫= obj_layer.

Definition gimp_item_peek_node (d : GimpDrawable) : option GeglNode :=
  item_node (item d).
Definition gimp_item_get_visible (d : GimpDrawable) : bool :=
  item_visible (item d).

Definition gimp_drawable_get_node (p : nat) (c : Canvas)
  : Canvas * option GeglNode :=
  match the_drawable p c with
  | None => (c, None)
  | Some d =>
      (* the parent class creates and caches the item's node *)
      let '(c, node) := canvas_node_new c in
      let c :=
        update_drawable p
          (fun d => set_item (set_item_node (Some node) (item d)) d) c in
      let c :=
        match mode_node d with
        | Some _ =>
            canvas_emit (Warning "drawable->private->mode_node == NULL") c
        | None => c
        end in
      let '(c, mode) := canvas_node_new_child node "gimp:normal-mode" [] c in
      let c := update_drawable p (set_mode_node (Some mode)) c in
      let input := gegl_node_get_input_proxy node "input" in
      let output := gegl_node_get_output_proxy node "output" in
      let c :=
        if gimp_item_get_visible d
        then
          update_graph
            (fun g =>
               gegl_node_connect_to (NodeRef mode) "output" output "input"
                 (gegl_node_connect_to input "output" (NodeRef mode) "input"
                    g)) c
        else
          update_graph (gegl_node_connect_to input "output" output "input")
                       c in
      (c, Some node)
  end.

(** Modelled from the spec: [gimp_item_get_node] (gimpitem.c is not part
    of the sources): the graph is built lazily and "the cached instance"
    is returned "on repeat calls". *)
Definition gimp_item_get_node (p : nat) (c : Canvas)
  : Canvas * option GeglNode :=
  match the_drawable p c with
  | None => (c, None)
  | Some d =>
      match item_node (item d) with
      | Some n => (c, Some n)
      | None => gimp_drawable_get_node p c
      end
  end.

Definition gimp_drawable_visibility_changed (p : nat) (c : Canvas)
  : Canvas :=
  match the_drawable p c with
  | None => c
  | Some d =>
      match gimp_item_peek_node d with
      | Some node =>
          let input := gegl_node_get_input_proxy node "input" in
          let output := gegl_node_get_output_proxy node "output" in
          if gimp_item_get_visible d
          then
            update_graph
              (fun g =>
                 on_node (mode_node d)
                   (fun m => gegl_node_connect_to m "output" output "input")
                   (on_node (mode_node d)
                      (fun m => gegl_node_connect_to input "output"
                                                     m "input") g)) c
          else
            update_graph
              (fun g =>
                 gegl_node_connect_to input "output" output "input"
                   (on_node (mode_node d)
                      (fun m => gegl_node_disconnect m "input") g)) c
      | None => c
      end
  end.

(** Modelled from the spec: [gimp_item_set_visible] (gimpitem.c is not
    part of the sources): setting a drawable's visibility stores the
    flag and runs the class's [visibility_changed]. *)
Definition gimp_item_set_visible (p : nat) (visible : bool) (c : Canvas)
  : Canvas :=
  gimp_drawable_visibility_changed p
    (update_drawable p
       (fun d => set_item (set_item_visible visible (item d)) d) c).

(** Modelled from the spec: [gimp_gegl_mode_node_set]
    (gimp-gegl-nodes.c is not part of the sources): the parameters of
    [fs_mode] "mirror the overlay's current mode/opacity". *)
Definition gimp_gegl_mode_node_set (mode : GimpLayerModeEffects)
           (opacity : Q) (linear : bool) (n : GeglRef) (g : Gegl) : Gegl :=
  match n with
  | NodeRef n =>
      gegl_node_set n [("mode", PMode mode); ("opacity", PDouble opacity);
                       ("linear", PBool linear)] g
  | _ => g
  end.

Definition gimp_layer_get_mode (l : option GimpLayer)
  : GimpLayerModeEffects :=
  match l with Some l => layer_mode l | None => GIMP_NORMAL_MODE end.
Definition gimp_layer_get_opacity (l : option GimpLayer) : Q :=
  match l with Some l => layer_opacity l | None => GIMP_OPACITY_OPAQUE end.

Section SyncSourceNode.

(** [gimp_drawable_get_source_node], which [gimp_drawable_sync_source_node]
    calls on the floating selection and which calls it back. *)
Variable get_source_node : nat -> Canvas -> Canvas * option GeglNode.

(** The block under [if (! drawable->private->fs_crop_node)]. *)
Definition sync_attach_nodes (p fs : nat) (source : GeglNode)
           (output : GeglRef) (c : Canvas) : Canvas :=
  let '(c, fs_source) := get_source_node fs c in
  (* rip the fs' source node out of its graph *)
  let c :=
    match the_layer fs c ≫= layer_offset_node with
    | Some lon =>
        let c :=
          update_graph (gegl_node_disconnect (NodeRef lon) "input") c in
        let '(c, fs_node) := gimp_item_get_node fs c in
        update_graph (on_nodes fs_node fs_source gegl_node_remove_child) c
    | None => c
    end in
  let c :=
    update_graph (on_nodes (Some source) fs_source gegl_node_add_child) c in
  let '(c, crop) := canvas_node_new_child source "gegl:crop" [] c in
  let c := update_drawable p (set_fs_crop_node (Some crop)) c in
  let c :=
    update_graph
      (on_node fs_source
         (fun s => gegl_node_connect_to s "output" (NodeRef crop) "input"))
      c in
  let '(c, offset) := canvas_node_new_child source "gegl:translate" [] c in
  let c := update_drawable p (set_fs_offset_node (Some offset)) c in
  let c :=
    update_graph
      (gegl_node_connect_to (NodeRef crop) "output"
                            (NodeRef offset) "input") c in
  let '(c, mode) :=
    canvas_node_new_child source "gimp:normal-mode" [] c in
  let c := update_drawable p (set_fs_mode_node (Some mode)) c in
  let c :=
    update_graph
      (on_node (the_drawable p c ≫= buffer_source_node)
         (fun b => gegl_node_connect_to b "output" (NodeRef mode) "input"))
      c in
  let c :=
    update_graph
      (gegl_node_connect_to (NodeRef offset) "output"
                            (NodeRef mode) "aux") c in
  let c :=
    update_graph
      (gegl_node_connect_to (NodeRef mode) "output" output "input") c in
  set_handlers
    (handlers c ++ [mkHandler fs "notify" gimp_drawable_fs_notify_cb p]) c.

(** The [gegl_node_set] calls that follow: crop rectangle, translation
    and mode of the floating selection. *)
Definition sync_fs_parameters (p fs : nat) (c : Canvas) : Canvas :=
  match the_drawable p c, the_drawable fs c with
  | Some d, Some fsd =>
      let off_x := item_offset_x (item d) in
      let off_y := item_offset_y (item d) in
      let fs_off_x := item_offset_x (item fsd) in
      let fs_off_y := item_offset_y (item fsd) in
      let c :=
        update_graph
          (on_node (fs_crop_node d)
             (fun n g =>
                match n with
                | NodeRef n =>
                    gegl_node_set n
                      [("x", PDouble (inject_Z (gint (off_x - fs_off_x))));
                       ("y", PDouble (inject_Z (gint (off_y - fs_off_y))));
                       ("width",
                        PDouble (inject_Z (gimp_item_get_width d)));
                       ("height",
                        PDouble (inject_Z (gimp_item_get_height d)))] g
                | _ => g
                end)) c in
      let c :=
        update_graph
          (on_node (fs_offset_node d)
             (fun n g =>
                match n with
                | NodeRef n =>
                    gegl_node_set n
                      [("x", PDouble (inject_Z (gint (fs_off_x - off_x))));
                       ("y", PDouble (inject_Z (gint (fs_off_y - off_y))))] g
                | _ => g
                end)) c in
      update_graph
        (on_node (fs_mode_node d)
           (gimp_gegl_mode_node_set
              (gimp_layer_get_mode (the_layer fs c))
              (gimp_layer_get_opacity (the_layer fs c)) false)) c
  | _, _ => c
  end.

(** The block under [if (drawable->private->fs_crop_node)] of the other
    branch. *)
Definition sync_detach_nodes (p : nat) (fs : option nat)
           (source : GeglNode) (c : Canvas) : Canvas :=
  let d0 := the_drawable p c in
  let c :=
    update_graph
      (fun g =>
         on_node (d0 ≫= fs_mode_node)
           (fun n => gegl_node_disconnect n "aux")
           (on_node (d0 ≫= fs_mode_node)
              (fun n => gegl_node_disconnect n "input")
              (on_node (d0 ≫= fs_offset_node)
                 (fun n => gegl_node_disconnect n "input")
                 (on_node (d0 ≫= fs_crop_node)
                    (fun n => gegl_node_disconnect n "input") g)))) c in
  let '(c, fs_source) :=
    match fs with
    | Some fs => get_source_node fs c
    | None => (c, None)
    end in
  let c :=
    update_graph
      (on_nodes (Some source) fs_source gegl_node_remove_child) c in
  (* plug the fs' source node back into its graph *)
  let c :=
    match fs, fs ≫= (fun fs => the_layer fs c ≫= layer_offset_node) with
    | Some fs, Some lon =>
        let '(c, fs_node) := gimp_item_get_node fs c in
        let c :=
          update_graph (on_nodes fs_node fs_source gegl_node_add_child)
                       c in
        update_graph
          (on_node fs_source
             (fun s => gegl_node_connect_to s "output"
                                            (NodeRef lon) "input")) c
    | _, _ => c
    end in
  let d1 := the_drawable p c in
  let c :=
    update_graph
      (on_nodes (Some source) (d1 ≫= fs_crop_node)
                gegl_node_remove_child) c in
  let c := update_drawable p (set_fs_crop_node None) c in
  let c :=
    update_graph
      (on_nodes (Some source) (d1 ≫= fs_offset_node)
                gegl_node_remove_child) c in
  let c := update_drawable p (set_fs_offset_node None) c in
  let c :=
    update_graph
      (on_nodes (Some source) (d1 ≫= fs_mode_node)
                gegl_node_remove_child) c in
  let c := update_drawable p (set_fs_mode_node None) c in
  match fs with
  | Some fs =>
      set_handlers
        (filter (fun h =>
                   ¬ (h_instance h = fs ∧
                      h_callback h = gimp_drawable_fs_notify_cb ∧
                      h_data h = p)) (handlers c)) c
  | None => c
  end.

Definition sync_source_node_with (p : nat) (detach_fs : bool)
           (c : Canvas) : Canvas :=
  match the_drawable p c with
  | None => c
  | Some d =>
      let fs := floating_selection d in
      match source_node d with
      | None => c
      | Some source =>
          let output := gegl_node_get_output_proxy source "output" in
          match fs, detach_fs with
          | Some fs, false =>
              let c :=
                match fs_crop_node d with
                | None => sync_attach_nodes p fs source output c
                | Some _ => c
                end in
              sync_fs_parameters p fs c
          | _, _ =>
              let c :=
                match fs_crop_node d with
                | Some _ => sync_detach_nodes p fs source c
                | None => c
                end in
              update_graph
                (on_node (the_drawable p c ≫= buffer_source_node)
                   (fun b => gegl_node_connect_to b "output"
                                                  output "input")) c
          end
      end
  end.

End SyncSourceNode.

(** [gimp_drawable_get_source_node].  The function and
    [gimp_drawable_sync_source_node] call each other; every call that
    goes one level deeper has first given its drawable a source node,
    so the depth is bounded by the number of drawables that have none,
    which [fuel] counts down. *)
Fixpoint gimp_drawable_get_source_node_fuel (fuel : nat) (p : nat)
         (c : Canvas) : Canvas * option GeglNode :=
  match the_drawable p c with
  | None => (c, None)
  | Some d =>
      match source_node d with
      | Some source => (c, Some source)
      | None =>
          match fuel with
          | O => (c, None)
          | S fuel' =>
              let '(c, source) := canvas_node_new c in
              let c := update_drawable p (set_source_node (Some source)) c in
              let '(c, bsn) :=
                canvas_node_new_child source "gegl:buffer-source"
                                      [("buffer", PBufferOf p)] c in
              let c :=
                update_drawable p (set_buffer_source_node (Some bsn)) c in
              let c :=
                sync_source_node_with
                  (gimp_drawable_get_source_node_fuel fuel') p false c in
              (c, Some source)
          end
      end
  end.

(** The drawables that have no source node yet. *)
Definition unsourced (c : Canvas) : gmap nat GimpObject :=
  filter (fun kv => source_node (obj_drawable kv.2) = None) (objects c).

Definition gimp_drawable_get_source_node (p : nat) (c : Canvas)
  : Canvas * option GeglNode :=
  gimp_drawable_get_source_node_fuel (size (unsourced c)) p c.

Definition gimp_drawable_sync_source_node (p : nat) (detach_fs : bool)
           (c : Canvas) : Canvas :=
  sync_source_node_with
    (gimp_drawable_get_source_node_fuel (size (unsourced c)))
    p detach_fs c.

Definition gimp_drawable_fs_notify (fs : nat) (pspec_name : string)
           (p : nat) (c : Canvas) : Canvas :=
  if String.eqb pspec_name "offset-x" || String.eqb pspec_name "offset-y" ||
     String.eqb pspec_name "visible" || String.eqb pspec_name "mode" ||
     String.eqb pspec_name "opacity"
  then gimp_drawable_sync_source_node p false c
  else c.

Definition gimp_drawable_fs_update (fs : nat) (x y width height : Z)
           (p : nat) (c : Canvas) : Canvas :=
  match the_drawable fs c, the_drawable p c with
  | Some fsd, Some d =>
      let fs_off_x := item_offset_x (item fsd) in
      let fs_off_y := item_offset_y (item fsd) in
      let off_x := item_offset_x (item d) in
      let off_y := item_offset_y (item d) in
      match gimp_rectangle_intersect
              (gint (x + fs_off_x)) (gint (y + fs_off_y)) width height
              off_x off_y (gimp_item_get_width d) (gimp_item_get_height d)
      with
      | Some dr =>
          (* gimp_drawable_update *)
          canvas_emit (SignalUpdate (gint (r_x dr - off_x))
                                    (gint (r_y dr - off_y))
                                    (r_width dr) (r_height dr)) c
      | None => c
      end
  | _, _ => c
  end.

Definition gimp_drawable_get_floating_sel (d : GimpDrawable) : option nat :=
  floating_selection d.

(** Modelled from the spec: [gimp_image_set_floating_selection]
    (gimpimage.c is not part of the sources) stores the image's
    floating-selection reference. *)
Definition gimp_image_set_floating_selection (fs : option nat) (c : Canvas)
  : Canvas :=
  mkCanvas (objects c) (graph c) fs (handlers c) (canvas_log c).

(** [gimp_drawable_invalidate_boundary]: the class of a layer has the
    method, that of a plain drawable has none. *)
Definition gimp_drawable_invalidate_boundary (p : nat) (c : Canvas)
  : Canvas :=
  match the_layer p c with
  | Some _ => canvas_emit InvalidateBoundary c
  | None => c
  end.

Definition gimp_drawable_attach_floating_sel (p floating_sel : nat)
           (c : Canvas) : Canvas :=
  match the_drawable p c with
  | None => canvas_emit (Critical "GIMP_IS_DRAWABLE (drawable)") c
  | Some d =>
      if negb (gimp_item_is_attached d)
      then canvas_emit
             (Critical "gimp_item_is_attached (GIMP_ITEM (drawable))") c
      else
        match gimp_drawable_get_floating_sel d with
        | Some _ =>
            canvas_emit
              (Critical "gimp_drawable_get_floating_sel (drawable) == NULL")
              c
        | None =>
            match the_layer floating_sel c, the_drawable floating_sel c with
            | Some _, Some fsd =>
                let c :=
                  update_drawable p
                    (set_floating_selection (Some floating_sel)) c in
                let c :=
                  gimp_image_set_floating_selection (Some floating_sel) c in
                (* clear the selection *)
                let c := gimp_drawable_invalidate_boundary floating_sel c in
                let c := gimp_drawable_sync_source_node p false c in
                let c :=
                  set_handlers
                    (handlers c ++
                     [mkHandler floating_sel "update"
                                gimp_drawable_fs_update_cb p]) c in
                gimp_drawable_fs_update floating_sel 0 0
                  (gimp_item_get_width fsd) (gimp_item_get_height fsd) p c
            | _, _ =>
                canvas_emit (Critical "GIMP_IS_LAYER (floating_sel)") c
            end
        end
  end.

Definition gimp_drawable_detach_floating_sel (p : nat) (c : Canvas)
  : Canvas :=
  match the_drawable p c with
  | None => canvas_emit (Critical "GIMP_IS_DRAWABLE (drawable)") c
  | Some d =>
      match gimp_drawable_get_floating_sel d with
      | None =>
          canvas_emit
            (Critical "gimp_drawable_get_floating_sel (drawable) != NULL") c
      | Some floating_sel =>
          let c := gimp_drawable_sync_source_node p true c in
          let c :=
            set_handlers
              (filter (fun h =>
                         ¬ (h_instance h = floating_sel ∧
                            h_callback h = gimp_drawable_fs_update_cb ∧
                            h_data h = p)) (handlers c)) c in
          let c :=
            match the_drawable floating_sel c with
            | Some fsd =>
                gimp_drawable_fs_update floating_sel 0 0
                  (gimp_item_get_width fsd) (gimp_item_get_height fsd) p c
            | None => c
            end in
          (* clear the selection *)
          let c := gimp_drawable_invalidate_boundary floating_sel c in
          let c := gimp_image_set_floating_selection None c in
          update_drawable p (set_floating_selection None) c
      end
  end.

(** Position and size of a drawable, which the graph code reads but never
    writes. *)
Definition geometry (d : GimpDrawable) : Z * Z * Z * Z :=
  (item_offset_x (item d), item_offset_y (item d),
   item_width (item d), item_height (item d)).

Definition same_geometry (c c' : Canvas) : Prop :=
  forall q, geometry <$> the_drawable q c' = geometry <$> the_drawable q c.

(** The crop and translate nodes of a floating selection are made
    together; when they exist they are two nodes of the graph. *)
Definition fs_nodes_ok (d : GimpDrawable) (g : Gegl) : Prop :=
  match fs_crop_node d, fs_offset_node d with
  | None, _ => True
  | Some crop, Some offset =>
      crop <> offset /\ is_Some (nodes g !! crop) /\
      is_Some (nodes g !! offset)
  | Some _, None => False
  end.

(** *** gimpdrawable.c: swapping pixels with a buffer

    [gimp_drawable_real_swap_pixels] exchanges the pixels of a rectangle
    of the drawable with those of a buffer of the rectangle's size (an
    undo step's).  The buffer is the caller's and is written in place,
    so it is returned next to the world. *)

Definition gegl_buffer_dup (b : GeglBuffer) : GeglBuffer :=
  mkBuffer (buf_extent b) (buf_format b) (buf_pixels b).

Definition gimp_drawable_real_swap_pixels (b : GeglBuffer) (x y : Z)
           (w : World) : World * GeglBuffer :=
  let width := gegl_buffer_get_width b in
  let height := gegl_buffer_get_height b in
  let tmp := gegl_buffer_dup b in
  let b :=
    gegl_buffer_copy (gimp_drawable_get_buffer (drawable w))
                     (GEGL_RECTANGLE x y width height)
                     b (GEGL_RECTANGLE 0 0 0 0) in
  let w :=
    set_drawable
      (set_buffer
         (gegl_buffer_copy tmp (GEGL_RECTANGLE 0 0 width height)
                           (gimp_drawable_get_buffer (drawable w))
                           (GEGL_RECTANGLE x y 0 0))
         (drawable w)) w in
  (gimp_drawable_update x y width height w, b).

Definition gimp_drawable_swap_pixels (b : GeglBuffer) (x y : Z) (w : World)
  : World * GeglBuffer :=
  gimp_drawable_real_swap_pixels b x y w.

(** *** More of what a run keeps *)


(** The drawable, the image, the log and the undo buffer of [w'] are
    those of [w]. *)
Definition untouched (w w' : World) : Prop :=
  drawable w' = drawable w /\ image w' = image w /\ log w' = log w /\
  undo_buffer (image_map w') = undo_buffer (image_map w).

(** *** More about the node graph *)

(** The connection into a layer's offset node, which the floating
    selection's source node gives up while the drawable borrows it. *)
Definition without_layer_offset (l : GimpLayer)
           (conns : gmap (GeglRef * string) (GeglRef * string))
  : gmap (GeglRef * string) (GeglRef * string) :=
  match layer_offset_node l with
  | Some lon => delete (NodeRef lon, "input") conns
  | None => conns
  end.

Definition with_layer_offset (l : GimpLayer) (fs_source : GeglNode)
           (conns : gmap (GeglRef * string) (GeglRef * string))
  : gmap (GeglRef * string) (GeglRef * string) :=
  match layer_offset_node l with
  | Some lon =>
      <[(NodeRef lon, "input") := (NodeRef fs_source, "output")]> conns
  | None => conns
  end.

(** No connection mentions a node that has not been handed out yet. *)
Definition connections_allocated (g : Gegl) : Prop :=
  forall n pad, (next_node g <= n)%nat ->
                connections g !! (NodeRef n, pad) = None.

(** A failed [g_return_if_fail]: the check is reported, nothing else
    changes. *)
Definition precondition_failed (check : string) (c c' : Canvas) : Prop :=
  objects c' = objects c /\ graph c' = graph c /\
  image_floating_selection c' = image_floating_selection c /\
  handlers c' = handlers c /\
  canvas_log c' = canvas_log c ++ [Critical check].

(** The fields of a drawable that the graph code writes, the source node
    apart. *)
Inductive graph_field : (GimpDrawable -> GimpDrawable) -> Prop :=
| gf_item_node n :
    graph_field (fun d => set_item (set_item_node n (item d)) d)
| gf_mode_node n : graph_field (set_mode_node n)
| gf_buffer_source_node n : graph_field (set_buffer_source_node n)
| gf_fs_crop_node n : graph_field (set_fs_crop_node n)
| gf_fs_offset_node n : graph_field (set_fs_offset_node n)
| gf_fs_mode_node n : graph_field (set_fs_mode_node n)
| gf_floating_selection fs : graph_field (set_floating_selection fs).

(** The pixel side of a drawable: everything but its graph nodes and its
    floating selection. *)
Definition pixel_side (d : GimpDrawable) :=
  (item_attached (item d), geometry d, item_visible (item d),
   buffer d, shadow d).

Definition same_pixels (c c' : Canvas) : Prop :=
  forall q, pixel_side <$> the_drawable q c' = pixel_side <$> the_drawable q c.

(** A source node, once made, stays. *)
Definition sources_kept (c c' : Canvas) : Prop :=
  forall q d n,
    the_drawable q c = Some d -> source_node d = Some n ->
    exists d', the_drawable q c' = Some d' /\ source_node d' = Some n.

(** *** More about a run *)

(** The signals of a run that still has [pending] to do: an update for
    each chunk, a flush after each turn; the last turn prints the speed
    first when there is a timer. *)
Fixpoint run_events (timer : bool) (desc : string)
         (pending : list GeglRectangle) : list Event :=
  match pending with
  | [] => (if timer then [Printerr desc] else []) ++ [SignalFlush]
  | chunk :: rest =>
      SignalUpdate (r_x chunk) (r_y chunk) (r_width chunk) (r_height chunk)
      :: match rest with
         | [] => (if timer then [Printerr desc] else []) ++ [SignalFlush]
         | _ :: _ => SignalFlush :: run_events timer desc rest
         end
  end.

(** What one turn of the idle source signals for a chunk. *)
Definition turn_events (chunk : GeglRectangle) : list Event :=
  [SignalUpdate (r_x chunk) (r_y chunk) (r_width chunk) (r_height chunk);
   SignalFlush].







End Core.

Arguments GeglBuffer : clear implicits.
Arguments GimpDrawable : clear implicits.
Arguments UndoRecord : clear implicits.
Arguments GimpImage : clear implicits.
Arguments GeglOperation : clear implicits.
Arguments GimpImageMap : clear implicits.
Arguments World : clear implicits.
Arguments GimpObject : clear implicits.
Arguments Canvas : clear implicits.

(** * A small instance

    Pixels are numbers; a 4x4 drawable of value 10, a selection that
    covers the diagonal of the 2x2 square at (1,1), and an operation that
    inverts a pixel.  The
    processor hands out a rectangle as its first row, then the rest. *)

Module Example.

Definition runtime : GeglRuntime Z :=
  {| abyss := 0;
     babl_fish := fun _ _ p => p;
     gegl_over := Z.add;
     gimp_blend := fun _ _ _ _ src => src;
     gegl_processor_chunks := fun r =>
       [GEGL_RECTANGLE (r_x r) (r_y r) (r_width r) 1;
        GEGL_RECTANGLE (r_x r) (r_y r + 1) (r_width r) (r_height r - 1)] |}.

#[local] Existing Instance runtime.

Definition format : Babl := "R'G'B'A u8".

Definition item0 : GimpItem := mkItem true 4 4 0 0 true None.

Definition drawable0 : GimpDrawable Z :=
  mkDrawable item0
    (mkBuffer (GEGL_RECTANGLE 0 0 4 4) format (fun _ _ => 10))
    None None None None None None None None.

Definition selected : GeglRectangle := GEGL_RECTANGLE 1 1 2 2.

Definition image0 : GimpImage Z :=
  mkImage false selected
    (fun x y => if rect_contains selected x y && (x =? y) then 255 else 0)
    [].

Definition invert : GeglOperation Z :=
  mkOperation true true (fun input x y => 255 - input x y).

Definition fresh : World Z :=
  default
    (mkWorld drawable0 image0
       (mkImageMap "" None 0 0 None None 0 0 invert None 0%nat false 0)
       0%nat [])
    (gimp_image_map_new drawable0 image0 "Invert" invert false).

Definition whole : GeglRectangle := GEGL_RECTANGLE 0 0 4 4.

Definition applied : World Z := gimp_image_map_apply fresh whole.

Definition snapshot : GeglBuffer Z :=
  default (buffer drawable0) (undo_buffer (image_map applied)).

(** The drawable taken out of its image. *)
Definition detached : World Z :=
  set_drawable (set_item (mkItem false 4 4 0 0 true None) drawable0) fresh.

(** The same drawable after its image changed mode under the preview. *)
Definition converted : World Z :=
  set_drawable
    (set_buffer
       (mkBuffer (GEGL_RECTANGLE 0 0 4 4) "Y'A u8" (fun _ _ => 10))
       (drawable applied)) applied.

(** The world after the whole first run, with its undo buffer held. *)
Definition previewed : World Z := idle_dispatches 2 applied.

(** The same world with another selection in the same bounding box:
    only (2,2) is selected. *)
Definition reselected : World Z :=
  set_image
    (mkImage false selected
       (fun x y => if (x =? 2) && (y =? 2) then 255 else 0) [])
    previewed.

(** The converted drawable taken out of its image. *)
Definition abandoned : World Z :=
  set_drawable
    (set_item (mkItem false 4 4 0 0 true None) (drawable converted))
    converted.

(** A drawable at the origin and two layers, the first at (10,10). *)
Definition target : GimpObject Z :=
  mkObject
    (mkDrawable (mkItem true 50 50 0 0 true None)
       (mkBuffer (GEGL_RECTANGLE 0 0 50 50) format (fun _ _ => 0))
       None None None None None None None None)
    None.

Definition layer (x y : Z) : GimpObject Z :=
  mkObject
    (mkDrawable (mkItem true 20 20 x y true None)
       (mkBuffer (GEGL_RECTANGLE 0 0 20 20) format (fun _ _ => 255))
       None None None None None None None None)
    (Some (mkLayer None GIMP_NORMAL_MODE (1 # 2))).

Definition empty_canvas : Canvas Z :=
  mkCanvas (<[0%nat := target]> (<[1%nat := layer 10 10]>
                                   (<[2%nat := layer 0 0]> ∅)))
           (mkGegl ∅ ∅ 0%nat) None [] [].

Definition with_graph : Canvas Z :=
  (gimp_drawable_get_source_node 0
     (gimp_item_get_node 0 empty_canvas).1).1.

Definition floating : Canvas Z :=
  gimp_drawable_attach_floating_sel 0 1 with_graph.

Definition bound_target : GimpDrawable Z :=
  default (obj_drawable target) (the_drawable 0 floating).

Definition bound_layer : GimpDrawable Z :=
  default (obj_drawable target) (the_drawable 1 floating).

Definition with_node : Canvas Z := (gimp_item_get_node 0 empty_canvas).1.

Definition visible_target : GimpDrawable Z :=
  default (obj_drawable target) (the_drawable 0 with_node).

(** The previewed drawable taken out of its image while work is
    pending. *)
Definition orphaned : World Z :=
  set_drawable (set_item (mkItem false 4 4 0 0 true None) (drawable applied))
               applied.

(** A 2x2 buffer of value 7, as an undo step holds it. *)
Definition patch : GeglBuffer Z :=
  mkBuffer (GEGL_RECTANGLE 0 0 2 2) format (fun _ _ => 7).

(** The drawable and the first layer, both with their source nodes. *)
Definition sourced : Canvas Z :=
  (gimp_drawable_get_source_node 1 with_graph).1.

Definition sourced_target : GimpDrawable Z :=
  default (obj_drawable target) (the_drawable 0 sourced).

Definition sourced_layer : GimpDrawable Z :=
  default (obj_drawable target) (the_drawable 1 sourced).

End Example.

(** * Properties *)

Section Proofs.

Context {Pixel : Type} {runtime : GeglRuntime Pixel}.

Implicit Types (w : World Pixel) (b : GeglBuffer Pixel)
         (d : GimpDrawable Pixel) (r rect : GeglRectangle).

(** ** Machine integers *)

Lemma gint_small z : G_MININT <= z <= G_MAXINT -> gint z = z.
Proof.
  unfold gint, G_MININT, G_MAXINT. intros H.
  rewrite Z.mod_small by lia. lia.
Qed.

Lemma gint_range z : G_MININT <= gint z <= G_MAXINT.
Proof.
  unfold gint, G_MININT, G_MAXINT.
  pose proof (Z.mod_pos_bound (z + 2 ^ 31) (2 ^ 32) ltac:(lia)). lia.
Qed.

(** ** Rectangles and buffers *)

Lemma rect_contains_spec r x y :
  rect_contains r x y = true <->
  r_x r <= x < r_x r + r_width r /\ r_y r <= y < r_y r + r_height r.
Proof. unfold rect_contains. rewrite !andb_true_iff. lia. Qed.

Lemma rect_contains_false r x y :
  rect_contains r x y = false <->
  ~ (r_x r <= x < r_x r + r_width r /\ r_y r <= y < r_y r + r_height r).
Proof.
  rewrite <- rect_contains_spec. destruct (rect_contains r x y); split;
    intros; try congruence; try tauto.
Qed.

Lemma gimp_rectangle_intersect_Some (x1 y1 w1 h1 x2 y2 w2 h2 : Z) r :
  gimp_rectangle_intersect x1 y1 w1 h1 x2 y2 w2 h2 = Some r ->
  forall x y,
    rect_contains r x y = true <->
    rect_contains (GEGL_RECTANGLE x1 y1 w1 h1) x y = true /\
    rect_contains (GEGL_RECTANGLE x2 y2 w2 h2) x y = true.
Proof.
  unfold gimp_rectangle_intersect. intros Hr x y.
  destruct (_ && _) eqn:E; [|discriminate].
  injection Hr as <-. rewrite !rect_contains_spec. simpl. lia.
Qed.

Lemma gimp_rectangle_intersect_None (x1 y1 w1 h1 x2 y2 w2 h2 : Z) :
  gimp_rectangle_intersect x1 y1 w1 h1 x2 y2 w2 h2 = None <->
  forall x y,
    rect_contains (GEGL_RECTANGLE x1 y1 w1 h1) x y &&
    rect_contains (GEGL_RECTANGLE x2 y2 w2 h2) x y = false.
Proof.
  unfold gimp_rectangle_intersect. split.
  - destruct (_ && _) eqn:E; [discriminate|]. intros _ x y.
    apply andb_false_iff in E. rewrite !Z.ltb_ge in E.
    apply not_true_is_false. rewrite andb_true_iff, !rect_contains_spec.
    simpl. lia.
  - intros Hno. destruct (_ && _) eqn:E; [|reflexivity].
    apply andb_true_iff in E. rewrite !Z.ltb_lt in E.
    specialize (Hno (Z.max x1 x2) (Z.max y1 y2)).
    apply andb_false_iff in Hno. rewrite !rect_contains_false in Hno.
    simpl in Hno. lia.
Qed.

Lemma babl_convert_same (f : Babl) (p : Pixel) : babl_convert f f p = p.
Proof. unfold babl_convert. now rewrite String.eqb_refl. Qed.

(** ** The image map's pixel lookup *)

(** C10.  While the image map holds an undo buffer,
    [gimp_image_map_get_pixel_at] samples the undo buffer for a
    coordinate inside both the drawable and the undo rectangle, samples
    the drawable's own buffer for a coordinate inside the drawable but
    outside the undo rectangle, and returns [FALSE] ([None]) for a
    coordinate outside the drawable. *)
Theorem gimp_image_map_get_pixel_at_snapshot w ub x y format :
  undo_buffer (image_map w) = Some ub ->
  let m := image_map w in
  let in_drawable :=
    0 <= x < gimp_item_get_width (drawable w) /\
    0 <= y < gimp_item_get_height (drawable w) in
  let in_snapshot :=
    undo_offset_x m <= x < undo_offset_x m + gegl_buffer_get_width ub /\
    undo_offset_y m <= y < undo_offset_y m + gegl_buffer_get_height ub in
  (in_drawable -> in_snapshot ->
   gimp_image_map_get_pixel_at w x y format =
   Some (gegl_buffer_sample ub (x - undo_offset_x m) (y - undo_offset_y m)
                            format)) /\
  (in_drawable -> ~ in_snapshot ->
   gimp_image_map_get_pixel_at w x y format =
   Some (gegl_buffer_sample (gimp_drawable_get_buffer (drawable w)) x y
                            format) /\
   gimp_image_map_get_pixel_at w x y format =
   gimp_drawable_get_pixel_at (drawable w) x y format) /\
  (~ in_drawable -> gimp_image_map_get_pixel_at w x y format = None).
Proof.
  intros Hub m in_drawable in_snapshot. subst m in_drawable in_snapshot.
  unfold gimp_image_map_get_pixel_at, gimp_drawable_get_pixel_at.
  rewrite Hub. cbv zeta.
  split; [|split].
  - intros Hd Hs.
    replace ((0 <=? x) && _ && _ && _) with true
      by (symmetry; rewrite !andb_true_iff, !Z.leb_le, !Z.ltb_lt; lia).
    replace (_ && _ && _ && _) with true
      by (symmetry; rewrite !andb_true_iff, !Z.leb_le, !Z.ltb_lt; lia).
    reflexivity.
  - intros Hd Hs.
    replace ((0 <=? x) && _ && _ && _) with true
      by (symmetry; rewrite !andb_true_iff, !Z.leb_le, !Z.ltb_lt; lia).
    replace (_ && _ && _ && _) with false
      by (symmetry; apply not_true_is_false;
          rewrite !andb_true_iff, !Z.leb_le, !Z.ltb_lt; lia).
    replace (_ || _ || _ || _) with false
      by (symmetry; apply not_true_is_false;
          rewrite !orb_true_iff, !Z.leb_le, !Z.ltb_lt; lia).
    split; reflexivity.
  - intros Hd.
    replace (_ && _ && _ && _) with false
      by (symmetry; apply not_true_is_false;
          rewrite !andb_true_iff, !Z.leb_le, !Z.ltb_lt; lia).
    reflexivity.
Qed.

(** ** Stopping the idle source *)

Lemma stop_idle_drawable w :
  drawable (gimp_image_map_stop_idle w) = drawable w.
Proof.
  unfold gimp_image_map_stop_idle.
  destruct (Nat.eqb _ _); [reflexivity|].
  destruct (processor _); reflexivity.
Qed.

Lemma stop_idle_image w : image (gimp_image_map_stop_idle w) = image w.
Proof.
  unfold gimp_image_map_stop_idle.
  destruct (Nat.eqb _ _); [reflexivity|].
  destruct (processor _); reflexivity.
Qed.

Lemma stop_idle_log w : log (gimp_image_map_stop_idle w) = log w.
Proof.
  unfold gimp_image_map_stop_idle.
  destruct (Nat.eqb _ _); [reflexivity|].
  destruct (processor _); reflexivity.
Qed.

Lemma stop_idle_undo w :
  undo_buffer (image_map (gimp_image_map_stop_idle w)) =
  undo_buffer (image_map w) /\
  undo_offset_x (image_map (gimp_image_map_stop_idle w)) =
  undo_offset_x (image_map w) /\
  undo_offset_y (image_map (gimp_image_map_stop_idle w)) =
  undo_offset_y (image_map w).
Proof.
  unfold gimp_image_map_stop_idle.
  destruct (Nat.eqb _ _); [auto|].
  destruct (processor _); simpl; auto.
Qed.

Lemma stop_idle_idle_id w :
  idle_id (image_map (gimp_image_map_stop_idle w)) = 0%nat.
Proof.
  unfold gimp_image_map_stop_idle.
  destruct (Nat.eqb _ _) eqn:E; [now apply Nat.eqb_eq in E|].
  destruct (processor _); reflexivity.
Qed.

(** ** [gimp_image_map_apply] *)

(** C9.  The rectangle passed to [gimp_image_map_apply] is never read:
    two calls that differ only in it produce the same world, hence the
    same undo buffer, the same processing rectangle and the same
    pixels. *)
Theorem gimp_image_map_apply_ignores_visible w (v1 v2 : GeglRectangle) :
  gimp_image_map_apply w v1 = gimp_image_map_apply w v2.
Proof. reflexivity. Qed.

(** C4.  [gimp_image_map_apply] works on the intersection of the
    drawable's bounds with the bounding box of the selection: the
    processor is created for that rectangle and the undo buffer and the
    translation are anchored at its origin.  When the two have no pixel
    in common, or the drawable is not attached, the drawable, the image
    and the undo buffer are left as they were and no idle source is
    installed. *)
Theorem gimp_image_map_apply_region w (visible : GeglRectangle) :
  let d := drawable w in
  let bounds :=
    GEGL_RECTANGLE 0 0 (gimp_item_get_width d) (gimp_item_get_height d) in
  let w' := gimp_image_map_apply w visible in
  (gimp_item_is_attached d = true ->
   forall x y,
     rect_contains (mask_bounds (image w)) x y = true ->
     rect_contains bounds x y = true ->
     exists rect,
       (forall x y,
          rect_contains rect x y = true <->
          rect_contains (mask_bounds (image w)) x y = true /\
          rect_contains bounds x y = true) /\
       processor (image_map w') =
         Some (mkProcessor rect (gegl_processor_chunks rect)) /\
       translate_x (image_map w') = r_x rect /\
       translate_y (image_map w') = r_y rect /\
       undo_offset_x (image_map w') = r_x rect /\
       undo_offset_y (image_map w') = r_y rect /\
       idle_id (image_map w') <> 0%nat) /\
  (gimp_item_is_attached d = false \/
   (forall x y,
      rect_contains (mask_bounds (image w)) x y &&
      rect_contains bounds x y = false) ->
   w' = gimp_image_map_stop_idle w /\
   drawable w' = drawable w /\
   image w' = image w /\
   undo_buffer (image_map w') = undo_buffer (image_map w) /\
   idle_id (image_map w') = 0%nat /\
   log w' = log w).
Proof.
  intros d bounds w'. subst d bounds w'. split.
  - intros Hatt x y Hm Hb.
    unfold gimp_image_map_apply.
    rewrite stop_idle_drawable, stop_idle_image, Hatt. simpl negb. cbv iota.
    unfold gimp_item_mask_intersect.
    destruct (gimp_rectangle_intersect _ _ _ _ _ _ _ _) as [rect|] eqn:Hint.
    + exists rect. split.
      { intros x' y'.
        rewrite (gimp_rectangle_intersect_Some _ _ _ _ _ _ _ _ _ Hint).
        destruct (mask_bounds (image w)); reflexivity. }
      destruct (gimp_drawable_get_shadow_buffer _) as [d2 out] eqn:Hsh.
      assert (Hoff :
        undo_offset_x
          (image_map
             (gimp_image_map_update_undo_buffer
                (gimp_image_map_stop_idle w) rect)) = r_x rect /\
        undo_offset_y
          (image_map
             (gimp_image_map_update_undo_buffer
                (gimp_image_map_stop_idle w) rect)) = r_y rect).
      { unfold gimp_image_map_update_undo_buffer.
        destruct (undo_buffer (image_map (gimp_image_map_stop_idle w)))
          as [ub|]; simpl.
        - match goal with
          | |- context [if ?c then _ else _] => destruct c eqn:E
          end; simpl; [auto|].
          rewrite !orb_false_iff, !negb_false_iff, !Z.eqb_eq in E. lia.
        - auto. }
      destruct Hoff as [Hox Hoy].
      cbv zeta.
      destruct (gegl (image_map _)); destruct (timer _);
        repeat match goal with
        | |- context [if ?c then _ else _] => destruct c
        end; simpl; auto 10.
    + exfalso.
      pose proof (proj1 (gimp_rectangle_intersect_None _ _ _ _ _ _ _ _)
                        Hint x y) as Hxy.
      destruct (mask_bounds (image w)). simpl in *.
      rewrite Hm, Hb in Hxy. discriminate.
  - intros Hno.
    assert (Heq : gimp_image_map_apply w visible =
                  gimp_image_map_stop_idle w).
    { unfold gimp_image_map_apply.
      rewrite stop_idle_drawable, stop_idle_image.
      destruct Hno as [Hatt|Hemp]; [now rewrite Hatt|].
      destruct (negb _); [reflexivity|].
      unfold gimp_item_mask_intersect.
      replace (gimp_rectangle_intersect _ _ _ _ _ _ _ _) with
        (@None GeglRectangle); [reflexivity|].
      symmetry. apply gimp_rectangle_intersect_None.
      intros x y. specialize (Hemp x y).
      destruct (mask_bounds (image w)); exact Hemp. }
    rewrite Heq.
    pose proof (stop_idle_undo w) as (Hu & _ & _).
    repeat split;
      auto using stop_idle_drawable, stop_idle_image, stop_idle_idle_id,
        stop_idle_log.
Qed.

(** ** [gimp_image_map_clear] *)


(** ** What the idle source preserves *)

Ltac split_cases :=
  repeat (match goal with
          | |- context [match ?x with _ => _ end] =>
              match type of x with
              | bool => destruct x eqn:?
              | option _ => destruct x eqn:?
              | list _ => destruct x eqn:?
              end
          end; simpl).

Lemma set_pixel_count_id (m : GimpImageMap Pixel) :
  set_pixel_count (pixel_count m) m = m.
Proof. destruct m; reflexivity. Qed.

Lemma data_written_session e w :
  session (gimp_image_map_data_written e w) = session w.
Proof.
  unfold session, gimp_image_map_data_written,
    gimp_drawable_get_shadow_buffer, gimp_drawable_apply_buffer,
    gimp_drawable_real_apply_buffer, gimp_drawable_update,
    gimp_drawable_get_buffer.
  split_cases; congruence.
Qed.

Lemma data_written_image_map e w :
  exists c,
    image_map (gimp_image_map_data_written e w) =
    set_pixel_count c (image_map w).
Proof.
  unfold gimp_image_map_data_written,
    gimp_drawable_get_shadow_buffer, gimp_drawable_apply_buffer,
    gimp_drawable_real_apply_buffer, gimp_drawable_update.
  split_cases; simpl; eauto using eq_sym, set_pixel_count_id.
Qed.

Lemma write_buffer_session chunk w :
  session (gegl_write_buffer chunk w) = session w /\
  image_map (gegl_write_buffer chunk w) = image_map w.
Proof.
  unfold session, gegl_write_buffer. split_cases; auto.
Qed.

Lemma processor_work_session w :
  session (gegl_processor_work w).1 = session w.
Proof.
  unfold gegl_processor_work.
  destruct (processor (image_map w)) as [p|]; [|reflexivity].
  destruct (proc_pending p) as [|chunk rest]; [reflexivity|].
  cbn [fst].
  transitivity (session (gimp_image_map_data_written chunk
                           (gegl_write_buffer chunk w))).
  - reflexivity.
  - rewrite data_written_session. apply write_buffer_session.
Qed.

Lemma processor_work_pending w w' :
  gegl_processor_work w = (w', true) ->
  (pending_chunks w' < pending_chunks w)%nat.
Proof.
  unfold gegl_processor_work, pending_chunks.
  destruct (processor (image_map w)) as [p|]; [|congruence].
  destruct (proc_pending p) as [|chunk rest]; [congruence|].
  intros [= <- _]. simpl. lia.
Qed.

Lemma do_session w : session (gimp_image_map_do w).1 = session w.
Proof.
  unfold gimp_image_map_do.
  destruct (negb _).
  - destruct (processor _); reflexivity.
  - pose proof (processor_work_session w) as Hs.
    destruct (gegl_processor_work w) as [w1 pending]. cbn [fst] in Hs.
    rewrite <- Hs.
    destruct pending; simpl; [reflexivity|].
    destruct (timer _); reflexivity.
Qed.

Lemma do_pending w w' :
  gimp_image_map_do w = (w', true) ->
  (pending_chunks w' < pending_chunks w)%nat.
Proof.
  unfold gimp_image_map_do.
  destruct (negb _).
  - destruct (processor _); congruence.
  - destruct (gegl_processor_work w) as [w1 pending] eqn:Hw.
    destruct pending; simpl.
    + intros [= <-]. apply (processor_work_pending _ _ Hw).
    + congruence.
Qed.

Lemma do_done w w' :
  gimp_image_map_do w = (w', false) -> idle_id (image_map w') = 0%nat.
Proof.
  unfold gimp_image_map_do.
  destruct (negb _).
  - destruct (processor _); intros [= <-]; reflexivity.
  - destruct (gegl_processor_work w) as [w1 pending].
    destruct pending; simpl; [congruence|].
    destruct (timer _); intros [= <-]; reflexivity.
Qed.

(** The loop of [gimp_image_map_commit] ends: one turn per pending
    chunk, and one more, is enough. *)
Lemma finish_changes_total fuel w :
  (pending_chunks w < fuel)%nat ->
  exists w', finish_changes fuel w = Some w' /\
             session w' = session w /\
             idle_id (image_map w') = 0%nat.
Proof.
  revert w. induction fuel as [|fuel IH]; intros w Hlt; [lia|].
  simpl. pose proof (do_session w) as Hs.
  destruct (gimp_image_map_do w) as [w1 again] eqn:Hdo. cbn [fst] in Hs.
  destruct again.
  - apply do_pending in Hdo.
    destruct (IH w1) as (w' & -> & Hs' & Hid); [lia|].
    exists w'. repeat split; congruence.
  - exists w1. repeat split; eauto using do_done.
Qed.

Lemma idle_dispatch_session w : session (idle_dispatch w) = session w.
Proof.
  unfold idle_dispatch. destruct (Nat.eqb _ _); [reflexivity|].
  apply do_session.
Qed.

Lemma idle_dispatches_session n w :
  session (idle_dispatches n w) = session w.
Proof.
  revert w. induction n as [|n IH]; intros w; [reflexivity|].
  simpl. rewrite IH. apply idle_dispatch_session.
Qed.

Lemma stop_idle_session w : session (gimp_image_map_stop_idle w) = session w.
Proof.
  unfold gimp_image_map_stop_idle.
  destruct (Nat.eqb _ _); [reflexivity|].
  destruct (processor _); reflexivity.
Qed.

(** ** [gimp_image_map_commit] *)

Lemma commit_finish_changes_spec w :
  session (commit_finish_changes w) = session w /\
  idle_id (image_map (commit_finish_changes w)) = 0%nat.
Proof.
  unfold commit_finish_changes.
  destruct (Nat.eqb _ _) eqn:E; [apply Nat.eqb_eq in E; auto|].
  set (w0 := set_image_map _ w).
  destruct (finish_changes_total (S (pending_chunks w0)) w0)
    as (w' & -> & Hs & Hid); [lia|].
  split; [rewrite Hs; reflexivity | exact Hid].
Qed.

Lemma session_attached w w' :
  session w' = session w ->
  gimp_item_is_attached (drawable w') = gimp_item_is_attached (drawable w).
Proof.
  unfold session, gimp_item_is_attached. intros [= -> _]. reflexivity.
Qed.

Lemma commit_register_undo_spec w :
  idle_id (image_map (commit_register_undo w)) = idle_id (image_map w) /\
  gimp_item_is_attached (drawable (commit_register_undo w)) =
    gimp_item_is_attached (drawable w) /\
  (gimp_item_is_attached (drawable w) = true ->
   undo_buffer (image_map (commit_register_undo w)) = None).
Proof.
  unfold commit_register_undo, gimp_drawable_push_undo,
    gimp_drawable_real_push_undo, gimp_image_undo_push_drawable.
  destruct (gimp_item_is_attached (drawable w)) eqn:Hatt; simpl.
  - destruct (undo_buffer (image_map w)) eqn:Hub; simpl; auto.
  - split; [reflexivity|]. split; [assumption|discriminate].
Qed.

Lemma commit_register_undo_done w :
  gimp_item_is_attached (drawable w) = false \/
  undo_buffer (image_map w) = None ->
  commit_register_undo w = w.
Proof.
  unfold commit_register_undo. intros [->| ->]; [reflexivity|].
  destruct (negb _); reflexivity.
Qed.

Lemma commit_finish_changes_idle w :
  idle_id (image_map w) = 0%nat -> commit_finish_changes w = w.
Proof. unfold commit_finish_changes. intros ->. reflexivity. Qed.

(** C5.  A second [gimp_image_map_commit] changes nothing: the first
    one has stopped the idle source and, for an attached drawable, given
    the undo buffer to the undo stack and cleared it, so the second
    pushes no undo step and does no work. *)
Theorem gimp_image_map_commit_twice w :
  gimp_image_map_commit (gimp_image_map_commit w) = gimp_image_map_commit w /\
  idle_id (image_map (gimp_image_map_commit w)) = 0%nat /\
  (gimp_item_is_attached (drawable w) = true ->
   undo_buffer (image_map (gimp_image_map_commit w)) = None).
Proof.
  unfold gimp_image_map_commit.
  destruct (commit_finish_changes_spec w) as [Hs Hid].
  destruct (commit_register_undo_spec (commit_finish_changes w))
    as (Hid' & Hatt' & Hnone).
  rewrite Hid in Hid'.
  pose proof (session_attached _ _ Hs) as Hatt.
  split; [|split].
  - rewrite (commit_finish_changes_idle _ Hid').
    apply commit_register_undo_done.
    destruct (gimp_item_is_attached (drawable (commit_finish_changes w)))
      eqn:E.
    + right. auto.
    + left. congruence.
  - exact Hid'.
  - intros Ha. apply Hnone. congruence.
Qed.

(** ** The undo buffer *)

Lemma update_undo_buffer_kept w rect :
  snapshot_kept w rect = true ->
  gimp_image_map_update_undo_buffer w rect = w.
Proof.
  unfold snapshot_kept, gimp_image_map_update_undo_buffer.
  destruct (undo_buffer (image_map w)) as [ub|]; [|discriminate].
  rewrite !andb_true_iff. intros (((-> & ->) & ->) & ->). simpl.
  reflexivity.
Qed.

Lemma update_undo_buffer_frame w rect :
  drawable (gimp_image_map_update_undo_buffer w rect) = drawable w /\
  image (gimp_image_map_update_undo_buffer w rect) = image w /\
  log (gimp_image_map_update_undo_buffer w rect) = log w.
Proof.
  unfold gimp_image_map_update_undo_buffer.
  destruct (undo_buffer (image_map w)); simpl;
    repeat match goal with
           | |- context [if ?c then _ else _] => destruct c
           end; auto.
Qed.

(** What [gimp_image_map_update_undo_buffer] leaves when it copies: an
    undo buffer of the rectangle's size, anchored at its origin, holding
    the drawable's pixels of the rectangle. *)
Lemma update_undo_buffer_copied w rect :
  buffers_consistent w ->
  snapshot_kept w rect = false ->
  exists ub,
    undo_buffer (image_map (gimp_image_map_update_undo_buffer w rect))
      = Some ub /\
    undo_offset_x (image_map (gimp_image_map_update_undo_buffer w rect))
      = r_x rect /\
    undo_offset_y (image_map (gimp_image_map_update_undo_buffer w rect))
      = r_y rect /\
    buf_extent ub = GEGL_RECTANGLE 0 0 (r_width rect) (r_height rect) /\
    buf_format ub = gimp_drawable_get_format (drawable w) /\
    forall x y,
      rect_contains (buf_extent ub) x y = true ->
      buf_pixels ub x y =
      gegl_buffer_get (buffer (drawable w)) (x + r_x rect) (y + r_y rect).
Proof.
  intros [Hext Hundo] Hkept.
  unfold snapshot_kept in Hkept.
  unfold gimp_image_map_update_undo_buffer.
  revert Hundo Hkept.
  assert (Hcopy :
    forall ub0 : GeglBuffer Pixel,
      buf_extent ub0 = GEGL_RECTANGLE 0 0 (r_width rect) (r_height rect) ->
      buf_format ub0 = gimp_drawable_get_format (drawable w) ->
      let ub := gegl_buffer_copy (gimp_drawable_get_buffer (drawable w))
                  rect ub0 (GEGL_RECTANGLE 0 0 0 0) in
      buf_extent ub = GEGL_RECTANGLE 0 0 (r_width rect) (r_height rect) /\
      buf_format ub = gimp_drawable_get_format (drawable w) /\
      forall x y,
        rect_contains (buf_extent ub) x y = true ->
        buf_pixels ub x y =
        gegl_buffer_get (buffer (drawable w))
                        (x + r_x rect) (y + r_y rect)).
  { intros ub0 He Hf ub. subst ub. simpl. repeat split; auto.
    intros x y Hin. rewrite He in Hin. rewrite Hin.
    rewrite Hf. unfold gimp_drawable_get_format, gegl_buffer_get_format,
      gimp_drawable_get_buffer.
    rewrite babl_convert_same. f_equal; lia. }
  destruct (undo_buffer (image_map w)) as [ub0|] eqn:Hub; simpl;
    intros Hundo Hkept.
  - destruct Hundo as (Hx0 & Hy0 & Hfmt0).
    simpl in Hkept.
    match goal with
    | |- context [if ?c then _ else _] => destruct c eqn:Hc
    end.
    + simpl.
      destruct (negb (gegl_buffer_get_width ub0 =? r_width rect)
                || negb (gegl_buffer_get_height ub0 =? r_height rect))
        eqn:Hsize.
      * eexists. repeat split; try reflexivity; apply Hcopy; reflexivity.
      * apply orb_false_iff in Hsize. destruct Hsize as [Hw Hh].
        apply negb_false_iff, Z.eqb_eq in Hw, Hh.
        eexists. repeat split; try reflexivity; apply Hcopy; auto.
        all: unfold gegl_buffer_get_width, gegl_buffer_get_height in *;
          destruct (buf_extent ub0); simpl in *; congruence.
    + exfalso. rewrite !orb_false_iff, !negb_false_iff in Hc.
      rewrite !Z.eqb_eq in Hc. rewrite !andb_false_iff, !Z.eqb_neq in Hkept.
      tauto.
  - eexists. repeat split; try reflexivity; apply Hcopy; reflexivity.
Qed.


Lemma apply_spec w visible rect :
  gimp_item_is_attached (drawable w) = true ->
  gimp_item_mask_intersect (drawable w) (image w) = Some rect ->
  let w0 := gimp_image_map_update_undo_buffer
              (gimp_image_map_stop_idle w) rect in
  let w1 := gimp_image_map_apply w visible in
  item (drawable w1) = item (drawable w) /\
  buffer (drawable w1) = buffer (drawable w) /\
  image w1 = image w /\
  log w1 = log w /\
  undo_buffer (image_map w1) = undo_buffer (image_map w0) /\
  undo_offset_x (image_map w1) = undo_offset_x (image_map w0) /\
  undo_offset_y (image_map w1) = undo_offset_y (image_map w0) /\
  input_buffer (image_map w1) = undo_buffer (image_map w0) /\
  translate_x (image_map w1) = r_x rect /\
  translate_y (image_map w1) = r_y rect /\
  processor (image_map w1) =
    Some (mkProcessor rect (gegl_processor_chunks rect)) /\
  is_Some (shadow (drawable w1)) /\
  is_Some (gegl (image_map w1)) /\
  idle_id (image_map w1) <> 0%nat.
Proof.
  intros Hatt Hrect w0 w1. subst w0 w1.
  unfold gimp_image_map_apply.
  rewrite stop_idle_drawable, stop_idle_image, Hatt, Hrect.
  simpl negb. cbv iota.
  destruct (update_undo_buffer_frame (gimp_image_map_stop_idle w) rect)
    as (Hd & Hi & Hl).
  rewrite stop_idle_drawable in Hd. rewrite stop_idle_image in Hi.
  rewrite stop_idle_log in Hl.
  unfold gimp_drawable_get_shadow_buffer. rewrite Hd.
  destruct (shadow (drawable w)) eqn:Hsh; cbv zeta;
    destruct (gegl (image_map _)) eqn:Hg; destruct (timer _);
    repeat match goal with
           | |- context [if ?c then _ else _] => destruct c
           end; simpl; rewrite ?Hsh, ?Hg; repeat split; eauto.
Qed.

Lemma session_inv w w' :
  session w' = session w ->
  item (drawable w') = item (drawable w) /\
  buf_extent (buffer (drawable w')) = buf_extent (buffer (drawable w)) /\
  buf_format (buffer (drawable w')) = buf_format (buffer (drawable w)) /\
  image w' = image w /\
  undo_buffer (image_map w') = undo_buffer (image_map w) /\
  undo_offset_x (image_map w') = undo_offset_x (image_map w) /\
  undo_offset_y (image_map w') = undo_offset_y (image_map w) /\
  gegl (image_map w') = gegl (image_map w) /\
  input_buffer (image_map w') = input_buffer (image_map w) /\
  translate_x (image_map w') = translate_x (image_map w) /\
  translate_y (image_map w') = translate_y (image_map w) /\
  operation (image_map w') = operation (image_map w).
Proof. unfold session. intros H. injection H. intros. tauto. Qed.


Lemma session_buffers_consistent w w' :
  session w' = session w -> buffers_consistent w -> buffers_consistent w'.
Proof.
  intros H. apply session_inv in H.
  destruct H as (Hi & He & Hf & _ & Hu & _).
  unfold buffers_consistent, gimp_item_get_width, gimp_item_get_height,
    gimp_drawable_get_format, gegl_buffer_get_format.
  now rewrite Hi, He, Hf, Hu.
Qed.

Lemma session_snapshot_kept w w' rect :
  session w' = session w -> snapshot_kept w' rect = snapshot_kept w rect.
Proof.
  intros H. apply session_inv in H.
  destruct H as (_ & _ & _ & _ & Hu & Hx & Hy & _).
  unfold snapshot_kept. now rewrite Hu, Hx, Hy.
Qed.

(** What [gimp_image_map_clear] writes: inside the undo rectangle the
    drawable's buffer gets the undo buffer's pixels. *)
Lemma clear_restores w ub :
  gimp_item_is_attached (drawable w) = true ->
  undo_buffer (image_map w) = Some ub ->
  gegl_buffer_get_format ub = gimp_drawable_get_format (drawable w) ->
  undo_buffer (image_map (gimp_image_map_clear w)) = None /\
  forall x y,
    rect_contains
      (GEGL_RECTANGLE (undo_offset_x (image_map w))
                      (undo_offset_y (image_map w))
                      (gegl_buffer_get_width ub)
                      (gegl_buffer_get_height ub)) x y = true ->
    rect_contains (buf_extent (buffer (drawable w))) x y = true ->
    gegl_buffer_get (buffer (drawable (gimp_image_map_clear w))) x y =
    snapshot_pixel w x y.
Proof.
  intros Hatt Hub Hfmt.
  unfold gimp_image_map_clear.
  pose proof (stop_idle_undo w) as (Hu & Hx & Hy).
  rewrite stop_idle_drawable, Hatt, Hu, Hub, Hx, Hy. simpl negb. cbv iota.
  rewrite Hfmt, String.eqb_refl. simpl.
  split; [reflexivity|].
  intros x y Hin Hext.
  unfold gegl_buffer_get at 1. simpl.
  unfold gimp_drawable_get_buffer. rewrite Hext, Hin.
  unfold gimp_drawable_get_format in Hfmt.
  unfold gegl_buffer_get_format in Hfmt. rewrite Hfmt.
  rewrite babl_convert_same.
  unfold snapshot_pixel. rewrite Hub. f_equal; lia.
Qed.

(** An image map fresh from [gimp_image_map_new] holds no undo buffer, so
    its first apply takes the copy. *)
Lemma gimp_image_map_new_fresh d (i : GimpImage Pixel) desc op unstable w :
  gimp_image_map_new d i desc op unstable = Some w ->
  drawable w = d /\ image w = i /\
  operation (image_map w) = op /\
  gimp_item_is_attached (drawable w) = true /\
  undo_buffer (image_map w) = None /\
  forall rect, snapshot_kept w rect = false.
Proof.
  unfold gimp_image_map_new.
  destruct (gimp_item_is_attached d) eqn:Hatt; [|discriminate].
  simpl. intros [= <-]. simpl. auto 10.
Qed.


(** ** The "computed" notification *)






Lemma data_written_log extent w ub :
  gimp_item_is_attached (drawable w) = true ->
  undo_buffer (image_map w) = Some ub ->
  log (gimp_image_map_data_written extent w) =
  log w ++ [SignalUpdate (r_x extent) (r_y extent)
                         (r_width extent) (r_height extent)].
Proof.
  intros Hatt Hub. unfold gimp_image_map_data_written. rewrite Hub.
  unfold gimp_drawable_get_shadow_buffer, gimp_drawable_apply_buffer,
    gimp_drawable_real_apply_buffer, gimp_drawable_update,
    gimp_item_is_attached in *.
  destruct (gimp_channel_is_empty (image w)); simpl;
    destruct (shadow (drawable w)); simpl; rewrite Hatt; simpl;
    destruct (timer (image_map w)); reflexivity.
Qed.

(** ** The node graph *)

Implicit Types (c : Canvas Pixel) (o : GimpObject Pixel).

Lemma the_drawable_update p q f c :
  the_drawable q (update_drawable p f c) =
  if decide (p = q) then f <$> the_drawable q c else the_drawable q c.
Proof.
  unfold the_drawable, update_drawable. simpl.
  rewrite lookup_alter. destruct (decide (p = q)); [|reflexivity].
  subst. destruct (objects c !! q); reflexivity.
Qed.

Lemma the_drawable_update_graph q f c :
  the_drawable q (update_graph f c) = the_drawable q c.
Proof. reflexivity. Qed.

Lemma the_drawable_canvas_emit q e c :
  the_drawable q (canvas_emit e c) = the_drawable q c.
Proof. reflexivity. Qed.

Lemma the_drawable_set_handlers q h c :
  the_drawable q (set_handlers h c) = the_drawable q c.
Proof. reflexivity. Qed.

Lemma the_drawable_update_eq p f c :
  the_drawable p (update_drawable p f c) = f <$> the_drawable p c.
Proof. rewrite the_drawable_update. now rewrite decide_True. Qed.

Create Rewrite HintDb canvas.
Hint Rewrite the_drawable_update_graph the_drawable_canvas_emit
     the_drawable_set_handlers the_drawable_update_eq : canvas.

(** C8.  [gimp_drawable_attach_floating_sel] on a drawable that already
    has a floating selection fails its precondition check before it
    changes anything: the drawables (hence the existing binding), the
    graph, the image's floating selection and the signal handlers are
    what they were; only the failed check is reported. *)
Theorem gimp_drawable_attach_floating_sel_bound p floating_sel c d bound :
  the_drawable p c = Some d ->
  gimp_drawable_get_floating_sel d = Some bound ->
  let c' := gimp_drawable_attach_floating_sel p floating_sel c in
  objects c' = objects c /\
  the_drawable p c' = Some d /\
  graph c' = graph c /\
  image_floating_selection c' = image_floating_selection c /\
  handlers c' = handlers c /\
  (exists check, canvas_log c' = canvas_log c ++ [Critical check]) /\
  (gimp_item_is_attached d = true ->
   canvas_log c' =
     canvas_log c ++
     [Critical "gimp_drawable_get_floating_sel (drawable) == NULL"]).
Proof.
  intros Hd Hfs c'. subst c'.
  unfold gimp_drawable_attach_floating_sel. rewrite Hd, Hfs.
  destruct (gimp_item_is_attached d); simpl;
    repeat split; eauto; discriminate.
Qed.

(** [gimp_drawable_get_node] wires a visible drawable through its mode
    node. *)
Lemma gimp_drawable_get_node_visible p c d :
  the_drawable p c = Some d ->
  gimp_item_get_visible d = true ->
  exists node mode d',
    (gimp_drawable_get_node p c).2 = Some node /\
    the_drawable p (gimp_drawable_get_node p c).1 = Some d' /\
    item_node (item d') = Some node /\
    mode_node d' = Some mode /\
    item_visible (item d') = true /\
    connections (graph (gimp_drawable_get_node p c).1)
      !! (NodeRef mode, "input") = Some (InputProxy node "input", "output") /\
    connections (graph (gimp_drawable_get_node p c).1)
      !! (OutputProxy node "output", "input") = Some (NodeRef mode, "output").
Proof.
  intros Hd Hvis. unfold gimp_drawable_get_node. rewrite Hd, Hvis.
  unfold canvas_node_new, canvas_node_new_child, gegl_node_new,
    gegl_node_new_child, gimp_item_get_visible in *.
  destruct (mode_node d) eqn:Hm; simpl;
    autorewrite with canvas; rewrite Hd; simpl;
    (eexists _, _, _; repeat split; try reflexivity; try exact Hvis;
     unfold gegl_node_connect_to, gegl_node_get_input_proxy,
       gegl_node_get_output_proxy; simpl;
     [ rewrite lookup_insert_ne by congruence; apply lookup_insert_eq
     | apply lookup_insert_eq ]).
Qed.

Lemma set_item_visible_same d :
  set_item (set_item_visible (item_visible (item d)) (item d)) d = d.
Proof. destruct d as [[] ? ? ? ? ? ? ? ? ?]; reflexivity. Qed.

Lemma alter_visible_restore (objs : gmap nat (GimpObject Pixel)) p o :
  objs !! p = Some o ->
  item_visible (item (obj_drawable o)) = true ->
  alter (fun o => mkObject
                    (set_item (set_item_visible true (item (obj_drawable o)))
                              (obj_drawable o)) (obj_layer o)) p
    (alter (fun o => mkObject
                       (set_item
                          (set_item_visible false (item (obj_drawable o)))
                          (obj_drawable o)) (obj_layer o)) p objs) = objs.
Proof.
  intros Ho Hvis. apply map_eq. intros q. rewrite lookup_alter.
  destruct (decide (p = q)) as [<-|Hne].
  - rewrite lookup_alter, decide_True by reflexivity.
    rewrite Ho. simpl. f_equal.
    destruct o as [[[] ? ? ? ? ? ? ? ? ?] l]. simpl in *. subst.
    reflexivity.
  - now rewrite lookup_alter, decide_False by exact Hne.
Qed.

(** C7.  For a drawable whose node exists, making it invisible connects
    the input proxy straight to the output proxy and leaves the mode
    node's input unconnected; making it visible again connects the input
    proxy to the mode node and the mode node to the output proxy.  When
    the drawable was visible and wired that way before, the whole canvas,
    the connections included, is back to what it was. *)
Theorem gimp_drawable_visibility_toggle p c d node mode :
  the_drawable p c = Some d ->
  gimp_item_peek_node d = Some node ->
  mode_node d = Some mode ->
  let input := gegl_node_get_input_proxy node "input" in
  let output := gegl_node_get_output_proxy node "output" in
  let hidden := gimp_item_set_visible p false c in
  let shown := gimp_item_set_visible p true hidden in
  (connections (graph hidden) !! (output, "input") = Some (input, "output") /\
   connections (graph hidden) !! (NodeRef mode, "input") = None) /\
  (connections (graph shown) !! (NodeRef mode, "input")
     = Some (input, "output") /\
   connections (graph shown) !! (output, "input")
     = Some (NodeRef mode, "output")) /\
  (gimp_item_get_visible d = true ->
   connections (graph c) !! (NodeRef mode, "input") = Some (input, "output") ->
   connections (graph c) !! (output, "input") = Some (NodeRef mode, "output") ->
   shown = c).
Proof.
  intros Hd Hnode Hmode input output hidden shown.
  assert (Hhidden :
    hidden =
    update_graph
      (fun g => gegl_node_connect_to input "output" output "input"
                  (gegl_node_disconnect (NodeRef mode) "input" g))
      (update_drawable p
         (fun d => set_item (set_item_visible false (item d)) d) c)).
  { subst hidden. unfold gimp_item_set_visible,
      gimp_drawable_visibility_changed.
    autorewrite with canvas. rewrite Hd. simpl.
    unfold gimp_item_peek_node in *. simpl. rewrite Hnode, Hmode.
    reflexivity. }
  assert (Hshown :
    shown =
    update_graph
      (fun g => gegl_node_connect_to (NodeRef mode) "output" output "input"
                  (gegl_node_connect_to input "output" (NodeRef mode) "input"
                     g))
      (update_drawable p
         (fun d => set_item (set_item_visible true (item d)) d) hidden)).
  { subst shown. unfold gimp_item_set_visible,
      gimp_drawable_visibility_changed.
    autorewrite with canvas. rewrite Hhidden.
    autorewrite with canvas. rewrite Hd. simpl.
    unfold gimp_item_peek_node in *. simpl. rewrite Hnode, Hmode.
    reflexivity. }
  assert (Hne : (output, "input") <> (NodeRef mode, "input"))
    by (subst output; discriminate).
  split; [|split].
  - rewrite Hhidden. simpl. split.
    + apply lookup_insert_eq.
    + rewrite lookup_insert_ne by exact Hne. apply lookup_delete_eq.
  - rewrite Hshown. simpl. split.
    + rewrite lookup_insert_ne by exact Hne. apply lookup_insert_eq.
    + apply lookup_insert_eq.
  - intros Hvis Hin Hout.
    rewrite Hshown, Hhidden.
    destruct c as [objs g hi hs lg]. destruct g as [ns cs nx].
    unfold update_graph, update_drawable, gegl_node_connect_to,
      gegl_node_disconnect. simpl in *.
    f_equal.
    + unfold the_drawable in Hd. simpl in Hd.
      destruct (objs !! p) as [o|] eqn:Ho; [|discriminate].
      injection Hd as <-. now apply alter_visible_restore with o.
    + f_equal. apply map_eq. intros k.
      destruct (decide (k = (output, "input"))) as [->|Hk1].
      { rewrite lookup_insert_eq. now rewrite Hout. }
      rewrite lookup_insert_ne by congruence.
      destruct (decide (k = (NodeRef mode, "input"))) as [->|Hk2].
      { rewrite lookup_insert_eq. now rewrite Hin. }
      rewrite lookup_insert_ne by congruence.
      rewrite lookup_insert_ne by congruence.
      now rewrite lookup_delete_ne by congruence.
Qed.

(** ** Node properties *)

Lemma foldl_insert_lookup_notin (props : list (string * PropValue))
      (m : gmap string PropValue) k :
  k ∉ props.*1 ->
  foldl (fun m kv => <[kv.1 := kv.2]> m) m props !! k = m !! k.
Proof.
  revert m. induction props as [|[k' v'] props IH]; intros m Hk; simpl.
  - reflexivity.
  - simpl in Hk. apply not_elem_of_cons in Hk as [Hne Hk].
    rewrite IH by exact Hk. now rewrite lookup_insert_ne.
Qed.

Lemma foldl_insert_lookup_in (props : list (string * PropValue))
      (m : gmap string PropValue) k v :
  NoDup props.*1 -> (k, v) ∈ props ->
  foldl (fun m kv => <[kv.1 := kv.2]> m) m props !! k = Some v.
Proof.
  revert m. induction props as [|[k' v'] props IH]; intros m Hnd Hin; simpl.
  - inversion Hin.
  - simpl in Hnd. apply NoDup_cons in Hnd as [Hk' Hnd].
    apply elem_of_cons in Hin as [Heq|Hin].
    + injection Heq as -> ->.
      rewrite foldl_insert_lookup_notin by exact Hk'.
      apply lookup_insert_eq.
    + now apply IH.
Qed.

Lemma gegl_node_set_exists m props g n :
  is_Some (nodes g !! n) -> is_Some (nodes (gegl_node_set m props g) !! n).
Proof.
  unfold gegl_node_set. simpl. rewrite lookup_alter.
  destruct (decide (m = n)) as [->|]; [|auto].
  intros [x ->]. simpl. eauto.
Qed.

Lemma gegl_node_get_set_ne n m props g k :
  n <> m -> gegl_node_get n k (gegl_node_set m props g) = gegl_node_get n k g.
Proof.
  intros Hne. unfold gegl_node_get, gegl_node_set. simpl.
  now rewrite lookup_alter_ne by congruence.
Qed.

Lemma gegl_node_get_set_notin n m props g k :
  k ∉ props.*1 ->
  gegl_node_get n k (gegl_node_set m props g) = gegl_node_get n k g.
Proof.
  intros Hk. destruct (decide (n = m)) as [->|Hne].
  - unfold gegl_node_get, gegl_node_set. simpl.
    rewrite lookup_alter_eq.
    destruct (nodes g !! m); simpl; [|reflexivity].
    now apply foldl_insert_lookup_notin.
  - now apply gegl_node_get_set_ne.
Qed.

Lemma gegl_node_get_set_in n props g k v :
  is_Some (nodes g !! n) -> NoDup props.*1 -> (k, v) ∈ props ->
  gegl_node_get n k (gegl_node_set n props g) = Some v.
Proof.
  intros [x Hx] Hnd Hin. unfold gegl_node_get, gegl_node_set. simpl.
  rewrite lookup_alter_eq, Hx. simpl.
  now apply foldl_insert_lookup_in.
Qed.

(** What the [gegl_node_set] calls of [gimp_drawable_sync_source_node]
    leave in the crop and translate nodes. *)
Lemma sync_fs_parameters_spec p fs c d fsd crop offset :
  the_drawable p c = Some d ->
  the_drawable fs c = Some fsd ->
  fs_crop_node d = Some crop ->
  fs_offset_node d = Some offset ->
  crop <> offset ->
  is_Some (nodes (graph c) !! crop) ->
  is_Some (nodes (graph c) !! offset) ->
  let g := graph (sync_fs_parameters p fs c) in
  the_drawable p (sync_fs_parameters p fs c) = Some d /\
  gegl_node_get crop "x" g =
    Some (PDouble (inject_Z (gint (item_offset_x (item d)
                                   - item_offset_x (item fsd))))) /\
  gegl_node_get crop "y" g =
    Some (PDouble (inject_Z (gint (item_offset_y (item d)
                                   - item_offset_y (item fsd))))) /\
  gegl_node_get crop "width" g =
    Some (PDouble (inject_Z (gimp_item_get_width d))) /\
  gegl_node_get crop "height" g =
    Some (PDouble (inject_Z (gimp_item_get_height d))) /\
  gegl_node_get offset "x" g =
    Some (PDouble (inject_Z (gint (item_offset_x (item fsd)
                                   - item_offset_x (item d))))) /\
  gegl_node_get offset "y" g =
    Some (PDouble (inject_Z (gint (item_offset_y (item fsd)
                                   - item_offset_y (item d))))).
Proof.
  intros Hd Hfsd Hcrop Hoffset Hne Hc Ho g. subst g.
  unfold sync_fs_parameters. rewrite Hd, Hfsd, Hcrop, Hoffset.
  autorewrite with canvas. split; [exact Hd|].
  simpl.
  assert (Hmode : forall n k g,
             k ∉ ["mode"; "opacity"; "linear"] ->
             gegl_node_get n k
               (on_node (fs_mode_node d)
                  (gimp_gegl_mode_node_set
                     (gimp_layer_get_mode (the_layer fs c))
                     (gimp_layer_get_opacity (the_layer fs c)) false) g) =
             gegl_node_get n k g).
  { intros n k g Hk. destruct (fs_mode_node d); simpl; [|reflexivity].
    now apply gegl_node_get_set_notin. }
  assert (Hnd4 : NoDup ["x"; "y"; "width"; "height"]) by compute_done.
  assert (Hnd2 : NoDup ["x"; "y"]) by compute_done.
  repeat split; rewrite Hmode by compute_done.
  1-4: rewrite gegl_node_get_set_ne by exact Hne;
       apply gegl_node_get_set_in;
       [exact Hc | exact Hnd4 | repeat constructor].
  all: apply gegl_node_get_set_in;
    [apply gegl_node_set_exists; exact Ho | exact Hnd2 | repeat constructor].
Qed.

(** ** Geometry is never written by the graph code *)

Lemma same_geometry_refl c : same_geometry c c.
Proof. intros q. reflexivity. Qed.

Lemma same_geometry_trans c1 c2 c3 :
  same_geometry c1 c2 -> same_geometry c2 c3 -> same_geometry c1 c3.
Proof. intros H1 H2 q. now rewrite H2, H1. Qed.

Lemma same_geometry_update_graph f c : same_geometry c (update_graph f c).
Proof. intros q. reflexivity. Qed.

Lemma same_geometry_canvas_emit e c : same_geometry c (canvas_emit e c).
Proof. intros q. reflexivity. Qed.

Lemma same_geometry_set_handlers h c : same_geometry c (set_handlers h c).
Proof. intros q. reflexivity. Qed.

Lemma same_geometry_update_drawable p f c :
  (forall d, geometry (f d) = geometry d) ->
  same_geometry c (update_drawable p f c).
Proof.
  intros Hf q. rewrite the_drawable_update.
  destruct (decide (p = q)); [|reflexivity].
  destruct (the_drawable q c); simpl; [|reflexivity]. now rewrite Hf.
Qed.

Lemma same_geometry_node_new c : same_geometry c (canvas_node_new c).1.
Proof. intros q. reflexivity. Qed.

Lemma same_geometry_node_new_child parent op props c :
  same_geometry c (canvas_node_new_child parent op props c).1.
Proof. intros q. reflexivity. Qed.

(** Peels the outermost update off the canvas on the right. *)
Ltac geometry_step :=
  lazymatch goal with
  | |- same_geometry ?c ?c => apply same_geometry_refl
  | |- same_geometry _ (update_graph _ _) =>
      eapply same_geometry_trans; [|apply same_geometry_update_graph]
  | |- same_geometry _ (canvas_emit _ _) =>
      eapply same_geometry_trans; [|apply same_geometry_canvas_emit]
  | |- same_geometry _ (set_handlers _ _) =>
      eapply same_geometry_trans; [|apply same_geometry_set_handlers]
  | |- same_geometry _ (update_drawable _ _ _) =>
      eapply same_geometry_trans;
      [|apply same_geometry_update_drawable; intros []; reflexivity]
  end.

Lemma same_geometry_get_node p c :
  same_geometry c (gimp_drawable_get_node p c).1.
Proof.
  unfold gimp_drawable_get_node.
  destruct (the_drawable p c) as [d|]; [|apply same_geometry_refl].
  unfold canvas_node_new, canvas_node_new_child. simpl.
  destruct (mode_node d); destruct (gimp_item_get_visible d); simpl;
    repeat geometry_step.
Qed.

Lemma same_geometry_item_get_node p c :
  same_geometry c (gimp_item_get_node p c).1.
Proof.
  unfold gimp_item_get_node.
  destruct (the_drawable p c) as [d|]; [|apply same_geometry_refl].
  destruct (item_node (item d)); [apply same_geometry_refl|].
  apply same_geometry_get_node.
Qed.

Lemma same_geometry_Some c c' q d :
  same_geometry c c' -> the_drawable q c = Some d ->
  exists d', the_drawable q c' = Some d' /\ geometry d' = geometry d.
Proof.
  intros H Hd. specialize (H q). rewrite Hd in H. simpl in H.
  destruct (the_drawable q c') as [d'|]; [|discriminate].
  simpl in H. exists d'. split; [reflexivity|congruence].
Qed.

Section SyncProofs.

Variable get_source : nat -> Canvas Pixel -> Canvas Pixel * option GeglNode.
Hypothesis get_source_geometry :
  forall q c, same_geometry c (get_source q c).1.

Lemma sync_attach_nodes_spec p fs source output c d :
  the_drawable p c = Some d ->
  let c1 := sync_attach_nodes get_source p fs source output c in
  same_geometry c c1 /\
  exists d1 crop offset,
    the_drawable p c1 = Some d1 /\
    fs_crop_node d1 = Some crop /\
    fs_offset_node d1 = Some offset /\
    crop <> offset /\
    is_Some (nodes (graph c1) !! crop) /\
    is_Some (nodes (graph c1) !! offset).
Proof.
  intros Hd c1. subst c1. unfold sync_attach_nodes.
  pose proof (get_source_geometry fs c) as Hg1.
  destruct (get_source fs c) as [ca fs_source]. cbn [fst] in Hg1.
  match goal with
  | |- context [canvas_node_new_child source "gegl:crop" []
                  (update_graph _ ?x)] => set (cb := x)
  end.
  assert (Hgb : same_geometry c cb).
  { subst cb. destruct (the_layer fs ca ≫= layer_offset_node) as [lon|];
      [|exact Hg1].
    pose proof (same_geometry_item_get_node fs
                  (update_graph (gegl_node_disconnect (NodeRef lon) "input")
                                ca)) as Hn.
    destruct (gimp_item_get_node fs _) as [cc fs_node]. cbn [fst] in Hn.
    geometry_step. eapply same_geometry_trans; [exact Hg1|].
    eapply same_geometry_trans; [|exact Hn]. geometry_step.
    apply same_geometry_refl. }
  destruct (same_geometry_Some _ _ _ _ Hgb Hd) as (db & Hdb & _).
  clearbody cb.
  unfold canvas_node_new_child, gegl_node_new_child, gegl_node_set.
  destruct fs_source as [s|]; simpl.
  all: split; [repeat geometry_step; exact Hgb|].
  all: autorewrite with canvas; rewrite Hdb; simpl.
  all: eexists _, _, _; split; [reflexivity|]; simpl.
  all: split; [reflexivity|]; split; [reflexivity|].
  all: split; [apply Nat.neq_succ_diag_r|].
  all: destruct (buffer_source_node db); simpl.
  all: split.
  all: repeat first
         [ rewrite lookup_insert_eq
         | rewrite lookup_alter_eq
         | rewrite lookup_insert_ne by lia
         | rewrite lookup_alter_ne by lia ];
    simpl; eauto.
Qed.

Lemma sync_fs_parameters_geometry p fs c :
  same_geometry c (sync_fs_parameters p fs c).
Proof.
  unfold sync_fs_parameters.
  destruct (the_drawable p c); [|apply same_geometry_refl].
  destruct (the_drawable fs c); [|apply same_geometry_refl].
  repeat geometry_step.
Qed.

Lemma sync_detach_nodes_geometry p fs source c :
  same_geometry c (sync_detach_nodes get_source p fs source c).
Proof.
  unfold sync_detach_nodes.
  match goal with
  | |- context [match fs with
                | Some fs0 => get_source fs0 ?x
                | None => _
                end] => set (ca := x)
  end.
  assert (Ha : same_geometry c ca) by (subst ca; repeat geometry_step).
  clearbody ca.
  assert (Hb : same_geometry c
                 (match fs with
                  | Some fs0 => get_source fs0 ca
                  | None => (ca, None)
                  end).1).
  { destruct fs as [fs0|]; [|exact Ha].
    eapply same_geometry_trans; [exact Ha|apply get_source_geometry]. }
  destruct (match fs with
            | Some fs0 => get_source fs0 ca
            | None => (ca, None)
            end) as [cb fs_source].
  cbn [fst] in Hb. clear Ha.
  match goal with
  | |- context [update_graph _ (update_drawable p (set_fs_crop_node None)
                                  (update_graph _ ?x))] => set (cc := x)
  end.
  assert (Hc : same_geometry c cc).
  { subst cc. destruct fs as [fs0|]; simpl.
    - destruct (the_layer fs0 _ ≫= layer_offset_node) as [lon|].
      + pose proof (same_geometry_item_get_node fs0
          (update_graph
             (on_nodes (Some source) fs_source gegl_node_remove_child) cb))
          as Hn.
        destruct (gimp_item_get_node fs0 _) as [cd fs_node].
        cbn [fst] in Hn. repeat geometry_step.
        eapply same_geometry_trans; [|exact Hn].
        geometry_step. exact Hb.
      + geometry_step. exact Hb.
    - geometry_step. exact Hb. }
  clearbody cc.
  destruct fs; repeat geometry_step; exact Hc.
Qed.

Lemma sync_source_node_with_geometry p detach_fs c :
  same_geometry c (sync_source_node_with get_source p detach_fs c).
Proof.
  unfold sync_source_node_with.
  destruct (the_drawable p c) as [d|] eqn:Hd; [|apply same_geometry_refl].
  destruct (source_node d) as [source|]; [|apply same_geometry_refl].
  assert (Hdetach :
    same_geometry c
      (update_graph
         (on_node
            (the_drawable p
               match fs_crop_node d with
               | Some _ =>
                   sync_detach_nodes get_source p (floating_selection d)
                                     source c
               | None => c
               end ≫= buffer_source_node)
            (fun bs => gegl_node_connect_to bs "output"
                         (gegl_node_get_output_proxy source "output")
                         "input"))
         match fs_crop_node d with
         | Some _ =>
             sync_detach_nodes get_source p (floating_selection d) source c
         | None => c
         end)).
  { geometry_step. destruct (fs_crop_node d);
      [apply sync_detach_nodes_geometry|apply same_geometry_refl]. }
  destruct (floating_selection d) as [fs|]; [|exact Hdetach].
  destruct detach_fs; [exact Hdetach|].
  eapply same_geometry_trans; [|apply sync_fs_parameters_geometry].
  destruct (fs_crop_node d); [apply same_geometry_refl|].
  now apply (sync_attach_nodes_spec p fs source _ c d).
Qed.

End SyncProofs.

Lemma get_source_node_fuel_geometry fuel q c :
  same_geometry c (gimp_drawable_get_source_node_fuel fuel q c).1.
Proof.
  revert q c. induction fuel as [|fuel IH]; intros q c; simpl.
  - destruct (the_drawable q c) as [d|]; [|apply same_geometry_refl].
    destruct (source_node d); apply same_geometry_refl.
  - destruct (the_drawable q c) as [d|]; [|apply same_geometry_refl].
    destruct (source_node d); [apply same_geometry_refl|].
    unfold canvas_node_new, canvas_node_new_child. simpl.
    eapply same_geometry_trans;
      [|apply sync_source_node_with_geometry; exact IH].
    repeat geometry_step.
Qed.

(** C2, as the code has it.  With a floating selection bound and the
    source node present, [gimp_drawable_sync_source_node] leaves a crop
    node whose origin is the drawable's offset minus the floating
    selection's offset and whose size is the drawable's size, and a
    translate node whose parameters are the floating selection's offset
    minus the drawable's offset.  The differences are [gint]
    subtractions, made before the cast to [gdouble]: they are the exact
    differences whenever these fit in 32 bits. *)
Theorem gimp_drawable_sync_source_node_fs_parameters p fs c d fsd source :
  the_drawable p c = Some d ->
  source_node d = Some source ->
  gimp_drawable_get_floating_sel d = Some fs ->
  the_drawable fs c = Some fsd ->
  fs_nodes_ok d (graph c) ->
  let c' := gimp_drawable_sync_source_node p false c in
  let off_x := item_offset_x (item d) in
  let off_y := item_offset_y (item d) in
  let fs_off_x := item_offset_x (item fsd) in
  let fs_off_y := item_offset_y (item fsd) in
  exists d' crop offset,
    the_drawable p c' = Some d' /\
    fs_crop_node d' = Some crop /\
    fs_offset_node d' = Some offset /\
    gegl_node_get crop "x" (graph c')
      = Some (PDouble (inject_Z (gint (off_x - fs_off_x)))) /\
    gegl_node_get crop "y" (graph c')
      = Some (PDouble (inject_Z (gint (off_y - fs_off_y)))) /\
    gegl_node_get crop "width" (graph c')
      = Some (PDouble (inject_Z (gimp_item_get_width d))) /\
    gegl_node_get crop "height" (graph c')
      = Some (PDouble (inject_Z (gimp_item_get_height d))) /\
    gegl_node_get offset "x" (graph c')
      = Some (PDouble (inject_Z (gint (fs_off_x - off_x)))) /\
    gegl_node_get offset "y" (graph c')
      = Some (PDouble (inject_Z (gint (fs_off_y - off_y)))) /\
    (G_MININT <= off_x - fs_off_x <= G_MAXINT ->
     gint (off_x - fs_off_x) = off_x - fs_off_x) /\
    (G_MININT <= off_y - fs_off_y <= G_MAXINT ->
     gint (off_y - fs_off_y) = off_y - fs_off_y) /\
    (G_MININT <= fs_off_x - off_x <= G_MAXINT ->
     gint (fs_off_x - off_x) = fs_off_x - off_x) /\
    (G_MININT <= fs_off_y - off_y <= G_MAXINT ->
     gint (fs_off_y - off_y) = fs_off_y - off_y).
Proof.
  intros Hd Hsource Hfs Hfsd Hok c' off_x off_y fs_off_x fs_off_y.
  subst c' off_x off_y fs_off_x fs_off_y.
  assert (Hsmall : forall a b : Z,
             G_MININT <= a - b <= G_MAXINT -> gint (a - b) = a - b)
    by (intros a b; apply gint_small).
  unfold gimp_drawable_sync_source_node, sync_source_node_with,
    gimp_drawable_get_floating_sel in *.
  rewrite Hd, Hsource, Hfs.
  unfold fs_nodes_ok in Hok.
  destruct (fs_crop_node d) as [crop|] eqn:Hcrop.
  - destruct (fs_offset_node d) as [offset|] eqn:Hoffset; [|contradiction].
    destruct Hok as (Hne & Hc & Ho).
    exists d, crop, offset.
    destruct (sync_fs_parameters_spec p fs c d fsd crop offset
                Hd Hfsd Hcrop Hoffset Hne Hc Ho) as (H0 & H1).
    split; [exact H0|]. split; [exact Hcrop|]. split; [exact Hoffset|].
    repeat split; try apply H1; apply Hsmall.
  - set (get_source :=
           gimp_drawable_get_source_node_fuel (size (unsourced c))).
    destruct (sync_attach_nodes_spec get_source
                (get_source_node_fuel_geometry _) p fs source
                (gegl_node_get_output_proxy source "output") c d Hd)
      as (Hgeo & d1 & crop & offset & Hd1 & Hcrop1 & Hoffset1 & Hne & Hc & Ho).
    destruct (same_geometry_Some _ _ _ _ Hgeo Hfsd) as (fsd1 & Hfsd1 & Hg1).
    destruct (same_geometry_Some _ _ _ _ Hgeo Hd) as (d1' & Hd1' & Hg2).
    rewrite Hd1 in Hd1'. injection Hd1' as <-.
    exists d1, crop, offset.
    destruct (sync_fs_parameters_spec p fs _ d1 fsd1 crop offset
                Hd1 Hfsd1 Hcrop1 Hoffset1 Hne Hc Ho) as (H0 & H1).
    split; [exact H0|]. split; [exact Hcrop1|]. split; [exact Hoffset1|].
    unfold geometry, gimp_item_get_width, gimp_item_get_height in *.
    injection Hg1 as Hx1 Hy1 _ _. injection Hg2 as Hx2 Hy2 Hw2 Hh2.
    rewrite <- Hx1, <- Hy1, <- Hx2, <- Hy2, <- Hw2, <- Hh2.
    repeat split; try apply H1; apply Hsmall.
Qed.

(** ** The bound on the depth of [gimp_drawable_get_source_node] *)

Lemma unsourced_lookup p c o :
  objects c !! p = Some o ->
  source_node (obj_drawable o) = None ->
  unsourced c !! p = Some o.
Proof.
  intros Ho Hs. unfold unsourced. now apply map_lookup_filter_Some_2.
Qed.

Lemma unsourced_after_source p source f g1 g2 c :
  (forall d, source_node (f d) = source_node d) ->
  unsourced
    (update_drawable p f
       (update_graph g2
          (update_drawable p (set_source_node (Some source))
             (update_graph g1 c)))) =
  delete p (unsourced c).
Proof.
  intros Hf.
  unfold unsourced, update_drawable, update_graph. simpl.
  apply map_eq. intros i.
  rewrite map_lookup_filter, lookup_alter.
  destruct (decide (p = i)) as [<-|Hne].
  - rewrite lookup_delete_eq, lookup_alter_eq.
    destruct (objects c !! p) as [o|]; simpl; [|reflexivity].
    rewrite option_guard_False; [reflexivity|].
    simpl. rewrite Hf. simpl. discriminate.
  - rewrite lookup_delete_ne by exact Hne.
    rewrite lookup_alter_ne by exact Hne.
    now rewrite map_lookup_filter.
Qed.

Lemma sync_source_node_with_ext
      (g1 g2 : nat -> Canvas Pixel -> Canvas Pixel * option GeglNode) p c :
  (forall fs, g1 fs c = g2 fs c) ->
  sync_source_node_with g1 p false c = sync_source_node_with g2 p false c.
Proof.
  intros Hg. unfold sync_source_node_with.
  destruct (the_drawable p c) as [d|]; [|reflexivity].
  destruct (source_node d) as [source|]; [|reflexivity].
  destruct (floating_selection d) as [fs|].
  - destruct (fs_crop_node d); [reflexivity|].
    unfold sync_attach_nodes. now rewrite Hg.
  - destruct (fs_crop_node d); reflexivity.
Qed.

Lemma get_source_node_fuel_S fuel p c :
  gimp_drawable_get_source_node_fuel (S fuel) p c =
  match the_drawable p c with
  | None => (c, None)
  | Some d =>
      match source_node d with
      | Some source => (c, Some source)
      | None =>
          let '(c, source) := canvas_node_new c in
          let c := update_drawable p (set_source_node (Some source)) c in
          let '(c, bsn) :=
            canvas_node_new_child source "gegl:buffer-source"
                                  [("buffer", PBufferOf p)] c in
          let c := update_drawable p (set_buffer_source_node (Some bsn)) c in
          (sync_source_node_with (gimp_drawable_get_source_node_fuel fuel)
                                 p false c, Some source)
      end
  end.
Proof. reflexivity. Qed.

(** One more unit of fuel than there are drawables without a source node
    changes nothing: the bound is never reached. *)
Lemma get_source_node_fuel_enough k p c :
  (size (unsourced c) <= k)%nat ->
  gimp_drawable_get_source_node_fuel (S k) p c =
  gimp_drawable_get_source_node_fuel k p c.
Proof.
  revert p c. induction k as [|k IH]; intros p c Hsize.
  - assert (Hempty : unsourced c = ∅)
      by (apply map_size_empty_iff; lia).
    rewrite get_source_node_fuel_S. simpl.
    unfold the_drawable.
    destruct (objects c !! p) as [o|] eqn:Ho; simpl; [|reflexivity].
    destruct (source_node (obj_drawable o)) eqn:Hs; [reflexivity|].
    pose proof (unsourced_lookup p c o Ho Hs) as Hin.
    rewrite Hempty, lookup_empty in Hin. discriminate.
  - rewrite (get_source_node_fuel_S (S k)), (get_source_node_fuel_S k).
    unfold the_drawable.
    destruct (objects c !! p) as [o|] eqn:Ho; simpl; [|reflexivity].
    destruct (source_node (obj_drawable o)) eqn:Hs; [reflexivity|].
    unfold canvas_node_new, canvas_node_new_child, gegl_node_new,
      gegl_node_new_child.
    cbv beta iota zeta.
    f_equal. apply sync_source_node_with_ext. intros fs. apply IH.
    rewrite unsourced_after_source by (intros []; reflexivity).
    rewrite map_size_delete_Some
      by (exists o; now apply unsourced_lookup).
    lia.
Qed.

Lemma get_source_node_fuel_more n p c :
  gimp_drawable_get_source_node_fuel (n + size (unsourced c)) p c =
  gimp_drawable_get_source_node p c.
Proof.
  induction n as [|n IH]; [reflexivity|].
  rewrite Nat.add_succ_l, get_source_node_fuel_enough by lia. exact IH.
Qed.

(** * More properties of the code *)

(** ** Aborting a preview *)
Lemma stop_idle_idempotent w :
  gimp_image_map_stop_idle (gimp_image_map_stop_idle w) =
  gimp_image_map_stop_idle w.
Proof.
  unfold gimp_image_map_stop_idle at 1. now rewrite stop_idle_idle_id.
Qed.

(** X1.  [gimp_image_map_abort] does what [gimp_image_map_clear] does, on
    every world: it stops the idle source, and for an attached drawable
    it gives up the undo buffer (restoring from it as clear does); for a
    detached one the undo buffer stays. *)
Theorem gimp_image_map_abort_is_clear w :
  gimp_image_map_abort w = gimp_image_map_clear w /\
  idle_id (image_map (gimp_image_map_abort w)) = 0%nat /\
  undo_buffer (image_map (gimp_image_map_abort w)) =
    (if gimp_item_is_attached (drawable w)
     then None else undo_buffer (image_map w)).
Proof.
  assert (Heq : gimp_image_map_abort w = gimp_image_map_clear w).
  { unfold gimp_image_map_abort. cbv zeta.
    destruct (negb (gimp_item_is_attached
                      (drawable (gimp_image_map_stop_idle w)))) eqn:E.
    - unfold gimp_image_map_clear. cbv zeta. now rewrite E.
    - unfold gimp_image_map_clear. cbv zeta.
      now rewrite stop_idle_idempotent. }
  split; [exact Heq|]. rewrite Heq.
  unfold gimp_image_map_clear. cbv zeta.
  pose proof (stop_idle_undo w) as (Hu & _ & _).
  pose proof (stop_idle_idle_id w) as Hid.
  rewrite stop_idle_drawable, Hu.
  destruct (gimp_item_is_attached (drawable w)); simpl; [|auto].
  destruct (undo_buffer (image_map w)) as [ub|]; [|rewrite Hu; auto].
  destruct (negb (String.eqb _ _)); simpl; auto.
Qed.


(** ** A drawable that left its image *)

Lemma do_detached w :
  gimp_item_is_attached (drawable w) = false ->
  (gimp_image_map_do w).2 = false /\
  drawable (gimp_image_map_do w).1 = drawable w /\
  image (gimp_image_map_do w).1 = image w /\
  log (gimp_image_map_do w).1 = log w /\
  undo_buffer (image_map (gimp_image_map_do w).1) =
    undo_buffer (image_map w) /\
  idle_id (image_map (gimp_image_map_do w).1) = 0%nat /\
  processor (image_map (gimp_image_map_do w).1) = None.
Proof.
  intros Hatt. unfold gimp_image_map_do. rewrite Hatt. simpl.
  destruct (processor (image_map w)) eqn:Hp; simpl; auto 10.
Qed.

Lemma untouched_refl w : untouched w w.
Proof. repeat split. Qed.

Lemma untouched_trans w1 w2 w3 :
  untouched w1 w2 -> untouched w2 w3 -> untouched w1 w3.
Proof.
  intros (? & ? & ? & ?) (? & ? & ? & ?). repeat split; congruence.
Qed.

Lemma stop_idle_untouched w : untouched w (gimp_image_map_stop_idle w).
Proof.
  pose proof (stop_idle_undo w) as (Hu & _ & _).
  repeat split;
    auto using stop_idle_drawable, stop_idle_image, stop_idle_log.
Qed.

Lemma idle_dispatches_detached n w :
  gimp_item_is_attached (drawable w) = false ->
  untouched w (idle_dispatches n w).
Proof.
  revert w. induction n as [|n IH]; intros w Hatt; [apply untouched_refl|].
  simpl. unfold idle_dispatch.
  destruct (Nat.eqb _ _); [now apply IH|].
  destruct (do_detached w Hatt) as (_ & Hd & Hi & Hl & Hu & _).
  eapply untouched_trans; [|apply IH; now rewrite Hd].
  repeat split; assumption.
Qed.

(** X2.  Once the drawable is no longer attached, nothing the image map
    does touches it: turns of the idle source, commit, clear and abort
    leave the drawable, the image with its undo stack, the log and the
    undo buffer as they were; clear and abort only stop the idle source,
    and commit ends with no idle source. *)
Theorem gimp_image_map_detached_untouched w :
  gimp_item_is_attached (drawable w) = false ->
  (forall n, untouched w (idle_dispatches n w)) /\
  (untouched w (gimp_image_map_commit w) /\
   idle_id (image_map (gimp_image_map_commit w)) = 0%nat) /\
  gimp_image_map_clear w = gimp_image_map_stop_idle w /\
  gimp_image_map_abort w = gimp_image_map_stop_idle w /\
  untouched w (gimp_image_map_stop_idle w).
Proof.
  intros Hatt. split; [|split; [|split; [|split]]].
  - intros n. now apply idle_dispatches_detached.
  - unfold gimp_image_map_commit.
    assert (Hfin : untouched w (commit_finish_changes w)).
    { unfold commit_finish_changes.
      destruct (Nat.eqb _ _); [apply untouched_refl|].
      set (w0 := set_image_map _ w).
      destruct (do_detached w0 Hatt) as (Hfalse & Hd & Hi & Hl & Hu & _).
      simpl. destruct (gimp_image_map_do w0) as [w1 again].
      simpl in *. subst again. repeat split; assumption. }
    destruct (commit_finish_changes_spec w) as [_ Hid].
    destruct Hfin as (Hd & Hi & Hl & Hu).
    rewrite commit_register_undo_done
      by (left; now rewrite Hd).
    repeat split; assumption.
  - unfold gimp_image_map_clear. cbv zeta.
    now rewrite stop_idle_drawable, Hatt.
  - unfold gimp_image_map_abort. cbv zeta.
    now rewrite stop_idle_drawable, Hatt.
  - apply stop_idle_untouched.
Qed.


(** ** The undo step of [gimp_image_map_commit] *)

Lemma commit_register_undo_stack w ub :
  gimp_item_is_attached (drawable w) = true ->
  undo_buffer (image_map w) = Some ub ->
  undo_stack (image (commit_register_undo w)) =
    mkUndo (undo_desc (image_map w)) ub
           (undo_offset_x (image_map w)) (undo_offset_y (image_map w))
    :: undo_stack (image w) /\
  drawable (commit_register_undo w) = drawable w /\
  log (commit_register_undo w) = log w /\
  undo_buffer (image_map (commit_register_undo w)) = None.
Proof.
  intros Hatt Hub.
  unfold commit_register_undo, gimp_drawable_push_undo,
    gimp_drawable_real_push_undo, gimp_image_undo_push_drawable.
  rewrite Hatt, Hub. simpl. auto.
Qed.

Lemma session_undo_desc w w' :
  session w' = session w ->
  undo_desc (image_map w') = undo_desc (image_map w).
Proof. unfold session. intros H. injection H. intros. assumption. Qed.




(** ** What a run leaves alone *)


Section RunInvariant.

Variable P : World Pixel -> Prop.
Hypothesis P_attached :
  forall w, P w -> gimp_item_is_attached (drawable w) = true.
Hypothesis P_work : forall w, P w -> P (gegl_processor_work w).1.
Hypothesis P_frame :
  forall w w',
    session w' = session w ->
    buffer (drawable w') = buffer (drawable w) ->
    shadow (drawable w') = shadow (drawable w) ->
    processor (image_map w') = processor (image_map w) \/
    (processor (image_map w') = None /\ pending_chunks w = 0%nat) ->
    P w -> P w'.





End RunInvariant.




Lemma update_undo_buffer_anchored w rect :
  snapshot_kept (gimp_image_map_update_undo_buffer w rect) rect = true.
Proof.
  unfold gimp_image_map_update_undo_buffer.
  destruct (undo_buffer (image_map w)) as [ub|] eqn:Hub; simpl.
  - match goal with
    | |- context [if ?c then _ else _] => destruct c eqn:Hc
    end.
    + unfold snapshot_kept. simpl. rewrite !Z.eqb_refl. simpl.
      destruct (negb (gegl_buffer_get_width ub =? r_width rect)
                || negb (gegl_buffer_get_height ub =? r_height rect))
        eqn:Hsize; simpl.
      * unfold gegl_buffer_get_width, gegl_buffer_get_height. simpl.
        now rewrite !Z.eqb_refl.
      * apply orb_false_iff in Hsize. destruct Hsize as [Hw Hh].
        apply negb_false_iff in Hw, Hh.
        unfold gegl_buffer_get_width, gegl_buffer_get_height in *. simpl.
        now rewrite Hw, Hh.
    + unfold snapshot_kept. rewrite Hub.
      rewrite !orb_false_iff, !negb_false_iff in Hc.
      destruct Hc as (((-> & ->) & ->) & ->). reflexivity.
  - unfold snapshot_kept. simpl.
    unfold gegl_buffer_get_width, gegl_buffer_get_height. simpl.
    now rewrite !Z.eqb_refl.
Qed.


Lemma apply_snapshot_kept w visible rect :
  gimp_item_is_attached (drawable w) = true ->
  gimp_item_mask_intersect (drawable w) (image w) = Some rect ->
  snapshot_kept (gimp_image_map_apply w visible) rect = true.
Proof.
  intros Hatt Hrect.
  destruct (apply_spec w visible rect Hatt Hrect)
    as (_ & _ & _ & _ & Hub & Hox & Hoy & _).
  pose proof (update_undo_buffer_anchored (gimp_image_map_stop_idle w) rect)
    as Hk.
  unfold snapshot_kept in *. now rewrite Hub, Hox, Hoy.
Qed.



(** ** The original pixels during and after a run *)


(** What a run that started from a copied snapshot holds on to. *)
Lemma run_snapshot w visible rect n :
  gimp_item_is_attached (drawable w) = true ->
  buffers_consistent w ->
  gimp_item_mask_intersect (drawable w) (image w) = Some rect ->
  snapshot_kept w rect = false ->
  let w2 := idle_dispatches n (gimp_image_map_apply w visible) in
  item (drawable w2) = item (drawable w) /\
  buf_extent (buffer (drawable w2)) = buf_extent (buffer (drawable w)) /\
  buf_format (buffer (drawable w2)) = buf_format (buffer (drawable w)) /\
  image w2 = image w /\
  undo_offset_x (image_map w2) = r_x rect /\
  undo_offset_y (image_map w2) = r_y rect /\
  exists ub,
    undo_buffer (image_map w2) = Some ub /\
    buf_extent ub = GEGL_RECTANGLE 0 0 (r_width rect) (r_height rect) /\
    buf_format ub = buf_format (buffer (drawable w)) /\
    forall x y,
      rect_contains rect x y = true ->
      gegl_buffer_get ub (x - r_x rect) (y - r_y rect) =
      gegl_buffer_get (buffer (drawable w)) x y.
Proof.
  intros Hatt Hcons Hrect Hkept w2. subst w2.
  set (w1 := gimp_image_map_apply w visible).
  destruct (apply_spec w visible rect Hatt Hrect)
    as (Hitem & Hbuf & Himg & _ & Hub & Hox & Hoy & _).
  fold w1 in Hitem, Hbuf, Himg, Hub, Hox, Hoy.
  pose proof (stop_idle_session w) as Hs0.
  destruct (update_undo_buffer_copied (gimp_image_map_stop_idle w) rect)
    as (ub & Hub1 & Hox1 & Hoy1 & Hext & Hfmt & Hpix).
  { eapply session_buffers_consistent; eauto. }
  { rewrite (session_snapshot_kept _ _ _ Hs0). exact Hkept. }
  rewrite stop_idle_drawable in Hfmt, Hpix.
  rewrite Hub1 in Hub. rewrite Hox1 in Hox. rewrite Hoy1 in Hoy.
  pose proof (idle_dispatches_session n w1) as Hs.
  destruct (session_inv _ _ Hs)
    as (Hi2 & He2 & Hf2 & Him2 & Hu2 & Hx2 & Hy2 & _).
  rewrite Hi2, He2, Hf2, Him2, Hu2, Hx2, Hy2, Hitem, Hbuf, Himg, Hox, Hoy.
  repeat split; auto.
  exists ub. repeat split; auto.
  intros x y Hin.
  assert (Hin' : rect_contains (buf_extent ub)
                   (x - r_x rect) (y - r_y rect) = true).
  { rewrite Hext. apply rect_contains_spec in Hin.
    apply rect_contains_spec. simpl. lia. }
  unfold gegl_buffer_get at 1. rewrite Hin', (Hpix _ _ Hin').
  f_equal; lia.
Qed.






(** X6.  A second [gimp_image_map_apply] over the same rectangle keeps
    the undo buffer and its anchor of the first: it does not copy the
    pixels the first run has already filtered.  A clear after the second
    run therefore restores the pixels from before the first apply. *)
Theorem gimp_image_map_apply_again w v1 v2 rect n m :
  gimp_item_is_attached (drawable w) = true ->
  buffers_consistent w ->
  gimp_item_mask_intersect (drawable w) (image w) = Some rect ->
  snapshot_kept w rect = false ->
  let w1 := gimp_image_map_apply w v1 in
  let w3 := gimp_image_map_apply (idle_dispatches n w1) v2 in
  let w' := gimp_image_map_clear (idle_dispatches m w3) in
  (undo_buffer (image_map w3) = undo_buffer (image_map w1) /\
   undo_offset_x (image_map w3) = undo_offset_x (image_map w1) /\
   undo_offset_y (image_map w3) = undo_offset_y (image_map w1)) /\
  forall x y,
    rect_contains rect x y = true ->
    gegl_buffer_get (buffer (drawable w')) x y =
    gegl_buffer_get (buffer (drawable w)) x y.
Proof.
  intros Hatt Hcons Hrect Hkept w1 w3 w'. subst w' w3 w1.
  destruct (run_snapshot w v1 rect n Hatt Hcons Hrect Hkept)
    as (Hi & He & Hf & Him & Hox & Hoy & ub & Hub & Hext & Hfmt & Hpix).
  set (w1 := gimp_image_map_apply w v1) in *.
  set (w2 := idle_dispatches n w1) in *.
  pose proof (idle_dispatches_session n w1) as Hs12. fold w2 in Hs12.
  destruct (session_inv _ _ Hs12) as (_ & _ & _ & _ & Hu12 & Hx12 & Hy12 & _).
  assert (Hatt2 : gimp_item_is_attached (drawable w2) = true)
    by (unfold gimp_item_is_attached in *; now rewrite Hi).
  assert (Hrect2 :
    gimp_item_mask_intersect (drawable w2) (image w2) = Some rect).
  { unfold gimp_item_mask_intersect, gimp_item_get_width,
      gimp_item_get_height in *. now rewrite Hi, Him. }
  assert (Hkept2 : snapshot_kept (gimp_image_map_stop_idle w2) rect = true).
  { rewrite (session_snapshot_kept _ _ _ (stop_idle_session w2)).
    rewrite (session_snapshot_kept _ _ _ Hs12).
    now apply apply_snapshot_kept. }
  destruct (apply_spec w2 v2 rect Hatt2 Hrect2)
    as (Hi3 & Hb3 & Him3 & _ & Hu3 & Hx3 & Hy3 & _).
  set (w3 := gimp_image_map_apply w2 v2) in *.
  rewrite (update_undo_buffer_kept _ _ Hkept2) in Hu3, Hx3, Hy3.
  destruct (stop_idle_undo w2) as (Hsu & Hsx & Hsy).
  rewrite Hsu in Hu3. rewrite Hsx in Hx3. rewrite Hsy in Hy3.
  split; [rewrite Hu3, Hx3, Hy3; auto|].
  intros x y Hin.
  set (w4 := idle_dispatches m w3) in *.
  pose proof (idle_dispatches_session m w3) as Hs34. fold w4 in Hs34.
  destruct (session_inv _ _ Hs34)
    as (Hi4 & He4 & Hf4 & _ & Hu4 & Hx4 & Hy4 & _).
  destruct (clear_restores w4 ub) as [_ Hrestore].
  { unfold gimp_item_is_attached in *. now rewrite Hi4, Hi3. }
  { now rewrite Hu4, Hu3. }
  { unfold gimp_drawable_get_format, gegl_buffer_get_format.
    now rewrite Hf4, Hb3, Hf. }
  rewrite Hrestore.
  - unfold snapshot_pixel. rewrite Hu4, Hu3, Hub, Hx4, Hx3, Hy4, Hy3, Hox, Hoy.
    now apply Hpix.
  - rewrite Hx4, Hx3, Hy4, Hy3, Hox, Hoy.
    unfold gegl_buffer_get_width, gegl_buffer_get_height. rewrite Hext.
    simpl. now destruct rect.
  - rewrite He4, Hb3, He. destruct Hcons as [-> _].
    unfold gimp_item_mask_intersect in Hrect.
    apply (gimp_rectangle_intersect_Some _ _ _ _ _ _ _ _ _ Hrect).
    exact Hin.
Qed.


(** ** [gimp_drawable_push_undo] without a buffer *)

(** X7.  [gimp_drawable_push_undo] without a buffer never changes the
    drawable.  On a detached drawable it only reports the failed check;
    on a region that has no pixel in common with the drawable it only
    warns "tried to push empty region"; otherwise it pushes one undo
    step for the part of the region that lies in the drawable, holding a
    copy of that part's pixels in the drawable's format. *)
Theorem gimp_drawable_push_undo_region w desc x y width height :
  let d := drawable w in
  let bounds :=
    GEGL_RECTANGLE 0 0 (gimp_item_get_width d) (gimp_item_get_height d) in
  let asked := GEGL_RECTANGLE x y width height in
  let w' := gimp_drawable_push_undo desc None x y width height w in
  drawable w' = drawable w /\
  (gimp_item_is_attached d = false ->
   image w' = image w /\
   log w' = log w ++ [Critical "gimp_item_is_attached (item)"]) /\
  (gimp_item_is_attached d = true ->
   (forall i j,
       rect_contains asked i j && rect_contains bounds i j = false) ->
   image w' = image w /\
   log w' =
     log w ++
     [Warning "gimp_drawable_push_undo: tried to push empty region"]) /\
  (gimp_item_is_attached d = true ->
   forall i0 j0,
     rect_contains asked i0 j0 = true ->
     rect_contains bounds i0 j0 = true ->
     log w' = log w /\
     exists step r,
       undo_stack (image w') = step :: undo_stack (image w) /\
       (forall i j,
           rect_contains r i j = true <->
           rect_contains asked i j = true /\
           rect_contains bounds i j = true) /\
       undo_name step = desc /\
       undo_x step = r_x r /\
       undo_y step = r_y r /\
       buf_extent (undo_pixels step) =
         GEGL_RECTANGLE 0 0 (r_width r) (r_height r) /\
       buf_format (undo_pixels step) = gimp_drawable_get_format d /\
       forall i j,
         rect_contains r i j = true ->
         gegl_buffer_get (undo_pixels step) (i - r_x r) (j - r_y r) =
         gegl_buffer_get (buffer d) i j).
Proof.
  intros d bounds asked w'. subst d bounds asked w'.
  unfold gimp_drawable_push_undo. cbv zeta.
  split; [|split; [|split]].
  - destruct (negb _); [reflexivity|].
    destruct (gimp_rectangle_intersect _ _ _ _ _ _ _ _); reflexivity.
  - intros ->. simpl. auto.
  - intros -> Hno. simpl negb. cbv iota.
    apply gimp_rectangle_intersect_None in Hno. rewrite Hno. simpl. auto.
  - intros -> i0 j0 Ha Hb. simpl negb. cbv iota.
    destruct (gimp_rectangle_intersect _ _ _ _ _ _ _ _) as [r|] eqn:Hint.
    2:{ exfalso.
        pose proof (proj1 (gimp_rectangle_intersect_None _ _ _ _ _ _ _ _)
                          Hint i0 j0) as Hxy.
        rewrite Ha, Hb in Hxy. discriminate. }
    split; [reflexivity|].
    eexists _, r. split; [reflexivity|].
    split; [apply (gimp_rectangle_intersect_Some _ _ _ _ _ _ _ _ _ Hint)|].
    cbn [undo_name undo_x undo_y undo_pixels].
    repeat split.
    intros i j Hin.
    unfold gegl_buffer_get at 1. simpl.
    assert (Hin' : rect_contains
                     (GEGL_RECTANGLE 0 0 (r_width r) (r_height r))
                     (i - r_x r) (j - r_y r) = true).
    { apply rect_contains_spec in Hin. apply rect_contains_spec.
      simpl. lia. }
    rewrite Hin'.
    unfold gimp_drawable_get_format, gegl_buffer_get_format,
      gimp_drawable_get_buffer.
    rewrite babl_convert_same. f_equal; lia.
Qed.


(** ** [gimp_drawable_swap_pixels] *)

Lemma swap_pixels_spec b x y w :
  let w' := (gimp_drawable_swap_pixels b x y w).1 in
  let b' := (gimp_drawable_swap_pixels b x y w).2 in
  let dst := buffer (drawable w) in
  let area :=
    GEGL_RECTANGLE x y (gegl_buffer_get_width b) (gegl_buffer_get_height b) in
  item (drawable w') = item (drawable w) /\
  image w' = image w /\
  buf_extent (buffer (drawable w')) = buf_extent dst /\
  buf_format (buffer (drawable w')) = buf_format dst /\
  buf_extent b' = buf_extent b /\
  buf_format b' = buf_format b /\
  log w' =
    log w ++ [SignalUpdate x y (gegl_buffer_get_width b)
                           (gegl_buffer_get_height b)] /\
  (forall i j,
      gegl_buffer_get (buffer (drawable w')) i j =
      if rect_contains (buf_extent dst) i j && rect_contains area i j
      then babl_convert (buf_format b) (buf_format dst)
             (gegl_buffer_get b (i - x) (j - y))
      else gegl_buffer_get dst i j) /\
  (forall i j,
      gegl_buffer_get b' i j =
      if rect_contains (buf_extent b) i j &&
         rect_contains (GEGL_RECTANGLE 0 0 (gegl_buffer_get_width b)
                                       (gegl_buffer_get_height b)) i j
      then babl_convert (buf_format dst) (buf_format b)
             (gegl_buffer_get dst (i + x) (j + y))
      else gegl_buffer_get b i j).
Proof.
  intros w' b' dst area. subst w' b' dst area.
  unfold gimp_drawable_swap_pixels, gimp_drawable_real_swap_pixels,
    gimp_drawable_update, gimp_drawable_get_buffer, gegl_buffer_dup.
  cbn [fst snd]. simpl.
  repeat split.
  - intros i j. unfold gegl_buffer_get at 1. simpl.
    destruct (rect_contains (buf_extent (buffer (drawable w))) i j) eqn:He;
      simpl.
    + match goal with
      | |- (if ?c then _ else _) = _ => destruct c
      end.
      * f_equal. unfold gegl_buffer_get. simpl.
        replace (i - x + 0) with (i - x) by lia.
        replace (j - y + 0) with (j - y) by lia. reflexivity.
      * unfold gegl_buffer_get. rewrite He. reflexivity.
    + unfold gegl_buffer_get. rewrite He. reflexivity.
  - intros i j. unfold gegl_buffer_get at 1. simpl.
    destruct (rect_contains (buf_extent b) i j) eqn:He; simpl.
    + match goal with
      | |- (if ?c then _ else _) = _ => destruct c
      end.
      * f_equal. f_equal; lia.
      * unfold gegl_buffer_get. rewrite He. reflexivity.
    + unfold gegl_buffer_get. rewrite He. reflexivity.
Qed.

(** X8.  [gimp_drawable_swap_pixels] exchanges the buffer's pixels with
    those of the drawable's rectangle at (x, y), and a second swap puts
    both back: for a buffer at the origin, in the drawable's format,
    whose rectangle lies in the drawable. *)
Theorem gimp_drawable_swap_pixels_twice b x y w :
  r_x (buf_extent b) = 0 ->
  r_y (buf_extent b) = 0 ->
  buf_format b = buf_format (buffer (drawable w)) ->
  rect_within (buf_extent (buffer (drawable w)))
    (GEGL_RECTANGLE x y (gegl_buffer_get_width b)
                    (gegl_buffer_get_height b)) ->
  let once := gimp_drawable_swap_pixels b x y w in
  let twice := gimp_drawable_swap_pixels once.2 x y once.1 in
  (forall i j,
      rect_contains (buf_extent b) i j = true ->
      gegl_buffer_get (buffer (drawable once.1)) (i + x) (j + y) =
        gegl_buffer_get b i j /\
      gegl_buffer_get once.2 i j =
        gegl_buffer_get (buffer (drawable w)) (i + x) (j + y)) /\
  (forall i j,
      gegl_buffer_get (buffer (drawable twice.1)) i j =
      gegl_buffer_get (buffer (drawable w)) i j) /\
  (forall i j, gegl_buffer_get twice.2 i j = gegl_buffer_get b i j).
Proof.
  intros Hx0 Hy0 Hfmt Hwithin once twice.
  destruct (swap_pixels_spec b x y w)
    as (_ & _ & He1 & Hf1 & Hbe1 & Hbf1 & _ & Hd1 & Hb1).
  fold once in He1, Hf1, Hbe1, Hbf1, Hd1, Hb1.
  destruct (swap_pixels_spec once.2 x y once.1)
    as (_ & _ & He2 & Hf2 & Hbe2 & Hbf2 & _ & Hd2 & Hb2).
  fold twice in He2, Hf2, Hbe2, Hbf2, Hd2, Hb2.
  assert (Hw : gegl_buffer_get_width once.2 = gegl_buffer_get_width b)
    by (unfold gegl_buffer_get_width; now rewrite Hbe1).
  assert (Hh : gegl_buffer_get_height once.2 = gegl_buffer_get_height b)
    by (unfold gegl_buffer_get_height; now rewrite Hbe1).
  rewrite Hw, Hh, He1, Hf1, Hbe1, Hbf1 in *.
  rewrite <- Hfmt in *.
  set (area := GEGL_RECTANGLE x y (gegl_buffer_get_width b)
                              (gegl_buffer_get_height b)) in *.
  set (own := GEGL_RECTANGLE 0 0 (gegl_buffer_get_width b)
                             (gegl_buffer_get_height b)) in *.
  assert (Hown : forall i j, rect_contains own i j = rect_contains (buf_extent b) i j).
  { intros i j. subst own. unfold gegl_buffer_get_width, gegl_buffer_get_height.
    destruct (buf_extent b) as [bx by_ bw bh]. simpl in *. now subst. }
  assert (Harea : forall i j,
             rect_contains area i j = rect_contains (buf_extent b) (i - x) (j - y)).
  { intros i j. rewrite <- Hown. subst area own.
    apply eq_true_iff_eq. rewrite !rect_contains_spec. simpl. lia. }
  split; [|split].
  - intros i j Hin. split.
    + rewrite Hd1, Harea.
      replace (i + x - x) with i by lia. replace (j + y - y) with j by lia.
      rewrite Hin, andb_true_r.
      rewrite (Hwithin (i + x) (j + y)).
      * apply babl_convert_same.
      * subst area. rewrite Harea.
        replace (i + x - x) with i by lia. replace (j + y - y) with j by lia.
        exact Hin.
    + rewrite Hb1, Hown, Hin. simpl. apply babl_convert_same.
  - intros i j. rewrite Hd2.
    destruct (rect_contains (buf_extent (buffer (drawable w))) i j &&
              rect_contains area i j) eqn:Hc.
    + apply andb_true_iff in Hc as [Hc1 Hc2].
      rewrite babl_convert_same, Hb1, Hown.
      rewrite Harea in Hc2. rewrite Hc2. simpl.
      rewrite babl_convert_same. f_equal; lia.
    + rewrite Hd1, Hc. reflexivity.
  - intros i j. rewrite Hb2, Hown, andb_diag.
    destruct (rect_contains (buf_extent b) i j) eqn:Hin; [|rewrite Hb1, Hown, Hin; reflexivity].
    rewrite babl_convert_same, Hd1, Harea.
    replace (i + x - x) with i by lia. replace (j + y - y) with j by lia.
    rewrite Hin, andb_true_r.
    rewrite (Hwithin (i + x) (j + y)).
    + rewrite babl_convert_same. reflexivity.
    + rewrite Harea.
      replace (i + x - x) with i by lia. replace (j + y - y) with j by lia.
      exact Hin.
Qed.

(** ** Attaching and detaching a floating selection *)

Lemma the_layer_update_drawable q p f c :
  the_layer q (update_drawable p f c) = the_layer q c.
Proof.
  unfold the_layer, update_drawable. simpl. rewrite lookup_alter.
  destruct (decide (p = q)) as [->|]; [|reflexivity].
  destruct (objects c !! q); reflexivity.
Qed.

Lemma the_drawable_update_ne p q f c :
  p <> q -> the_drawable q (update_drawable p f c) = the_drawable q c.
Proof. intros. rewrite the_drawable_update. now rewrite decide_False. Qed.

Lemma get_source_node_fuel_cached fuel q c dq n :
  the_drawable q c = Some dq -> source_node dq = Some n ->
  gimp_drawable_get_source_node_fuel fuel q c = (c, Some n).
Proof. intros Hq Hn. destruct fuel; simpl; now rewrite Hq, Hn. Qed.

Lemma gimp_item_get_node_cached q c dq n :
  the_drawable q c = Some dq -> item_node (item dq) = Some n ->
  gimp_item_get_node q c = (c, Some n).
Proof. intros Hq Hn. unfold gimp_item_get_node. now rewrite Hq, Hn. Qed.




Lemma sync_fs_parameters_frame p fs c :
  objects (sync_fs_parameters p fs c) = objects c /\
  connections (graph (sync_fs_parameters p fs c)) = connections (graph c) /\
  next_node (graph (sync_fs_parameters p fs c)) = next_node (graph c) /\
  image_floating_selection (sync_fs_parameters p fs c) =
    image_floating_selection c /\
  handlers (sync_fs_parameters p fs c) = handlers c /\
  canvas_log (sync_fs_parameters p fs c) = canvas_log c.
Proof.
  unfold sync_fs_parameters.
  destruct (the_drawable p c) as [d|]; [|auto 10].
  destruct (the_drawable fs c) as [fsd|]; [|auto 10].
  destruct (fs_crop_node d), (fs_offset_node d), (fs_mode_node d);
    simpl; auto 10.
Qed.

Lemma fs_update_frame fs x y width height p c :
  objects (gimp_drawable_fs_update fs x y width height p c) = objects c /\
  graph (gimp_drawable_fs_update fs x y width height p c) = graph c /\
  image_floating_selection (gimp_drawable_fs_update fs x y width height p c)
    = image_floating_selection c /\
  handlers (gimp_drawable_fs_update fs x y width height p c) = handlers c.
Proof.
  unfold gimp_drawable_fs_update.
  destruct (the_drawable fs c); [|auto].
  destruct (the_drawable p c); [|auto].
  destruct (gimp_rectangle_intersect _ _ _ _ _ _ _ _); auto.
Qed.

Section AttachProofs.

Variable get_source : nat -> Canvas Pixel -> Canvas Pixel * option GeglNode.

Lemma sync_attach_nodes_unfold p fs source output c d fsd l bsn fs_source :
  get_source fs c = (c, Some fs_source) ->
  the_drawable p c = Some d ->
  buffer_source_node d = Some bsn ->
  the_drawable fs c = Some fsd ->
  the_layer fs c = Some l ->
  (is_Some (layer_offset_node l) -> is_Some (item_node (item fsd))) ->
  let k := next_node (graph c) in
  let c1 := sync_attach_nodes get_source p fs source output c in
  the_drawable p c1 =
    Some (set_fs_mode_node (Some (S (S k)))
            (set_fs_offset_node (Some (S k))
               (set_fs_crop_node (Some k) d))) /\
  the_layer p c1 = the_layer p c /\
  (forall q, q <> p -> objects c1 !! q = objects c !! q) /\
  connections (graph c1) =
    <[(output, "input") := (NodeRef (S (S k)), "output")]>
      (<[(NodeRef (S (S k)), "aux") := (NodeRef (S k), "output")]>
         (<[(NodeRef (S (S k)), "input") := (NodeRef bsn, "output")]>
            (<[(NodeRef (S k), "input") := (NodeRef k, "output")]>
               (<[(NodeRef k, "input") := (NodeRef fs_source, "output")]>
                  (without_layer_offset l (connections (graph c))))))) /\
  next_node (graph c1) = S (S (S k)) /\
  image_floating_selection c1 = image_floating_selection c /\
  handlers c1 =
    handlers c ++ [mkHandler fs "notify" gimp_drawable_fs_notify_cb p] /\
  canvas_log c1 = canvas_log c.
Proof.
  intros Hget Hd Hbsn Hfsd Hl Hnode k c1. subst c1.
  unfold sync_attach_nodes, without_layer_offset. rewrite Hget, Hl. simpl.
  destruct (layer_offset_node l) as [lon|].
  - destruct Hnode as [fs_node Hfs_node]; [eauto|].
    rewrite (gimp_item_get_node_cached fs _ fsd fs_node)
      by (autorewrite with canvas; assumption).
    unfold canvas_node_new_child, gegl_node_new_child. simpl.
    autorewrite with canvas. rewrite Hd. simpl. rewrite Hbsn. simpl.
    repeat split.
    + unfold the_layer. simpl. rewrite ?lookup_alter_eq.
      destruct (objects c !! p); reflexivity.
    + intros q Hq. rewrite !lookup_alter_ne by congruence. reflexivity.
  - unfold canvas_node_new_child, gegl_node_new_child. simpl.
    autorewrite with canvas. rewrite Hd. simpl. rewrite Hbsn. simpl.
    repeat split.
    + unfold the_layer. simpl. rewrite ?lookup_alter_eq.
      destruct (objects c !! p); reflexivity.
    + intros q Hq. rewrite !lookup_alter_ne by congruence. reflexivity.
Qed.

Lemma sync_detach_nodes_unfold p fs source c d fsd l fs_source
      crop offset mode :
  (forall c', the_drawable fs c' = Some fsd ->
              get_source fs c' = (c', Some fs_source)) ->
  the_drawable p c = Some d ->
  fs_crop_node d = Some crop ->
  fs_offset_node d = Some offset ->
  fs_mode_node d = Some mode ->
  the_drawable fs c = Some fsd ->
  the_layer fs c = Some l ->
  (is_Some (layer_offset_node l) -> is_Some (item_node (item fsd))) ->
  let c1 := sync_detach_nodes get_source p (Some fs) source c in
  the_drawable p c1 =
    Some (set_fs_mode_node None
            (set_fs_offset_node None (set_fs_crop_node None d))) /\
  the_layer p c1 = the_layer p c /\
  (forall q, q <> p -> objects c1 !! q = objects c !! q) /\
  connections (graph c1) =
    with_layer_offset l fs_source
      (delete (NodeRef mode, "aux")
         (delete (NodeRef mode, "input")
            (delete (NodeRef offset, "input")
               (delete (NodeRef crop, "input")
                  (connections (graph c)))))) /\
  image_floating_selection c1 = image_floating_selection c /\
  handlers c1 =
    filter (fun h => ¬ (h_instance h = fs ∧
                        h_callback h = gimp_drawable_fs_notify_cb ∧
                        h_data h = p)) (handlers c) /\
  canvas_log c1 = canvas_log c.
Proof.
  intros Hget Hd Hcrop Hoffset Hmode Hfsd Hl Hnode c1. subst c1.
  unfold sync_detach_nodes, with_layer_offset. rewrite Hd. simpl.
  rewrite Hcrop, Hoffset, Hmode. simpl.
  rewrite Hget by (autorewrite with canvas; assumption).
  simpl. unfold the_layer in *. simpl. rewrite Hl. simpl.
  destruct (layer_offset_node l) as [lon|].
  - destruct Hnode as [fs_node Hfs_node]; [eauto|].
    rewrite (gimp_item_get_node_cached fs _ fsd fs_node)
      by (autorewrite with canvas; assumption).
    simpl. autorewrite with canvas. rewrite Hd. simpl.
    rewrite Hcrop, Hoffset, Hmode. simpl.
    repeat split; try reflexivity.
    all: try (intros q Hq; rewrite !lookup_alter_ne by congruence;
              reflexivity).
    all: try (destruct d; reflexivity).
    all: rewrite !lookup_alter_eq; destruct (objects c !! p); reflexivity.
  - simpl. autorewrite with canvas. rewrite Hd. simpl.
    rewrite Hcrop, Hoffset, Hmode. simpl.
    repeat split; try reflexivity.
    all: try (intros q Hq; rewrite !lookup_alter_ne by congruence;
              reflexivity).
    all: try (destruct d; reflexivity).
    all: rewrite !lookup_alter_eq; destruct (objects c !! p); reflexivity.
Qed.

End AttachProofs.

Lemma the_layer_eq q c c' :
  objects c' !! q = objects c !! q -> the_layer q c' = the_layer q c.
Proof. unfold the_layer. now intros ->. Qed.

Lemma the_drawable_eq q c c' :
  objects c' !! q = objects c !! q -> the_drawable q c' = the_drawable q c.
Proof. unfold the_drawable. now intros ->. Qed.

Lemma object_eq q c c' :
  the_drawable q c' = the_drawable q c ->
  the_layer q c' = the_layer q c ->
  objects c' !! q = objects c !! q.
Proof.
  unfold the_drawable, the_layer.
  destruct (objects c' !! q) as [[d' l']|], (objects c !! q) as [[d0 l0]|];
    simpl; intros Hd Hl; try congruence.
Qed.

Lemma attach_floating_sel_unfold p fs c d fsd l source bsn fs_source :
  the_drawable p c = Some d ->
  gimp_item_is_attached d = true ->
  floating_selection d = None ->
  source_node d = Some source ->
  buffer_source_node d = Some bsn ->
  fs_crop_node d = None ->
  p <> fs ->
  the_drawable fs c = Some fsd ->
  the_layer fs c = Some l ->
  source_node fsd = Some fs_source ->
  (is_Some (layer_offset_node l) -> is_Some (item_node (item fsd))) ->
  let k := next_node (graph c) in
  let c1 := gimp_drawable_attach_floating_sel p fs c in
  the_drawable p c1 =
    Some (set_fs_mode_node (Some (S (S k)))
            (set_fs_offset_node (Some (S k))
               (set_fs_crop_node (Some k)
                  (set_floating_selection (Some fs) d)))) /\
  the_layer p c1 = the_layer p c /\
  (forall q, q <> p -> objects c1 !! q = objects c !! q) /\
  connections (graph c1) =
    <[(OutputProxy source "output", "input")
      := (NodeRef (S (S k)), "output")]>
      (<[(NodeRef (S (S k)), "aux") := (NodeRef (S k), "output")]>
         (<[(NodeRef (S (S k)), "input") := (NodeRef bsn, "output")]>
            (<[(NodeRef (S k), "input") := (NodeRef k, "output")]>
               (<[(NodeRef k, "input") := (NodeRef fs_source, "output")]>
                  (without_layer_offset l (connections (graph c))))))) /\
  next_node (graph c1) = S (S (S k)) /\
  image_floating_selection c1 = Some fs /\
  handlers c1 =
    handlers c ++ [mkHandler fs "notify" gimp_drawable_fs_notify_cb p;
                   mkHandler fs "update" gimp_drawable_fs_update_cb p].
Proof.
  intros Hd Hatt Hfs Hsrc Hbsn Hcrop Hne Hfsd Hl Hfsrc Hnode k c1.
  set (ca := gimp_drawable_invalidate_boundary fs
               (gimp_image_set_floating_selection (Some fs)
                  (update_drawable p (set_floating_selection (Some fs)) c))).
  assert (Hobj : forall q, q <> p -> objects ca !! q = objects c !! q).
  { intros q Hq. subst ca. unfold gimp_drawable_invalidate_boundary.
    match goal with |- context [match ?x with _ => _ end] => destruct x end;
      simpl; now rewrite lookup_alter_ne. }
  assert (Hda : the_drawable p ca = Some (set_floating_selection (Some fs) d)).
  { subst ca. unfold gimp_drawable_invalidate_boundary.
    match goal with |- context [match ?x with _ => _ end] => destruct x end;
      unfold gimp_image_set_floating_selection;
      unfold the_drawable in *; simpl; rewrite lookup_alter_eq;
      destruct (objects c !! p); simpl in *; congruence. }
  assert (Hfsda : the_drawable fs ca = Some fsd)
    by (rewrite (the_drawable_eq fs c ca); auto).
  assert (Hla : the_layer fs ca = Some l)
    by (rewrite (the_layer_eq fs c ca); auto).
  assert (Hga : graph ca = graph c /\ handlers ca = handlers c /\
                image_floating_selection ca = Some fs).
  { subst ca. unfold gimp_drawable_invalidate_boundary.
    match goal with |- context [match ?x with _ => _ end] => destruct x end;
      simpl; auto. }
  destruct Hga as (Hga & Hha & Hia).
  set (get := gimp_drawable_get_source_node_fuel (Pixel:=Pixel) (size (unsourced ca))).
  set (cb := sync_fs_parameters p fs
               (sync_attach_nodes get p fs source
                  (gegl_node_get_output_proxy source "output") ca)).
  assert (Heq : c1 =
    gimp_drawable_fs_update fs 0 0
      (gimp_item_get_width fsd) (gimp_item_get_height fsd) p
      (set_handlers
         (handlers cb ++
          [mkHandler fs "update" gimp_drawable_fs_update_cb p]) cb)).
  { subst c1. unfold gimp_drawable_attach_floating_sel.
    rewrite Hd, Hatt. simpl negb. cbv iota.
    unfold gimp_drawable_get_floating_sel. rewrite Hfs, Hl, Hfsd.
    cbv zeta. fold ca.
    unfold gimp_drawable_sync_source_node, sync_source_node_with.
    rewrite Hda. simpl. rewrite Hsrc, Hcrop. reflexivity. }
  destruct (sync_attach_nodes_unfold get p fs source
              (gegl_node_get_output_proxy source "output")
              ca (set_floating_selection (Some fs) d) fsd l bsn fs_source)
    as (H1 & HL & H2 & H3 & H4 & H5 & H6 & _); auto.
  { subst get. now apply get_source_node_fuel_cached with fsd. }
  destruct (sync_fs_parameters_frame p fs
              (sync_attach_nodes get p fs source
                 (gegl_node_get_output_proxy source "output") ca))
    as (F1 & F2 & F3 & F4 & F5 & _).
  fold cb in F1, F2, F3, F4, F5.
  destruct (fs_update_frame fs 0 0 (gimp_item_get_width fsd)
              (gimp_item_get_height fsd) p
              (set_handlers
                 (handlers cb ++
                  [mkHandler fs "update" gimp_drawable_fs_update_cb p]) cb))
    as (U1 & U2 & U3 & U4).
  rewrite Heq. unfold the_drawable, the_layer.
  rewrite U1, U2, U3, U4. simpl.
  rewrite F1, F2, F3, F4, F5, H3, H4, H5, H6, Hga, Hha, Hia.
  fold (the_drawable p
          (sync_attach_nodes get p fs source
             (gegl_node_get_output_proxy source "output") ca)).
  rewrite H1, Hga. split; [reflexivity|].
  split.
  { fold (the_layer p
            (sync_attach_nodes get p fs source
               (gegl_node_get_output_proxy source "output") ca)).
    rewrite HL. subst ca. unfold gimp_drawable_invalidate_boundary.
    match goal with |- context [match ?x with _ => _ end] => destruct x end;
      unfold gimp_image_set_floating_selection;
      apply (the_layer_update_drawable p). }
  split; [intros q Hq; rewrite H2 by exact Hq; now apply Hobj|].
  repeat (split; [reflexivity|]). now rewrite <- app_assoc.
Qed.


Lemma invalidate_boundary_frame q c :
  objects (gimp_drawable_invalidate_boundary q c) = objects c /\
  graph (gimp_drawable_invalidate_boundary q c) = graph c /\
  image_floating_selection (gimp_drawable_invalidate_boundary q c) =
    image_floating_selection c /\
  handlers (gimp_drawable_invalidate_boundary q c) = handlers c.
Proof.
  unfold gimp_drawable_invalidate_boundary.
  destruct (the_layer q c); auto.
Qed.

Lemma detach_floating_sel_unfold p fs c d fsd l source bsn fs_source
      crop offset mode :
  the_drawable p c = Some d ->
  floating_selection d = Some fs ->
  source_node d = Some source ->
  buffer_source_node d = Some bsn ->
  fs_crop_node d = Some crop ->
  fs_offset_node d = Some offset ->
  fs_mode_node d = Some mode ->
  p <> fs ->
  the_drawable fs c = Some fsd ->
  the_layer fs c = Some l ->
  source_node fsd = Some fs_source ->
  (is_Some (layer_offset_node l) -> is_Some (item_node (item fsd))) ->
  let c2 := gimp_drawable_detach_floating_sel p c in
  the_drawable p c2 =
    Some (set_floating_selection None
            (set_fs_mode_node None
               (set_fs_offset_node None (set_fs_crop_node None d)))) /\
  the_layer p c2 = the_layer p c /\
  (forall q, q <> p -> objects c2 !! q = objects c !! q) /\
  connections (graph c2) =
    <[(OutputProxy source "output", "input") := (NodeRef bsn, "output")]>
      (with_layer_offset l fs_source
         (delete (NodeRef mode, "aux")
            (delete (NodeRef mode, "input")
               (delete (NodeRef offset, "input")
                  (delete (NodeRef crop, "input")
                     (connections (graph c))))))) /\
  image_floating_selection c2 = None /\
  handlers c2 =
    filter (fun h => ¬ (h_instance h = fs ∧
                        h_callback h = gimp_drawable_fs_update_cb ∧
                        h_data h = p))
      (filter (fun h => ¬ (h_instance h = fs ∧
                           h_callback h = gimp_drawable_fs_notify_cb ∧
                           h_data h = p)) (handlers c)).
Proof.
  intros Hd Hfs Hsrc Hbsn Hcrop Hoffset Hmode Hne Hfsd Hl Hfsrc Hnode c2.
  set (get := gimp_drawable_get_source_node_fuel (Pixel:=Pixel)
                (size (unsourced c))).
  set (ca := sync_detach_nodes get p (Some fs) source c).
  destruct (sync_detach_nodes_unfold get p fs source c d fsd l fs_source
              crop offset mode)
    as (H1 & HL & H2 & H3 & H4 & H5 & _); auto.
  { intros c' Hc'. subst get.
    now apply get_source_node_fuel_cached with fsd. }
  fold ca in H1, HL, H2, H3, H4, H5.
  set (cb := update_graph
               (gegl_node_connect_to (NodeRef bsn) "output"
                  (gegl_node_get_output_proxy source "output") "input") ca).
  assert (Hsync : gimp_drawable_sync_source_node p true c = cb).
  { unfold gimp_drawable_sync_source_node, sync_source_node_with.
    rewrite Hd, Hsrc, Hfs, Hcrop. fold get. fold ca.
    rewrite H1. simpl. rewrite Hbsn. reflexivity. }
  set (cc := set_handlers
               (filter (fun h => ¬ (h_instance h = fs ∧
                                    h_callback h = gimp_drawable_fs_update_cb ∧
                                    h_data h = p)) (handlers cb)) cb).
  assert (Hfsc : the_drawable fs cc = Some fsd).
  { subst cc cb. autorewrite with canvas.
    rewrite (the_drawable_eq fs c ca); auto. }
  assert (Heq : c2 =
    update_drawable p (set_floating_selection None)
      (gimp_image_set_floating_selection None
         (gimp_drawable_invalidate_boundary fs
            (gimp_drawable_fs_update fs 0 0 (gimp_item_get_width fsd)
               (gimp_item_get_height fsd) p cc)))).
  { subst c2. unfold gimp_drawable_detach_floating_sel.
    rewrite Hd. unfold gimp_drawable_get_floating_sel. rewrite Hfs.
    cbv zeta. rewrite Hsync. fold cc. rewrite Hfsc. reflexivity. }
  destruct (fs_update_frame fs 0 0 (gimp_item_get_width fsd)
              (gimp_item_get_height fsd) p cc) as (U1 & U2 & U3 & U4).
  destruct (invalidate_boundary_frame fs
              (gimp_drawable_fs_update fs 0 0 (gimp_item_get_width fsd)
                 (gimp_item_get_height fsd) p cc)) as (I1 & I2 & I3 & I4).
  rewrite Heq.
  split; [|split; [|split; [|split; [|split]]]].
  - rewrite the_drawable_update_eq. unfold the_drawable. simpl.
    rewrite I1, U1. subst cc cb. simpl.
    fold (the_drawable p ca). now rewrite H1.
  - rewrite the_layer_update_drawable. unfold the_layer. simpl.
    rewrite I1, U1. subst cc cb. simpl. exact HL.
  - intros q Hq. simpl. rewrite lookup_alter_ne by congruence.
    rewrite I1, U1. subst cc cb. simpl. now apply H2.
  - simpl. rewrite I2, U2. subst cc cb. simpl. now rewrite H3.
  - reflexivity.
  - simpl. rewrite I4, U4. subst cc cb. simpl. now rewrite H5.
Qed.



Lemma filter_handlers_clean (P : Handler -> Prop) `{!forall h, Decision (P h)}
      (hs : list Handler) :
  Forall (fun h => ¬ P h) hs -> filter (fun h => ¬ P h) hs = hs.
Proof.
  induction 1 as [|h hs Hh _ IH]; [reflexivity|].
  rewrite filter_cons_True by exact Hh. now rewrite IH.
Qed.

(** X10.  Attaching a floating selection and detaching it again gives
    back the drawables, the connections of the graph and the signal
    handlers as they were, and leaves the image without a floating
    selection: for a drawable wired as [gimp_drawable_get_source_node]
    wires it and a floating selection that has its source node. *)
Theorem gimp_drawable_attach_detach_floating_sel
        p fs c d fsd l source bsn fs_source :
  the_drawable p c = Some d ->
  gimp_item_is_attached d = true ->
  gimp_drawable_get_floating_sel d = None ->
  source_node d = Some source ->
  buffer_source_node d = Some bsn ->
  fs_crop_node d = None ->
  fs_offset_node d = None ->
  fs_mode_node d = None ->
  p <> fs ->
  the_drawable fs c = Some fsd ->
  the_layer fs c = Some l ->
  source_node fsd = Some fs_source ->
  (forall lon,
      layer_offset_node l = Some lon ->
      is_Some (item_node (item fsd)) /\
      connections (graph c) !! (NodeRef lon, "input")
        = Some (NodeRef fs_source, "output")) ->
  connections (graph c) !! (OutputProxy source "output", "input")
    = Some (NodeRef bsn, "output") ->
  connections_allocated (graph c) ->
  Forall (fun h => ¬ (h_instance h = fs ∧ h_data h = p)) (handlers c) ->
  let c' :=
    gimp_drawable_detach_floating_sel p
      (gimp_drawable_attach_floating_sel p fs c) in
  objects c' = objects c /\
  connections (graph c') = connections (graph c) /\
  image_floating_selection c' = None /\
  handlers c' = handlers c.
Proof.
  intros Hd Hatt Hfs Hsrc Hbsn Hcrop Hoffset Hmode Hne Hfsd Hl Hfsrc Hlon
         Hout Hfresh Hclean c'.
  assert (Hnode : is_Some (layer_offset_node l) ->
                  is_Some (item_node (item fsd))).
  { intros [lon Hlon']. now apply (Hlon lon). }
  destruct (attach_floating_sel_unfold p fs c d fsd l source bsn fs_source)
    as (A1 & AL & A2 & A3 & A4 & A5 & A6); auto.
  set (c1 := gimp_drawable_attach_floating_sel p fs c) in *.
  set (k := next_node (graph c)) in *.
  assert (Hfsd1 : the_drawable fs c1 = Some fsd)
    by (rewrite (the_drawable_eq fs c c1); auto).
  assert (Hl1 : the_layer fs c1 = Some l)
    by (rewrite (the_layer_eq fs c c1); auto).
  destruct (detach_floating_sel_unfold p fs c1 _ fsd l source bsn fs_source
              k (S k) (S (S k)) A1)
    as (D1 & DL & D2 & D3 & D4 & D5); auto.
  fold c' in D1, DL, D2, D3, D4, D5.
  split; [|split; [|split]].
  - apply map_eq. intros q. destruct (decide (q = p)) as [->|Hq].
    + apply object_eq; [|congruence].
      rewrite D1, Hd. f_equal. unfold gimp_drawable_get_floating_sel in Hfs.
      destruct d. simpl in *. now subst.
    + rewrite D2, A2 by exact Hq. reflexivity.
  - rewrite D3, A3. apply map_eq. intros kk.
    destruct (decide (kk = (OutputProxy source "output", "input")))
      as [->|Hk0].
    { now rewrite lookup_insert_eq, Hout. }
    rewrite lookup_insert_ne by congruence.
    assert (Hinner :
      delete (NodeRef (S (S k)), "aux")
        (delete (NodeRef (S (S k)), "input")
           (delete (NodeRef (S k), "input")
              (delete (NodeRef k, "input")
                 (<[(OutputProxy source "output", "input")
                    := (NodeRef (S (S k)), "output")]>
                    (<[(NodeRef (S (S k)), "aux")
                       := (NodeRef (S k), "output")]>
                       (<[(NodeRef (S (S k)), "input")
                          := (NodeRef bsn, "output")]>
                          (<[(NodeRef (S k), "input")
                             := (NodeRef k, "output")]>
                             (<[(NodeRef k, "input")
                                := (NodeRef fs_source, "output")]>
                                (without_layer_offset l
                                   (connections (graph c)))))))))))
      !! kk = without_layer_offset l (connections (graph c)) !! kk).
    { assert (Hw : forall n pad,
                 (k <= n)%nat ->
                 without_layer_offset l (connections (graph c))
                   !! (NodeRef n, pad) = None).
      { intros n pad Hn. unfold without_layer_offset.
        destruct (layer_offset_node l) as [lon|].
        - destruct (decide ((NodeRef n, pad) = (NodeRef lon, "input")))
            as [->|Hne'].
          + apply lookup_delete_eq.
          + rewrite lookup_delete_ne by congruence. now apply Hfresh.
        - now apply Hfresh. }
      destruct (decide (kk = (NodeRef (S (S k)), "aux"))) as [->|Hk1].
      { rewrite lookup_delete_eq. symmetry. apply Hw. lia. }
      rewrite lookup_delete_ne by congruence.
      destruct (decide (kk = (NodeRef (S (S k)), "input"))) as [->|Hk2].
      { rewrite lookup_delete_eq. symmetry. apply Hw. lia. }
      rewrite lookup_delete_ne by congruence.
      destruct (decide (kk = (NodeRef (S k), "input"))) as [->|Hk3].
      { rewrite lookup_delete_eq. symmetry. apply Hw. lia. }
      rewrite lookup_delete_ne by congruence.
      destruct (decide (kk = (NodeRef k, "input"))) as [->|Hk4].
      { rewrite lookup_delete_eq. symmetry. apply Hw. lia. }
      rewrite lookup_delete_ne by congruence.
      now rewrite !lookup_insert_ne by congruence. }
    unfold with_layer_offset.
    destruct (layer_offset_node l) as [lon|] eqn:Hlo.
    + destruct (Hlon lon eq_refl) as [_ Hwired].
      destruct (decide (kk = (NodeRef lon, "input"))) as [->|Hk5].
      * now rewrite lookup_insert_eq, Hwired.
      * rewrite lookup_insert_ne by congruence. rewrite Hinner.
        unfold without_layer_offset. rewrite Hlo.
        now rewrite lookup_delete_ne by congruence.
    + rewrite Hinner. unfold without_layer_offset. now rewrite Hlo.
  - exact D4.
  - rewrite D5, A6.
    rewrite !filter_app.
    rewrite (filter_handlers_clean
               (fun h => h_instance h = fs ∧
                         h_callback h = gimp_drawable_fs_notify_cb ∧
                         h_data h = p)).
    2:{ eapply Forall_impl; [exact Hclean|]. simpl. tauto. }
    rewrite (filter_handlers_clean
               (fun h => h_instance h = fs ∧
                         h_callback h = gimp_drawable_fs_update_cb ∧
                         h_data h = p)).
    2:{ eapply Forall_impl; [exact Hclean|]. simpl. tauto. }
    rewrite filter_cons_False by (simpl; tauto).
    rewrite filter_cons_True by (simpl; intros (_ & [=] & _)).
    rewrite filter_nil.
    rewrite filter_cons_False by (simpl; tauto).
    rewrite filter_nil. apply app_nil_r.
Qed.


(** X11.  [gimp_drawable_fs_update] turns an update of the floating
    selection into an update of the drawable for the part of the
    rectangle, moved into the drawable's coordinates, that lies in the
    drawable; it signals nothing when no pixel of it does, and changes
    nothing but the log.  The rectangle's origin is moved by the
    floating selection's offset with a [gint] addition, which is the
    exact sum whenever that fits in 32 bits; the drawable's width and
    height are taken to fit a [gint]. *)
Theorem gimp_drawable_fs_update_clipped fs x y width height p c d fsd :
  the_drawable fs c = Some fsd ->
  the_drawable p c = Some d ->
  gimp_item_get_width d <= G_MAXINT ->
  gimp_item_get_height d <= G_MAXINT ->
  let c' := gimp_drawable_fs_update fs x y width height p c in
  let bounds :=
    GEGL_RECTANGLE 0 0 (gimp_item_get_width d) (gimp_item_get_height d) in
  let moved :=
    GEGL_RECTANGLE
      (gint (x + item_offset_x (item fsd)) - item_offset_x (item d))
      (gint (y + item_offset_y (item fsd)) - item_offset_y (item d))
      width height in
  objects c' = objects c /\ graph c' = graph c /\
  handlers c' = handlers c /\
  ((forall i j,
       rect_contains moved i j && rect_contains bounds i j = false) ->
   canvas_log c' = canvas_log c) /\
  (forall i0 j0,
      rect_contains moved i0 j0 = true ->
      rect_contains bounds i0 j0 = true ->
      exists u,
        canvas_log c' =
          canvas_log c ++
          [SignalUpdate (r_x u) (r_y u) (r_width u) (r_height u)] /\
        forall i j,
          rect_contains u i j = true <->
          rect_contains moved i j = true /\
          rect_contains bounds i j = true) /\
  (G_MININT <= x + item_offset_x (item fsd) <= G_MAXINT ->
   gint (x + item_offset_x (item fsd)) = x + item_offset_x (item fsd)) /\
  (G_MININT <= y + item_offset_y (item fsd) <= G_MAXINT ->
   gint (y + item_offset_y (item fsd)) = y + item_offset_y (item fsd)).
Proof.
  intros Hfsd Hd Hwidth Hheight c' bounds moved.
  destruct (fs_update_frame fs x y width height p c) as (U1 & U2 & _ & U4).
  fold c' in U1, U2, U4.
  split; [exact U1|]. split; [exact U2|]. split; [exact U4|].
  match goal with
  | |- ?A /\ ?B /\ _ =>
      assert (Hmain : A /\ B);
      [|destruct Hmain; repeat split; try assumption; apply gint_small]
  end.
  subst c' bounds moved. unfold gimp_drawable_fs_update.
  rewrite Hfsd, Hd.
  destruct (gimp_rectangle_intersect _ _ _ _ _ _ _ _) as [dr|] eqn:Hint.
  - pose proof (gimp_rectangle_intersect_Some _ _ _ _ _ _ _ _ _ Hint)
      as Hdr.
    assert (Hgint :
      gint (r_x dr - item_offset_x (item d))
        = r_x dr - item_offset_x (item d) /\
      gint (r_y dr - item_offset_y (item d))
        = r_y dr - item_offset_y (item d)).
    { pose proof Hint as Hint'. unfold gimp_rectangle_intersect in Hint'.
      destruct (_ && _) eqn:E; [|discriminate].
      injection Hint' as <-. apply andb_true_iff in E.
      rewrite !Z.ltb_lt in E. cbn [r_x r_y].
      unfold G_MAXINT in Hwidth, Hheight.
      split; apply gint_small; unfold G_MININT, G_MAXINT; lia. }
    destruct Hgint as [-> ->].
    split.
    + intros Hno. exfalso.
      assert (Hin : rect_contains dr (r_x dr) (r_y dr) = true).
      { unfold gimp_rectangle_intersect in Hint.
        destruct (_ && _) eqn:E; [|discriminate].
        injection Hint as <-. apply andb_true_iff in E.
        rewrite !Z.ltb_lt in E. apply rect_contains_spec. simpl. lia. }
      apply Hdr in Hin. destruct Hin as [Ha Hb].
      specialize (Hno (r_x dr - item_offset_x (item d))
                      (r_y dr - item_offset_y (item d))).
      apply andb_false_iff in Hno.
      rewrite !rect_contains_false in Hno.
      apply rect_contains_spec in Ha, Hb.
      unfold gimp_item_get_width, gimp_item_get_height in *.
      simpl in *. lia.
    + intros i0 j0 _ _.
      exists (GEGL_RECTANGLE (r_x dr - item_offset_x (item d))
                             (r_y dr - item_offset_y (item d))
                             (r_width dr) (r_height dr)).
      split; [reflexivity|].
      intros i j.
      specialize (Hdr (i + item_offset_x (item d))
                      (j + item_offset_y (item d))).
      rewrite !rect_contains_spec in *.
      unfold gimp_item_get_width, gimp_item_get_height in *.
      simpl in *. lia.
  - split; [reflexivity|].
    intros i0 j0 Ha Hb. exfalso.
    pose proof (proj1 (gimp_rectangle_intersect_None _ _ _ _ _ _ _ _) Hint
                      (i0 + item_offset_x (item d))
                      (j0 + item_offset_y (item d))) as Hno.
    apply andb_false_iff in Hno.
    rewrite !rect_contains_false in Hno.
    apply rect_contains_spec in Ha, Hb.
    unfold gimp_item_get_width, gimp_item_get_height in *.
    simpl in *. lia.
Qed.

(** X12.  The other failed preconditions of attaching and detaching:
    attach on a drawable that is not attached to an image, attach of
    something that is not a layer, detach without a floating selection,
    and either on something that is no drawable, report the failed check
    and change nothing. *)
Theorem gimp_drawable_floating_sel_preconditions p fs c :
  (the_drawable p c = None ->
   precondition_failed "GIMP_IS_DRAWABLE (drawable)" c
     (gimp_drawable_attach_floating_sel p fs c) /\
   precondition_failed "GIMP_IS_DRAWABLE (drawable)" c
     (gimp_drawable_detach_floating_sel p c)) /\
  (forall d,
      the_drawable p c = Some d ->
      gimp_item_is_attached d = false ->
      precondition_failed "gimp_item_is_attached (GIMP_ITEM (drawable))" c
        (gimp_drawable_attach_floating_sel p fs c)) /\
  (forall d,
      the_drawable p c = Some d ->
      gimp_item_is_attached d = true ->
      gimp_drawable_get_floating_sel d = None ->
      the_layer fs c = None ->
      precondition_failed "GIMP_IS_LAYER (floating_sel)" c
        (gimp_drawable_attach_floating_sel p fs c)) /\
  (forall d,
      the_drawable p c = Some d ->
      gimp_drawable_get_floating_sel d = None ->
      precondition_failed
        "gimp_drawable_get_floating_sel (drawable) != NULL" c
        (gimp_drawable_detach_floating_sel p c)).
Proof.
  unfold precondition_failed, gimp_drawable_attach_floating_sel,
    gimp_drawable_detach_floating_sel.
  split; [|split; [|split]].
  - intros ->. simpl. auto 10.
  - intros d -> ->. simpl. auto 10.
  - intros d -> -> -> ->. simpl. auto 10.
  - intros d -> ->. simpl. auto 10.
Qed.

(** ** What the graph code never writes *)

Section GraphInvariant.

Variable R : Canvas Pixel -> Canvas Pixel -> Prop.
Hypothesis R_refl : forall c, R c c.
Hypothesis R_trans : forall c1 c2 c3, R c1 c2 -> R c2 c3 -> R c1 c3.
Hypothesis R_canvas : forall c c', objects c' = objects c -> R c c'.
Hypothesis R_field :
  forall p f c, graph_field f -> R c (update_drawable p f c).
Hypothesis R_source :
  forall p s c d,
    the_drawable p c = Some d -> source_node d = None ->
    R c (update_drawable p (set_source_node (Some s)) c).

Ltac kept_step :=
  lazymatch goal with
  | |- R ?c ?c => apply R_refl
  | |- R _ (update_graph _ ?x) =>
      apply (R_trans _ x); [|apply R_canvas; reflexivity]
  | |- R _ (canvas_emit _ ?x) =>
      apply (R_trans _ x); [|apply R_canvas; reflexivity]
  | |- R _ (set_handlers _ ?x) =>
      apply (R_trans _ x); [|apply R_canvas; reflexivity]
  | |- R _ (gimp_image_set_floating_selection _ ?x) =>
      apply (R_trans _ x); [|apply R_canvas; reflexivity]
  | |- R _ (update_drawable _ _ ?x) =>
      apply (R_trans _ x); [|apply R_field; constructor]
  end.

Lemma kept_get_node p c : R c (gimp_drawable_get_node p c).1.
Proof.
  unfold gimp_drawable_get_node.
  destruct (the_drawable p c) as [d|]; [|apply R_refl].
  unfold canvas_node_new, canvas_node_new_child. simpl.
  destruct (mode_node d); destruct (gimp_item_get_visible d); simpl;
    repeat kept_step.
Qed.

Lemma kept_item_get_node p c : R c (gimp_item_get_node p c).1.
Proof.
  unfold gimp_item_get_node.
  destruct (the_drawable p c) as [d|]; [|apply R_refl].
  destruct (item_node (item d)); [apply R_refl|].
  apply kept_get_node.
Qed.

Lemma kept_visibility_changed p c :
  R c (gimp_drawable_visibility_changed p c).
Proof.
  unfold gimp_drawable_visibility_changed.
  destruct (the_drawable p c) as [d|]; [|apply R_refl].
  destruct (gimp_item_peek_node d); [|apply R_refl].
  destruct (gimp_item_get_visible d); repeat kept_step.
Qed.

Lemma kept_fs_update fs x y width height p c :
  R c (gimp_drawable_fs_update fs x y width height p c).
Proof.
  unfold gimp_drawable_fs_update.
  destruct (the_drawable fs c); [|apply R_refl].
  destruct (the_drawable p c); [|apply R_refl].
  destruct (gimp_rectangle_intersect _ _ _ _ _ _ _ _); repeat kept_step.
Qed.

Lemma kept_invalidate_boundary p c :
  R c (gimp_drawable_invalidate_boundary p c).
Proof.
  unfold gimp_drawable_invalidate_boundary.
  destruct (the_layer p c); repeat kept_step.
Qed.

Section KeptSync.

Variable get_source : nat -> Canvas Pixel -> Canvas Pixel * option GeglNode.
Hypothesis kept_get_source : forall q c, R c (get_source q c).1.

Lemma kept_sync_attach_nodes p fs source output c :
  R c (sync_attach_nodes get_source p fs source output c).
Proof.
  unfold sync_attach_nodes.
  pose proof (kept_get_source fs c) as Hg1.
  destruct (get_source fs c) as [ca fs_source]. cbn [fst] in Hg1.
  match goal with
  | |- context [canvas_node_new_child source "gegl:crop" []
                  (update_graph _ ?x)] => set (cb := x)
  end.
  assert (Hgb : R c cb).
  { subst cb. destruct (the_layer fs ca ≫= layer_offset_node) as [lon|];
      [|exact Hg1].
    pose proof (kept_item_get_node fs
                  (update_graph (gegl_node_disconnect (NodeRef lon) "input")
                                ca)) as Hn.
    destruct (gimp_item_get_node fs _) as [cc fs_node]. cbn [fst] in Hn.
    kept_step. eapply R_trans; [exact Hg1|].
    eapply R_trans; [|exact Hn]. kept_step. apply R_refl. }
  clearbody cb.
  unfold canvas_node_new_child. simpl.
  repeat kept_step. exact Hgb.
Qed.

Lemma kept_sync_fs_parameters p fs c : R c (sync_fs_parameters p fs c).
Proof.
  unfold sync_fs_parameters.
  destruct (the_drawable p c); [|apply R_refl].
  destruct (the_drawable fs c); [|apply R_refl].
  repeat kept_step.
Qed.

Lemma kept_sync_detach_nodes p fs source c :
  R c (sync_detach_nodes get_source p fs source c).
Proof.
  unfold sync_detach_nodes.
  match goal with
  | |- context [match fs with
                | Some fs0 => get_source fs0 ?x
                | None => _
                end] => set (ca := x)
  end.
  assert (Ha : R c ca) by (subst ca; repeat kept_step).
  clearbody ca.
  assert (Hb : R c (match fs with
                    | Some fs0 => get_source fs0 ca
                    | None => (ca, None)
                    end).1).
  { destruct fs as [fs0|]; [|exact Ha].
    eapply R_trans; [exact Ha|apply kept_get_source]. }
  destruct (match fs with
            | Some fs0 => get_source fs0 ca
            | None => (ca, None)
            end) as [cb fs_source].
  cbn [fst] in Hb. clear Ha.
  match goal with
  | |- context [update_graph _ (update_drawable p (set_fs_crop_node None)
                                  (update_graph _ ?x))] => set (cc := x)
  end.
  assert (Hc : R c cc).
  { subst cc. destruct fs as [fs0|]; simpl.
    - destruct (the_layer fs0 _ ≫= layer_offset_node) as [lon|].
      + pose proof (kept_item_get_node fs0
          (update_graph
             (on_nodes (Some source) fs_source gegl_node_remove_child) cb))
          as Hn.
        destruct (gimp_item_get_node fs0 _) as [cd fs_node].
        cbn [fst] in Hn. repeat kept_step.
        eapply R_trans; [|exact Hn].
        kept_step. exact Hb.
      + kept_step. exact Hb.
    - kept_step. exact Hb. }
  clearbody cc.
  destruct fs; repeat kept_step; exact Hc.
Qed.

Lemma kept_sync_source_node_with p detach_fs c :
  R c (sync_source_node_with get_source p detach_fs c).
Proof.
  unfold sync_source_node_with.
  destruct (the_drawable p c) as [d|] eqn:Hd; [|apply R_refl].
  destruct (source_node d) as [source|]; [|apply R_refl].
  assert (Hdetach :
    R c
      (update_graph
         (on_node
            (the_drawable p
               match fs_crop_node d with
               | Some _ =>
                   sync_detach_nodes get_source p (floating_selection d)
                                     source c
               | None => c
               end ≫= buffer_source_node)
            (fun bs => gegl_node_connect_to bs "output"
                         (gegl_node_get_output_proxy source "output")
                         "input"))
         match fs_crop_node d with
         | Some _ =>
             sync_detach_nodes get_source p (floating_selection d) source c
         | None => c
         end)).
  { kept_step. destruct (fs_crop_node d);
      [apply kept_sync_detach_nodes|apply R_refl]. }
  destruct (floating_selection d) as [fs|]; [|exact Hdetach].
  destruct detach_fs; [exact Hdetach|].
  eapply R_trans; [|apply kept_sync_fs_parameters].
  destruct (fs_crop_node d); [apply R_refl|].
  apply kept_sync_attach_nodes.
Qed.

End KeptSync.

Lemma kept_get_source_node_fuel fuel q c :
  R c (gimp_drawable_get_source_node_fuel fuel q c).1.
Proof.
  revert q c. induction fuel as [|fuel IH]; intros q c; simpl.
  - destruct (the_drawable q c) as [d|]; [|apply R_refl].
    destruct (source_node d); apply R_refl.
  - destruct (the_drawable q c) as [d|] eqn:Hd; [|apply R_refl].
    destruct (source_node d) eqn:Hs; [apply R_refl|].
    unfold canvas_node_new, canvas_node_new_child. simpl.
    eapply R_trans;
      [|apply kept_sync_source_node_with; exact IH].
    kept_step. kept_step.
    eapply R_trans; [|apply (R_source q _ _ d); [exact Hd|exact Hs]].
    kept_step. apply R_refl.
Qed.

Lemma kept_sync_source_node p detach_fs c :
  R c (gimp_drawable_sync_source_node p detach_fs c).
Proof.
  apply kept_sync_source_node_with. intros q c'.
  apply kept_get_source_node_fuel.
Qed.

Lemma kept_fs_notify fs name p c :
  R c (gimp_drawable_fs_notify fs name p c).
Proof.
  unfold gimp_drawable_fs_notify.
  destruct (_ || _); [apply kept_sync_source_node|apply R_refl].
Qed.

Lemma kept_attach_floating_sel p fs c :
  R c (gimp_drawable_attach_floating_sel p fs c).
Proof.
  unfold gimp_drawable_attach_floating_sel.
  destruct (the_drawable p c) as [d|]; [|repeat kept_step].
  destruct (negb _); [repeat kept_step|].
  destruct (gimp_drawable_get_floating_sel d); [repeat kept_step|].
  destruct (the_layer fs c); [|repeat kept_step].
  destruct (the_drawable fs c); [|repeat kept_step].
  eapply R_trans; [|apply kept_fs_update]. kept_step.
  eapply R_trans; [|apply kept_sync_source_node].
  eapply R_trans; [|apply kept_invalidate_boundary].
  repeat kept_step.
Qed.

Lemma kept_detach_floating_sel p c :
  R c (gimp_drawable_detach_floating_sel p c).
Proof.
  unfold gimp_drawable_detach_floating_sel.
  destruct (the_drawable p c) as [d|]; [|repeat kept_step].
  destruct (gimp_drawable_get_floating_sel d) as [fs|];
    [|repeat kept_step].
  kept_step. kept_step.
  eapply R_trans; [|apply kept_invalidate_boundary].
  match goal with
  | |- R _ match ?x with _ => _ end => destruct x
  end.
  - eapply R_trans; [|apply kept_fs_update]. kept_step.
    apply kept_sync_source_node.
  - kept_step. apply kept_sync_source_node.
Qed.

End GraphInvariant.

Lemma graph_field_pixel_side f d :
  graph_field f -> pixel_side (f d) = pixel_side d.
Proof. intros []; destruct d; reflexivity. Qed.

Lemma graph_field_source_node f d :
  graph_field f -> source_node (f d) = source_node d.
Proof. intros []; destruct d; reflexivity. Qed.

Lemma same_pixels_refl c : same_pixels c c.
Proof. intros q. reflexivity. Qed.

Lemma same_pixels_trans c1 c2 c3 :
  same_pixels c1 c2 -> same_pixels c2 c3 -> same_pixels c1 c3.
Proof. intros H1 H2 q. now rewrite H2, H1. Qed.

Lemma same_pixels_canvas c c' : objects c' = objects c -> same_pixels c c'.
Proof. intros H q. unfold the_drawable. now rewrite H. Qed.

Lemma same_pixels_field p f c :
  graph_field f -> same_pixels c (update_drawable p f c).
Proof.
  intros Hf q. rewrite the_drawable_update.
  destruct (decide (p = q)); [|reflexivity].
  destruct (the_drawable q c); simpl; [|reflexivity].
  now rewrite graph_field_pixel_side.
Qed.

Lemma same_pixels_source p s c d :
  the_drawable p c = Some d -> source_node d = None ->
  same_pixels c (update_drawable p (set_source_node (Some s)) c).
Proof.
  intros _ _ q. rewrite the_drawable_update.
  destruct (decide (p = q)); [|reflexivity].
  destruct (the_drawable q c) as [[]|]; reflexivity.
Qed.

Lemma sources_kept_refl c : sources_kept c c.
Proof. intros q d n Hd Hn. eauto. Qed.

Lemma sources_kept_trans c1 c2 c3 :
  sources_kept c1 c2 -> sources_kept c2 c3 -> sources_kept c1 c3.
Proof.
  intros H1 H2 q d n Hd Hn.
  destruct (H1 q d n Hd Hn) as (d' & Hd' & Hn'). eauto.
Qed.

Lemma sources_kept_canvas c c' :
  objects c' = objects c -> sources_kept c c'.
Proof.
  intros H q d n Hd Hn. exists d. split; [|exact Hn].
  unfold the_drawable in *. now rewrite H.
Qed.

Lemma sources_kept_field p f c :
  graph_field f -> sources_kept c (update_drawable p f c).
Proof.
  intros Hf q d n Hd Hn. rewrite the_drawable_update.
  destruct (decide (p = q)); [|eauto].
  rewrite Hd. simpl. eexists. split; [reflexivity|].
  now rewrite graph_field_source_node.
Qed.

Lemma sources_kept_source p s c d :
  the_drawable p c = Some d -> source_node d = None ->
  sources_kept c (update_drawable p (set_source_node (Some s)) c).
Proof.
  intros Hd Hs q dq n Hq Hn. rewrite the_drawable_update.
  destruct (decide (p = q)) as [<-|]; [|eauto].
  congruence.
Qed.

(** X13.  [gimp_drawable_get_source_node] returns a node for every
    drawable; the drawable then holds that node as its source node, and
    a second call returns the same node and changes nothing.  A source
    node that exists is returned as it is; a new one is the next node of
    the graph. *)
Theorem gimp_drawable_get_source_node_cached p c d :
  the_drawable p c = Some d ->
  let r := gimp_drawable_get_source_node p c in
  exists n d',
    r.2 = Some n /\
    the_drawable p r.1 = Some d' /\
    source_node d' = Some n /\
    gimp_drawable_get_source_node p r.1 = (r.1, Some n) /\
    (forall n0, source_node d = Some n0 -> r = (c, Some n0)) /\
    (source_node d = None -> n = next_node (graph c)).
Proof.
  intros Hd r. subst r.
  destruct (source_node d) as [n0|] eqn:Hs.
  - assert (Hr : gimp_drawable_get_source_node p c = (c, Some n0))
      by (unfold gimp_drawable_get_source_node;
          now apply get_source_node_fuel_cached with d).
    rewrite Hr. simpl. exists n0, d. repeat split; auto.
    + now intros ? [= <-].
    + discriminate.
  - unfold gimp_drawable_get_source_node.
    destruct (size (unsourced c)) as [|k] eqn:Hsize.
    { exfalso. apply map_size_empty_iff in Hsize.
      unfold the_drawable in Hd.
      destruct (objects c !! p) as [o|] eqn:Ho; [|discriminate].
      injection Hd as <-.
      pose proof (unsourced_lookup p c o Ho Hs) as Hin.
      rewrite Hsize, lookup_empty in Hin. discriminate. }
    rewrite get_source_node_fuel_S, Hd, Hs.
    unfold canvas_node_new, canvas_node_new_child, gegl_node_new,
      gegl_node_new_child.
    cbv beta iota zeta. cbn [fst snd].
    match goal with
    | |- context [sync_source_node_with ?g p false ?x] =>
        set (get := g); set (c3 := x)
    end.
    assert (Hd3 : exists d3, the_drawable p c3 = Some d3 /\
                             source_node d3 = Some (next_node (graph c))).
    { subst c3. autorewrite with canvas. rewrite Hd. simpl. eauto. }
    destruct Hd3 as (d3 & Hd3 & Hs3).
    destruct (kept_sync_source_node_with sources_kept
                sources_kept_refl sources_kept_trans sources_kept_canvas
                sources_kept_field get
                (kept_get_source_node_fuel sources_kept
                   sources_kept_refl sources_kept_trans sources_kept_canvas
                   sources_kept_field sources_kept_source k)
                p false c3 p d3 _ Hd3 Hs3)
      as (d' & Hd' & Hs').
    exists (next_node (graph c)), d'. repeat split; auto.
    + now apply get_source_node_fuel_cached with d'.
    + discriminate.
Qed.

(** X14.  The graph code never touches the pixel side of any drawable:
    creating the node or the source node, a change of visibility,
    syncing the source node, the floating selection's notifications,
    attaching and detaching leave every drawable's attachment, position,
    size, visibility, buffer and shadow buffer as they were. *)
Theorem gimp_drawable_graph_keeps_pixels c :
  (forall p, same_pixels c (gimp_drawable_get_node p c).1) /\
  (forall p, same_pixels c (gimp_drawable_visibility_changed p c)) /\
  (forall p, same_pixels c (gimp_drawable_get_source_node p c).1) /\
  (forall p detach_fs,
      same_pixels c (gimp_drawable_sync_source_node p detach_fs c)) /\
  (forall fs name p, same_pixels c (gimp_drawable_fs_notify fs name p c)) /\
  (forall fs x y width height p,
      same_pixels c (gimp_drawable_fs_update fs x y width height p c)) /\
  (forall p fs, same_pixels c (gimp_drawable_attach_floating_sel p fs c)) /\
  (forall p, same_pixels c (gimp_drawable_detach_floating_sel p c)).
Proof.
  pose proof same_pixels_refl as H1. pose proof same_pixels_trans as H2.
  pose proof same_pixels_canvas as H3. pose proof same_pixels_field as H4.
  pose proof same_pixels_source as H5.
  repeat split; intros.
  - now apply kept_get_node.
  - now apply kept_visibility_changed.
  - unfold gimp_drawable_get_source_node.
    now apply kept_get_source_node_fuel.
  - now apply kept_sync_source_node.
  - now apply kept_fs_notify.
  - now apply kept_fs_update.
  - now apply kept_attach_floating_sel.
  - now apply kept_detach_floating_sel.
Qed.

(** ** The order of a run, and what it leaves *)

Lemma write_buffer_log chunk w :
  log (gegl_write_buffer chunk w) = log w.
Proof. unfold gegl_write_buffer. destruct (shadow _); reflexivity. Qed.

Lemma session_timer w w' :
  session w' = session w -> timer (image_map w') = timer (image_map w).
Proof. unfold session. intros H. injection H. intros. assumption. Qed.

Lemma do_step w ub p :
  gimp_item_is_attached (drawable w) = true ->
  undo_buffer (image_map w) = Some ub ->
  processor (image_map w) = Some p ->
  let w' := (gimp_image_map_do w).1 in
  session w' = session w /\
  match proc_pending p with
  | [] | [_] =>
      (gimp_image_map_do w).2 = false /\
      processor (image_map w') = None /\
      idle_id (image_map w') = 0%nat
  | _ :: rest =>
      (gimp_image_map_do w).2 = true /\
      processor (image_map w') = Some (mkProcessor (proc_rect p) rest) /\
      idle_id (image_map w') = idle_id (image_map w)
  end /\
  log w' =
    log w ++
    match proc_pending p with
    | [] => (if timer (image_map w) then [Printerr (undo_desc (image_map w))]
             else []) ++ [SignalFlush]
    | chunk :: rest =>
        SignalUpdate (r_x chunk) (r_y chunk) (r_width chunk) (r_height chunk)
        :: match rest with
           | [] => (if timer (image_map w)
                    then [Printerr (undo_desc (image_map w))] else [])
                   ++ [SignalFlush]
           | _ :: _ => [SignalFlush]
           end
    end.
Proof.
  intros Hatt Hub Hp w'. subst w'.
  split; [apply do_session|].
  unfold gimp_image_map_do. rewrite Hatt. simpl negb. cbv iota.
  unfold gegl_processor_work. rewrite Hp.
  destruct (proc_pending p) as [|chunk rest] eqn:Hpend.
  - simpl.
    destruct (timer (image_map w)); simpl; rewrite <- ?app_assoc; auto.
  - set (w1 := gegl_write_buffer chunk w).
    destruct (write_buffer_session chunk w) as [Hs1 Hm1].
    fold w1 in Hs1, Hm1.
    assert (Hatt1 : gimp_item_is_attached (drawable w1) = true)
      by (rewrite (session_attached _ _ Hs1); exact Hatt).
    assert (Hub1 : undo_buffer (image_map w1) = Some ub)
      by (now rewrite Hm1).
    pose proof (data_written_log chunk w1 ub Hatt1 Hub1) as Hlog.
    pose proof (data_written_session chunk w1) as Hs2.
    destruct (data_written_image_map chunk w1) as [cnt Hm2].
    set (w2 := gimp_image_map_data_written chunk w1) in *.
    replace (log w1) with (log w) in Hlog
      by (symmetry; apply write_buffer_log).
    assert (Htimer : timer (image_map w2) = timer (image_map w))
      by (rewrite (session_timer _ _ Hs2); apply (session_timer _ _ Hs1)).
    assert (Hdesc : undo_desc (image_map w2) = undo_desc (image_map w))
      by (rewrite (session_undo_desc _ _ Hs2);
          apply (session_undo_desc _ _ Hs1)).
    assert (Hid : idle_id (image_map w2) = idle_id (image_map w))
      by (rewrite Hm2, Hm1; reflexivity).
    destruct rest as [|c2 rest]; simpl.
    + rewrite Htimer, Hdesc.
      destruct (timer (image_map w)); simpl; rewrite Hlog;
        rewrite <- ?app_assoc; auto.
    + rewrite Hlog, Hid. rewrite <- app_assoc. auto.
Qed.

Lemma finish_changes_events fuel w ub p :
  gimp_item_is_attached (drawable w) = true ->
  undo_buffer (image_map w) = Some ub ->
  processor (image_map w) = Some p ->
  (length (proc_pending p) < fuel)%nat ->
  exists w',
    finish_changes fuel w = Some w' /\
    processor (image_map w') = None /\
    idle_id (image_map w') = 0%nat /\
    log w' =
      log w ++ run_events (timer (image_map w)) (undo_desc (image_map w))
                          (proc_pending p).
Proof.
  revert w p. induction fuel as [|fuel IH]; intros w p Hatt Hub Hp Hlen;
    [lia|].
  simpl.
  destruct (do_step w ub p Hatt Hub Hp) as (Hs & Hstep & Hlog).
  destruct (gimp_image_map_do w) as [w1 again]. cbn [fst snd] in *.
  destruct (proc_pending p) as [|chunk rest] eqn:Hpend.
  - destruct Hstep as (-> & Hnone & Hid). exists w1. auto.
  - destruct rest as [|c2 rest].
    + destruct Hstep as (-> & Hnone & Hid). exists w1. auto.
    + destruct Hstep as (-> & Hp1 & Hid).
      destruct (IH w1 (mkProcessor (proc_rect p) (c2 :: rest)))
        as (w' & Hf & Hnone & Hid' & Hlog'); auto.
      * rewrite (session_attached _ _ Hs). exact Hatt.
      * destruct (session_inv _ _ Hs) as (_ & _ & _ & _ & -> & _).
        exact Hub.
      * simpl in *. lia.
      * exists w'. repeat split; auto.
        rewrite Hlog', Hlog, (session_timer _ _ Hs),
          (session_undo_desc _ _ Hs).
        simpl. rewrite <- app_assoc. reflexivity.
Qed.

(** X15.  [gimp_image_map_commit] on a preview that is still running
    finishes the work at once: it signals an update for every chunk the
    processor had pending, in the processor's order, with a flush after
    each turn of [gimp_image_map_do] (the last turn prints the speed
    first when there is a timer), and leaves neither a processor nor an
    idle source. *)
Theorem gimp_image_map_commit_drains w ub p :
  gimp_item_is_attached (drawable w) = true ->
  undo_buffer (image_map w) = Some ub ->
  processor (image_map w) = Some p ->
  idle_id (image_map w) <> 0%nat ->
  let w' := gimp_image_map_commit w in
  processor (image_map w') = None /\
  idle_id (image_map w') = 0%nat /\
  log w' =
    log w ++ run_events (timer (image_map w)) (undo_desc (image_map w))
                        (proc_pending p).
Proof.
  intros Hatt Hub Hp Hid w'. subst w'.
  unfold gimp_image_map_commit.
  assert (Hfin : exists w1,
    commit_finish_changes w = w1 /\
    processor (image_map w1) = None /\
    idle_id (image_map w1) = 0%nat /\
    log w1 =
      log w ++ run_events (timer (image_map w)) (undo_desc (image_map w))
                          (proc_pending p)).
  { unfold commit_finish_changes.
    apply Nat.eqb_neq in Hid. rewrite Hid.
    set (w0 := set_image_map _ w).
    destruct (finish_changes_events (S (pending_chunks w0)) w0 ub p)
      as (w1 & Hf & H1 & H2 & H3); auto.
    { unfold pending_chunks. subst w0. simpl. rewrite Hp. lia. }
    rewrite Hf. exists w1. auto. }
  destruct Hfin as (w1 & Heq & Hnone & Hid1 & Hlog).
  rewrite Heq.
  destruct (commit_finish_changes_spec w) as [Hs _]. rewrite Heq in Hs.
  destruct (commit_register_undo_stack w1 ub) as (_ & _ & Hl & _).
  { rewrite (session_attached _ _ Hs). exact Hatt. }
  { destruct (session_inv _ _ Hs) as (_ & _ & _ & _ & -> & _). exact Hub. }
  rewrite Hl, Hlog.
  unfold commit_register_undo.
  rewrite (session_attached _ _ Hs), Hatt. simpl.
  destruct (session_inv _ _ Hs) as (_ & _ & _ & _ & Hu & _).
  rewrite Hu, Hub. simpl.
  unfold gimp_drawable_push_undo.
  rewrite (session_attached _ _ Hs), Hatt. simpl. auto.
Qed.

Lemma idle_dispatches_stopped k w :
  idle_id (image_map w) = 0%nat -> idle_dispatches k w = w.
Proof.
  intros H. induction k as [|k IH]; [reflexivity|].
  simpl. unfold idle_dispatch. rewrite H. exact IH.
Qed.

(** X16.  Every turn of the idle source handles exactly one chunk.  After
    [k] turns, with more than [k] chunks pending at the start, the
    processor holds the chunks after the first [k], the idle source is
    still installed, and the log has gained an update and a flush for
    each of the first [k] chunks, in order.  Once the turns reach the
    number of pending chunks the run is over, with no processor and no
    idle source, and further turns add nothing. *)
Theorem gimp_image_map_idle_turns w ub p k :
  gimp_item_is_attached (drawable w) = true ->
  undo_buffer (image_map w) = Some ub ->
  processor (image_map w) = Some p ->
  idle_id (image_map w) <> 0%nat ->
  let w' := idle_dispatches k w in
  ((k < length (proc_pending p))%nat ->
   processor (image_map w') =
     Some (mkProcessor (proc_rect p) (drop k (proc_pending p))) /\
   idle_id (image_map w') = idle_id (image_map w) /\
   log w' = log w ++ flat_map turn_events (take k (proc_pending p))) /\
  ((0 < k)%nat -> (length (proc_pending p) <= k)%nat ->
   processor (image_map w') = None /\
   idle_id (image_map w') = 0%nat /\
   log w' =
     log w ++ run_events (timer (image_map w)) (undo_desc (image_map w))
                         (proc_pending p)).
Proof.
  revert w p. induction k as [|k IH]; intros w p Hatt Hub Hp Hid w';
    subst w'.
  { split; [|lia]. intros _. simpl. rewrite drop_0, app_nil_r.
    rewrite Hp. destruct p; auto. }
  simpl.
  assert (E : idle_dispatch w = (gimp_image_map_do w).1).
  { unfold idle_dispatch.
    now replace (Nat.eqb (idle_id (image_map w)) 0) with false
      by (symmetry; now apply Nat.eqb_neq). }
  rewrite E. clear E.
  destruct (do_step w ub p Hatt Hub Hp) as (Hs & Hstep & Hlog).
  set (w1 := (gimp_image_map_do w).1) in *.
  destruct (proc_pending p) as [|chunk rest] eqn:Hpend.
  - destruct Hstep as (_ & Hnone & Hid1).
    rewrite (idle_dispatches_stopped k w1 Hid1).
    split; [simpl; lia|]. auto.
  - destruct rest as [|c2 rest].
    + destruct Hstep as (_ & Hnone & Hid1).
      rewrite (idle_dispatches_stopped k w1 Hid1).
      split; [simpl; lia|]. auto.
    + destruct Hstep as (_ & Hp1 & Hid1).
      destruct (IH w1 (mkProcessor (proc_rect p) (c2 :: rest)))
        as [Hrun Hend]; auto.
      * rewrite (session_attached _ _ Hs). exact Hatt.
      * destruct (session_inv _ _ Hs) as (_ & _ & _ & _ & -> & _).
        exact Hub.
      * congruence.
      * cbn [proc_pending proc_rect] in Hrun, Hend.
        split.
        -- intros Hlt. destruct Hrun as (-> & -> & ->);
             [simpl in *; lia|].
           rewrite Hlog, Hid1. simpl. rewrite <- app_assoc. auto.
        -- intros _ Hle. destruct Hend as (-> & -> & ->);
             [simpl in *; lia..|].
           rewrite Hlog, (session_timer _ _ Hs),
             (session_undo_desc _ _ Hs).
           simpl. rewrite <- app_assoc. auto.
Qed.












(** ** Pixels without selection coverage, over a whole run *)










(** ** The node of a drawable *)

Lemma update_graph_id (f : Gegl -> Gegl) c :
  f (graph c) = graph c -> update_graph f c = c.
Proof. intros H. unfold update_graph. rewrite H. now destruct c. Qed.

Lemma get_node_unfold p c d :
  the_drawable p c = Some d ->
  let c' := (gimp_drawable_get_node p c).1 in
  let node := next_node (graph c) in
  let mode := S node in
  let input := gegl_node_get_input_proxy node "input" in
  let output := gegl_node_get_output_proxy node "output" in
  (gimp_drawable_get_node p c).2 = Some node /\
  the_drawable p c' =
    Some (set_mode_node (Some mode)
            (set_item (set_item_node (Some node) (item d)) d)) /\
  connections (graph c') =
    if gimp_item_get_visible d
    then <[(output, "input") := (NodeRef mode, "output")]>
           (<[(NodeRef mode, "input") := (input, "output")]>
              (connections (graph c)))
    else <[(output, "input") := (input, "output")]> (connections (graph c)).
Proof.
  intros Hd c' node mode input output. subst c'.
  unfold gimp_drawable_get_node. rewrite Hd.
  unfold canvas_node_new, canvas_node_new_child, gegl_node_new,
    gegl_node_new_child.
  destruct (mode_node d); destruct (gimp_item_get_visible d);
    cbn [fst snd]; autorewrite with canvas; rewrite Hd; auto.
Qed.

(** X18.  [gimp_drawable_get_node] builds the node already wired for the
    drawable's visibility: it returns a new node, records it and a new
    mode node in the drawable, and connects the proxies through the mode
    node when the drawable is visible, straight to each other (the mode
    node's input staying open) when it is not.  A call of
    [gimp_drawable_visibility_changed] right after it changes
    nothing. *)
Theorem gimp_drawable_get_node_wired p c d :
  the_drawable p c = Some d ->
  connections_allocated (graph c) ->
  let c' := (gimp_drawable_get_node p c).1 in
  let node := next_node (graph c) in
  let mode := S node in
  let input := gegl_node_get_input_proxy node "input" in
  let output := gegl_node_get_output_proxy node "output" in
  (gimp_drawable_get_node p c).2 = Some node /\
  (gimp_item_peek_node <$> the_drawable p c') = Some (Some node) /\
  (mode_node <$> the_drawable p c') = Some (Some mode) /\
  (if gimp_item_get_visible d
   then connections (graph c') !! (NodeRef mode, "input")
          = Some (input, "output") /\
        connections (graph c') !! (output, "input")
          = Some (NodeRef mode, "output")
   else connections (graph c') !! (output, "input")
          = Some (input, "output") /\
        connections (graph c') !! (NodeRef mode, "input") = None) /\
  gimp_drawable_visibility_changed p c' = c'.
Proof.
  intros Hd Halloc c' node mode input output.
  assert (Hmode : connections (graph c) !! (NodeRef mode, "input") = None)
    by (apply Halloc; subst mode node; lia).
  assert (Hne : (output, "input") <> (NodeRef mode, "input"))
    by (subst output; discriminate).
  destruct (get_node_unfold p c d Hd) as (Hret & Hd1 & Hconn).
  fold c' node mode input output in Hret, Hd1, Hconn.
  split; [exact Hret|].
  rewrite Hd1. split; [reflexivity|]. split; [reflexivity|].
  unfold gimp_drawable_visibility_changed. rewrite Hd1.
  unfold gimp_item_peek_node, gimp_item_get_visible in *.
  cbn [item set_mode_node set_item set_item_node item_node item_visible
       mode_node on_node].
  fold input output.
  destruct (item_visible (item d)).
  - split.
    + rewrite Hconn. split.
      * rewrite lookup_insert_ne by exact Hne. apply lookup_insert_eq.
      * apply lookup_insert_eq.
    + apply update_graph_id.
      destruct (graph c') as [ns cs nx]. simpl in Hconn. subst cs.
      unfold gegl_node_connect_to. simpl. f_equal.
      apply map_eq. intros k.
      destruct (decide (k = (output, "input"))) as [->|];
        [now rewrite !lookup_insert_eq|].
      rewrite lookup_insert_ne by congruence.
      destruct (decide (k = (NodeRef mode, "input"))) as [->|].
      * rewrite lookup_insert_eq. symmetry.
        rewrite lookup_insert_ne by congruence. apply lookup_insert_eq.
      * rewrite !lookup_insert_ne by congruence. reflexivity.
  - split.
    + rewrite Hconn. split.
      * apply lookup_insert_eq.
      * rewrite lookup_insert_ne by exact Hne. exact Hmode.
    + apply update_graph_id.
      destruct (graph c') as [ns cs nx]. simpl in Hconn. subst cs.
      unfold gegl_node_connect_to, gegl_node_disconnect. simpl. f_equal.
      apply map_eq. intros k.
      destruct (decide (k = (output, "input"))) as [->|];
        [now rewrite !lookup_insert_eq|].
      rewrite !lookup_insert_ne by congruence.
      destruct (decide (k = (NodeRef mode, "input"))) as [->|].
      * rewrite lookup_delete_eq. now rewrite Hmode.
      * rewrite lookup_delete_ne by congruence.
        now rewrite lookup_insert_ne by congruence.
Qed.

(** ** After the end of a preview *)

Lemma clear_finished w :
  idle_id (image_map w) = 0%nat ->
  gimp_item_is_attached (drawable w) = false \/
  undo_buffer (image_map w) = None ->
  gimp_image_map_clear w = w.
Proof.
  intros Hid H. unfold gimp_image_map_clear, gimp_image_map_stop_idle.
  rewrite Hid. simpl.
  destruct H as [-> | ->]; [reflexivity|].
  destruct (negb _); reflexivity.
Qed.

Lemma commit_finished w :
  idle_id (image_map (gimp_image_map_commit w)) = 0%nat /\
  (gimp_item_is_attached (drawable (gimp_image_map_commit w)) = false \/
   undo_buffer (image_map (gimp_image_map_commit w)) = None) /\
  (gimp_item_is_attached (drawable w) = true ->
   undo_buffer (image_map (gimp_image_map_commit w)) = None).
Proof.
  unfold gimp_image_map_commit.
  destruct (commit_finish_changes_spec w) as [Hs Hid].
  destruct (commit_register_undo_spec (commit_finish_changes w))
    as (Hid' & Hatt' & Hnone).
  rewrite Hid in Hid'.
  pose proof (session_attached _ _ Hs) as Hatt.
  rewrite Hatt', Hatt.
  split; [exact Hid'|]. split.
  - destruct (gimp_item_is_attached (drawable w)) eqn:E; [|auto].
    right. apply Hnone. congruence.
  - intros Ha. apply Hnone. congruence.
Qed.

(** X19.  [gimp_image_map_commit] and [gimp_image_map_clear] are both
    final: on every world, a clear after a commit, a commit after a
    clear and a second clear change nothing, so a committed filter
    cannot be taken back through the image map and a cleared one pushes
    no undo step.  For an attached drawable either one gives up the undo
    buffer. *)
Theorem gimp_image_map_finished w :
  gimp_image_map_clear (gimp_image_map_commit w) = gimp_image_map_commit w /\
  gimp_image_map_commit (gimp_image_map_clear w) = gimp_image_map_clear w /\
  gimp_image_map_clear (gimp_image_map_clear w) = gimp_image_map_clear w /\
  (gimp_item_is_attached (drawable w) = true ->
   undo_buffer (image_map (gimp_image_map_clear w)) = None /\
   undo_buffer (image_map (gimp_image_map_commit w)) = None).
Proof.
  assert (Hclear :
    idle_id (image_map (gimp_image_map_clear w)) = 0%nat /\
    (gimp_item_is_attached (drawable (gimp_image_map_clear w)) = false \/
     undo_buffer (image_map (gimp_image_map_clear w)) = None) /\
    (gimp_item_is_attached (drawable w) = true ->
     undo_buffer (image_map (gimp_image_map_clear w)) = None)).
  { unfold gimp_image_map_clear. cbv zeta.
    pose proof (stop_idle_idle_id w) as Hid.
    pose proof (stop_idle_drawable w) as Hd.
    set (w0 := gimp_image_map_stop_idle w) in *.
    rewrite Hd.
    destruct (gimp_item_is_attached (drawable w)) eqn:Hatt; simpl.
    - destruct (undo_buffer (image_map w0)) as [ub|] eqn:Hub.
      + destruct (negb (String.eqb _ _)); simpl; auto.
      + rewrite Hub. auto.
    - rewrite Hd, Hatt. split; [exact Hid|]. split; [auto|discriminate]. }
  destruct Hclear as (Hid & Hfin & Hnone).
  destruct (commit_finished w) as (Hcid & Hcfin & Hcnone).
  repeat split.
  - now apply clear_finished.
  - unfold gimp_image_map_commit.
    rewrite (commit_finish_changes_idle _ Hid).
    now apply commit_register_undo_done.
  - now apply clear_finished.
  - now apply Hnone.
  - now apply Hcnone.
Qed.

End Proofs.

(** * The properties on the small instance *)

#[local] Existing Instance Example.runtime.


(** Apply and clear do not always give back the pixels from before the
    apply.  After a whole first run the drawable reads 245 at (1,1) and
    the undo buffer of the rectangle is still held, in the drawable's
    format; a second apply copies nothing, and the clear after it
    leaves 10 at (1,1). *)
Lemma gimp_image_map_apply_clear_counterexample :
  gimp_item_is_attached (drawable Example.previewed) = true /\
  gimp_item_mask_intersect (drawable Example.previewed)
                           (image Example.previewed)
  = Some Example.selected /\
  gegl_buffer_get_format <$> undo_buffer (image_map Example.previewed)
  = Some (gimp_drawable_get_format (drawable Example.previewed)) /\
  rect_contains Example.selected 1 1 = true /\
  gegl_buffer_get (buffer (drawable Example.previewed)) 1 1 = 245 /\
  gegl_buffer_get
    (buffer
       (drawable
          (gimp_image_map_clear
             (gimp_image_map_apply Example.previewed Example.whole))))
    1 1 = 10 /\
  gegl_buffer_get
    (buffer
       (drawable
          (gimp_image_map_clear
             (idle_dispatches 2
                (gimp_image_map_apply Example.previewed Example.whole)))))
    1 1 = 10.
Proof. repeat split; reflexivity. Qed.

Lemma gimp_image_map_get_pixel_at_snapshot_witness :
  gimp_image_map_get_pixel_at (idle_dispatches 2 Example.applied) 1 1
                              Example.format = Some 10 /\
  gimp_image_map_get_pixel_at (idle_dispatches 2 Example.applied) 0 3
                              Example.format = Some 10 /\
  gimp_drawable_get_pixel_at (drawable (idle_dispatches 2 Example.applied))
                             1 1 Example.format = Some 245 /\
  gimp_image_map_get_pixel_at (idle_dispatches 2 Example.applied) 4 1
                              Example.format = None.
Proof.
  assert (Hub : undo_buffer (image_map (idle_dispatches 2 Example.applied))
                = Some Example.snapshot) by reflexivity.
  split; [|split; [|split]].
  - refine (proj1 (gimp_image_map_get_pixel_at_snapshot
                     _ Example.snapshot 1 1 Example.format Hub) _ _);
      vm_compute; repeat split; discriminate.
  - refine (proj1 (proj1 (proj2 (gimp_image_map_get_pixel_at_snapshot
                     _ Example.snapshot 0 3 Example.format Hub)) _ _));
      vm_compute; [repeat split; discriminate|].
    intros [[H _] _]. apply H. reflexivity.
  - reflexivity.
  - refine (proj2 (proj2 (gimp_image_map_get_pixel_at_snapshot
                     _ Example.snapshot 4 1 Example.format Hub)) _).
    vm_compute. intros [[_ H] _]. discriminate H.
Defined.

Lemma gimp_image_map_apply_region_witness :
  (exists rect,
      (forall x y,
          rect_contains rect x y = true <->
          rect_contains Example.selected x y = true /\
          rect_contains (GEGL_RECTANGLE 0 0 4 4) x y = true) /\
      processor (image_map Example.applied) =
        Some (mkProcessor rect (gegl_processor_chunks rect)) /\
      translate_x (image_map Example.applied) = r_x rect /\
      translate_y (image_map Example.applied) = r_y rect /\
      undo_offset_x (image_map Example.applied) = r_x rect /\
      undo_offset_y (image_map Example.applied) = r_y rect /\
      idle_id (image_map Example.applied) <> 0%nat) /\
  drawable (gimp_image_map_apply Example.detached Example.whole) =
  drawable Example.detached /\
  undo_buffer
    (image_map (gimp_image_map_apply Example.detached Example.whole)) = None.
Proof.
  split; [|split].
  - exact (proj1 (gimp_image_map_apply_region Example.fresh Example.whole)
                 eq_refl 1 1 eq_refl eq_refl).
  - exact (proj1 (proj2 (proj2 (gimp_image_map_apply_region
                                  Example.detached Example.whole)
                                (or_introl eq_refl)))).
  - exact (proj1 (proj2 (proj2 (proj2 (proj2 (gimp_image_map_apply_region
                                  Example.detached Example.whole)
                                (or_introl eq_refl)))))).
Defined.

Lemma gimp_image_map_commit_twice_witness :
  gimp_image_map_commit (gimp_image_map_commit Example.applied) =
  gimp_image_map_commit Example.applied /\
  undo_buffer (image_map (gimp_image_map_commit Example.applied)) = None /\
  length (undo_stack (image (gimp_image_map_commit
                               (gimp_image_map_commit Example.applied)))) =
  1%nat.
Proof.
  split; [|split].
  - exact (proj1 (gimp_image_map_commit_twice Example.applied)).
  - exact (proj2 (proj2 (gimp_image_map_commit_twice Example.applied))
                 eq_refl).
  - rewrite (proj1 (gimp_image_map_commit_twice Example.applied)).
    reflexivity.
Defined.


(** A format mismatch is not always reported: on the converted
    drawable, taken out of its image, [gimp_image_map_clear] reports
    nothing and keeps the undo buffer. *)
Lemma gimp_image_map_clear_format_mismatch_counterexample :
  undo_buffer (image_map Example.abandoned) = Some Example.snapshot /\
  gegl_buffer_get_format Example.snapshot
  <> gimp_drawable_get_format (drawable Example.abandoned) /\
  log (gimp_image_map_clear Example.abandoned) = [] /\
  undo_buffer (image_map (gimp_image_map_clear Example.abandoned))
  <> None.
Proof.
  split; [reflexivity|]. split; [vm_compute; discriminate|].
  split; [reflexivity|]. vm_compute. discriminate.
Qed.


Lemma gimp_drawable_visibility_toggle_witness :
  connections (graph (gimp_item_set_visible 0 false Example.with_node))
    !! (OutputProxy 0%nat "output", "input")
  = Some (InputProxy 0%nat "input", "output") /\
  connections (graph (gimp_item_set_visible 0 false Example.with_node))
    !! (NodeRef 1%nat, "input") = None /\
  gimp_item_set_visible 0 true
    (gimp_item_set_visible 0 false Example.with_node) = Example.with_node.
Proof.
  assert (Hd : the_drawable 0 Example.with_node
               = Some Example.visible_target) by (vm_compute; reflexivity).
  pose proof (gimp_drawable_visibility_toggle
                0%nat Example.with_node Example.visible_target 0%nat 1%nat
                Hd ltac:(vm_compute; reflexivity) ltac:(vm_compute; reflexivity))
    as (Hhidden & _ & Hrestore).
  split; [exact (proj1 Hhidden)|]. split; [exact (proj2 Hhidden)|].
  apply Hrestore; vm_compute; reflexivity.
Defined.

Lemma gimp_drawable_attach_floating_sel_bound_witness :
  the_drawable 0 (gimp_drawable_attach_floating_sel 0 2 Example.floating)
  = Some Example.bound_target /\
  floating_selection Example.bound_target = Some 1%nat /\
  graph (gimp_drawable_attach_floating_sel 0 2 Example.floating)
  = graph Example.floating /\
  image_floating_selection
    (gimp_drawable_attach_floating_sel 0 2 Example.floating) = Some 1%nat /\
  canvas_log (gimp_drawable_attach_floating_sel 0 2 Example.floating) =
  canvas_log Example.floating ++
  [Critical "gimp_drawable_get_floating_sel (drawable) == NULL"].
Proof.
  assert (Hd : the_drawable 0 Example.floating = Some Example.bound_target)
    by (vm_compute; reflexivity).
  pose proof (gimp_drawable_attach_floating_sel_bound
                0%nat 2%nat Example.floating Example.bound_target 1%nat
                Hd ltac:(vm_compute; reflexivity))
    as (_ & Hsame & Hg & Hfs & _ & _ & Hlog).
  split; [exact Hsame|]. split; [vm_compute; reflexivity|].
  split; [exact Hg|].
  split; [rewrite Hfs; vm_compute; reflexivity|].
  apply Hlog. vm_compute; reflexivity.
Defined.

Lemma gimp_drawable_sync_source_node_fs_parameters_witness :
  exists d' crop offset,
    the_drawable 0 (gimp_drawable_sync_source_node 0 false Example.floating)
    = Some d' /\
    fs_crop_node d' = Some crop /\
    fs_offset_node d' = Some offset /\
    gegl_node_get crop "x"
      (graph (gimp_drawable_sync_source_node 0 false Example.floating))
    = Some (PDouble (inject_Z (0 - 10))) /\
    gegl_node_get crop "width"
      (graph (gimp_drawable_sync_source_node 0 false Example.floating))
    = Some (PDouble (inject_Z 50)) /\
    gegl_node_get offset "x"
      (graph (gimp_drawable_sync_source_node 0 false Example.floating))
    = Some (PDouble (inject_Z (10 - 0))).
Proof.
  assert (Hd : the_drawable 0 Example.floating = Some Example.bound_target)
    by (vm_compute; reflexivity).
  assert (Hfs : the_drawable 1 Example.floating = Some Example.bound_layer)
    by (vm_compute; reflexivity).
  assert (Hok : fs_nodes_ok Example.bound_target (graph Example.floating)).
  { vm_compute. repeat split; eauto. discriminate. }
  destruct (gimp_drawable_sync_source_node_fs_parameters
              0%nat 1%nat Example.floating Example.bound_target
              Example.bound_layer 2%nat Hd ltac:(vm_compute; reflexivity)
              ltac:(vm_compute; reflexivity) Hfs Hok)
    as (d' & crop & offset & H1 & H2 & H3 & H4 & _ & H6 & _ & H8 & _).
  exists d', crop, offset. repeat split; assumption.
Defined.

(** The crop node's origin is not the floating selection's offset minus
    the drawable's: with the drawable at (0,0) and the floating selection
    at (10,10) the crop starts at -10. *)
Lemma gimp_drawable_sync_source_node_crop_counterexample :
  item_offset_x (item Example.bound_target) = 0 /\
  item_offset_x (item Example.bound_layer) = 10 /\
  ~ (exists d' crop,
        the_drawable 0
          (gimp_drawable_sync_source_node 0 false Example.floating)
        = Some d' /\
        fs_crop_node d' = Some crop /\
        gegl_node_get crop "x"
          (graph (gimp_drawable_sync_source_node 0 false Example.floating))
        = Some (PDouble
                  (inject_Z (item_offset_x (item Example.bound_layer)
                             - item_offset_x (item Example.bound_target))))).
Proof.
  split; [vm_compute; reflexivity|]. split; [vm_compute; reflexivity|].
  intros (d' & crop & Hd & Hcrop & Hx).
  vm_compute in Hd. injection Hd as <-.
  vm_compute in Hcrop. injection Hcrop as <-.
  vm_compute in Hx. discriminate Hx.
Qed.

(** ** More properties on the small instance *)


Lemma gimp_image_map_detached_untouched_witness :
  gimp_item_is_attached (drawable Example.orphaned) = false /\
  idle_id (image_map Example.orphaned) <> 0%nat /\
  untouched Example.orphaned (idle_dispatches 3 Example.orphaned) /\
  untouched Example.orphaned (gimp_image_map_commit Example.orphaned) /\
  undo_stack (image (gimp_image_map_commit Example.orphaned)) = [] /\
  gimp_image_map_clear Example.orphaned =
  gimp_image_map_stop_idle Example.orphaned.
Proof.
  pose proof (gimp_image_map_detached_untouched Example.orphaned eq_refl)
    as (Hidle & (Hcommit & _) & Hclear & _).
  split; [reflexivity|]. split; [discriminate|].
  split; [exact (Hidle 3%nat)|]. split; [exact Hcommit|].
  split; [|exact Hclear].
  destruct Hcommit as (_ & -> & _). reflexivity.
Defined.




Lemma gimp_image_map_apply_again_witness :
  gegl_buffer_get
    (buffer (drawable (idle_dispatches 2 Example.applied))) 1 1 = 245 /\
  undo_buffer
    (image_map (gimp_image_map_apply (idle_dispatches 2 Example.applied)
                                     Example.whole)) =
  undo_buffer (image_map Example.applied) /\
  gegl_buffer_get
    (buffer
       (drawable
          (gimp_image_map_clear
             (idle_dispatches 1
                (gimp_image_map_apply (idle_dispatches 2 Example.applied)
                                      Example.whole))))) 1 1 = 10.
Proof.
  pose proof (gimp_image_map_apply_again
                Example.fresh Example.whole Example.whole Example.selected
                2%nat 1%nat eq_refl (conj eq_refl I) eq_refl eq_refl)
    as [(Hub & _) Hpix].
  split; [reflexivity|]. split; [exact Hub|].
  exact (Hpix 1 1 eq_refl).
Defined.

Lemma gimp_drawable_push_undo_region_witness :
  (exists step r,
      undo_stack
        (image (gimp_drawable_push_undo "Paint" None (-1) (-1) 3 3
                                        Example.fresh)) = [step] /\
      (forall i j,
          rect_contains r i j = true <->
          rect_contains (GEGL_RECTANGLE (-1) (-1) 3 3) i j = true /\
          rect_contains (GEGL_RECTANGLE 0 0 4 4) i j = true) /\
      undo_x step = r_x r /\
      gegl_buffer_get (undo_pixels step) (1 - r_x r) (1 - r_y r) = 10) /\
  log (gimp_drawable_push_undo "Paint" None 4 4 2 2 Example.fresh) =
  [Warning "gimp_drawable_push_undo: tried to push empty region"] /\
  log (gimp_drawable_push_undo "Paint" None 0 0 2 2 Example.detached) =
  [Critical "gimp_item_is_attached (item)"].
Proof.
  split; [|split].
  - destruct (proj2 (proj2 (proj2
               (gimp_drawable_push_undo_region
                  Example.fresh "Paint" (-1) (-1) 3 3)))
               eq_refl 0 0 eq_refl eq_refl)
      as (_ & step & r & H1 & H2 & _ & H4 & _ & _ & _ & H8).
    exists step, r. split; [exact H1|]. split; [exact H2|].
    split; [exact H4|].
    apply H8. apply H2. split; reflexivity.
  - refine (proj2 (proj1 (proj2 (proj2
              (gimp_drawable_push_undo_region
                 Example.fresh "Paint" 4 4 2 2))) eq_refl _)).
    intros i j. apply not_true_is_false.
    change (gimp_item_get_width (drawable Example.fresh)) with 4.
    change (gimp_item_get_height (drawable Example.fresh)) with 4.
    rewrite andb_true_iff, !rect_contains_spec. simpl. lia.
  - exact (proj2 (proj1 (proj2
             (gimp_drawable_push_undo_region
                Example.detached "Paint" 0 0 2 2)) eq_refl)).
Defined.

Lemma gimp_drawable_swap_pixels_twice_witness :
  gegl_buffer_get
    (buffer (drawable (gimp_drawable_swap_pixels Example.patch 1 1
                                                 Example.fresh).1)) 2 2 = 7 /\
  gegl_buffer_get
    (gimp_drawable_swap_pixels Example.patch 1 1 Example.fresh).2 1 1 = 10 /\
  gegl_buffer_get
    (buffer
       (drawable
          (gimp_drawable_swap_pixels
             (gimp_drawable_swap_pixels Example.patch 1 1 Example.fresh).2
             1 1
             (gimp_drawable_swap_pixels Example.patch 1 1
                                        Example.fresh).1).1)) 2 2 =
  gegl_buffer_get (buffer (drawable Example.fresh)) 2 2 /\
  gegl_buffer_get
    (gimp_drawable_swap_pixels
       (gimp_drawable_swap_pixels Example.patch 1 1 Example.fresh).2
       1 1
       (gimp_drawable_swap_pixels Example.patch 1 1 Example.fresh).1).2 1 1 =
  gegl_buffer_get Example.patch 1 1.
Proof.
  assert (Hin : rect_within (buf_extent (buffer (drawable Example.fresh)))
                  (GEGL_RECTANGLE 1 1 (gegl_buffer_get_width Example.patch)
                                  (gegl_buffer_get_height Example.patch))).
  { intros x y.
    change (rect_contains (GEGL_RECTANGLE 1 1 2 2) x y = true ->
            rect_contains (GEGL_RECTANGLE 0 0 4 4) x y = true).
    rewrite !rect_contains_spec. simpl. lia. }
  pose proof (gimp_drawable_swap_pixels_twice
                Example.patch 1 1 Example.fresh eq_refl eq_refl eq_refl Hin)
    as (Hswap & Hback & Hbuf).
  split; [exact (proj1 (Hswap 1 1 eq_refl))|].
  split; [exact (proj2 (Hswap 1 1 eq_refl))|].
  split; [exact (Hback 2 2)|exact (Hbuf 1 1)].
Defined.


(** The example graph connects only nodes that exist. *)
Lemma example_sourced_allocated :
  connections_allocated (graph Example.sourced).
Proof.
  intros n pad Hn.
  destruct (connections (graph Example.sourced) !! (NodeRef n, pad))
    as [v|] eqn:E; [exfalso|reflexivity].
  apply elem_of_map_to_list in E.
  remember (map_to_list (connections (graph Example.sourced))) as l eqn:Hl.
  vm_compute in Hl. subst l.
  change (next_node (graph Example.sourced)) with 6%nat in Hn.
  repeat (apply elem_of_cons in E as [E|E];
          [first [discriminate E | injection E as -> _ _; lia]|]).
  inversion E.
Defined.

Lemma gimp_drawable_attach_detach_floating_sel_witness :
  floating_selection
    (default Example.sourced_target
       (the_drawable 0
          (gimp_drawable_attach_floating_sel 0 1 Example.sourced)))
  = Some 1%nat /\
  objects
    (gimp_drawable_detach_floating_sel 0
       (gimp_drawable_attach_floating_sel 0 1 Example.sourced)) =
  objects Example.sourced /\
  connections
    (graph (gimp_drawable_detach_floating_sel 0
              (gimp_drawable_attach_floating_sel 0 1 Example.sourced))) =
  connections (graph Example.sourced) /\
  handlers
    (gimp_drawable_detach_floating_sel 0
       (gimp_drawable_attach_floating_sel 0 1 Example.sourced)) = [].
Proof.
  assert (Hd : the_drawable 0 Example.sourced = Some Example.sourced_target)
    by (vm_compute; reflexivity).
  assert (Hfs : the_drawable 1 Example.sourced = Some Example.sourced_layer)
    by (vm_compute; reflexivity).
  pose proof (gimp_drawable_attach_detach_floating_sel
                0%nat 1%nat Example.sourced Example.sourced_target
                Example.sourced_layer
                (mkLayer None GIMP_NORMAL_MODE (1 # 2)) 2%nat 3%nat 4%nat
                Hd ltac:(vm_compute; reflexivity)
                ltac:(vm_compute; reflexivity) ltac:(vm_compute; reflexivity)
                ltac:(vm_compute; reflexivity) ltac:(vm_compute; reflexivity)
                ltac:(vm_compute; reflexivity) ltac:(vm_compute; reflexivity)
                ltac:(discriminate) Hfs ltac:(vm_compute; reflexivity)
                ltac:(vm_compute; reflexivity)
                ltac:(intros lon Hlon; discriminate Hlon)
                ltac:(vm_compute; reflexivity)
                example_sourced_allocated
                ltac:(constructor))
    as (Hobj & Hconn & _ & Hh).
  split; [vm_compute; reflexivity|].
  split; [exact Hobj|]. split; [exact Hconn|]. exact Hh.
Defined.

Lemma gimp_drawable_fs_update_clipped_witness :
  (exists u,
      canvas_log (gimp_drawable_fs_update 1 (-5) 0 10 50 0
                                          Example.empty_canvas) =
      [SignalUpdate (r_x u) (r_y u) (r_width u) (r_height u)] /\
      forall i j,
        rect_contains u i j = true <->
        rect_contains (GEGL_RECTANGLE 5 10 10 50) i j = true /\
        rect_contains (GEGL_RECTANGLE 0 0 50 50) i j = true) /\
  canvas_log (gimp_drawable_fs_update 1 45 0 10 10 0 Example.empty_canvas)
  = [].
Proof.
  assert (Hfs : the_drawable 1 Example.empty_canvas
                = Some (obj_drawable (Example.layer 10 10)))
    by (vm_compute; reflexivity).
  assert (Hd : the_drawable 0 Example.empty_canvas
               = Some (obj_drawable Example.target))
    by (vm_compute; reflexivity).
  split.
  - exact (proj1 (proj2 (proj2 (proj2 (proj2
             (gimp_drawable_fs_update_clipped
                1%nat (-5) 0 10 50 0%nat Example.empty_canvas _ _ Hfs Hd
                ltac:(vm_compute; discriminate)
                ltac:(vm_compute; discriminate))))))
             5 10 eq_refl eq_refl).
  - refine (proj1 (proj2 (proj2 (proj2
              (gimp_drawable_fs_update_clipped
                 1%nat 45 0 10 10 0%nat Example.empty_canvas _ _ Hfs Hd
                 ltac:(vm_compute; discriminate)
                 ltac:(vm_compute; discriminate))))) _).
    intros i j. apply not_true_is_false.
    rewrite andb_true_iff, !rect_contains_spec.
    change (gint (45 + item_offset_x (item (obj_drawable (Example.layer 10 10)))))
      with 55.
    change (gint (0 + item_offset_y (item (obj_drawable (Example.layer 10 10)))))
      with 10.
    unfold gimp_item_get_width, gimp_item_get_height. simpl. lia.
Defined.

Lemma gimp_drawable_floating_sel_preconditions_witness :
  precondition_failed
    "gimp_drawable_get_floating_sel (drawable) != NULL" Example.with_graph
    (gimp_drawable_detach_floating_sel 0 Example.with_graph) /\
  precondition_failed "GIMP_IS_LAYER (floating_sel)" Example.with_graph
    (gimp_drawable_attach_floating_sel 0 0 Example.with_graph) /\
  precondition_failed "GIMP_IS_DRAWABLE (drawable)" Example.with_graph
    (gimp_drawable_attach_floating_sel 7 1 Example.with_graph).
Proof.
  assert (Hd : the_drawable 0 Example.with_graph
               = Some (default (obj_drawable Example.target)
                         (the_drawable 0 Example.with_graph)))
    by (vm_compute; reflexivity).
  split; [|split].
  - exact (proj2 (proj2 (proj2
             (gimp_drawable_floating_sel_preconditions
                0%nat 0%nat Example.with_graph))) _ Hd
             ltac:(vm_compute; reflexivity)).
  - exact (proj1 (proj2 (proj2
             (gimp_drawable_floating_sel_preconditions
                0%nat 0%nat Example.with_graph))) _ Hd
             ltac:(vm_compute; reflexivity) ltac:(vm_compute; reflexivity)
             ltac:(vm_compute; reflexivity)).
  - exact (proj1 (proj1
             (gimp_drawable_floating_sel_preconditions
                7%nat 1%nat Example.with_graph)
             ltac:(vm_compute; reflexivity))).
Defined.

Lemma gimp_drawable_get_source_node_cached_witness :
  (gimp_drawable_get_source_node 1 Example.with_graph).2 = Some 4%nat /\
  gimp_drawable_get_source_node 1 Example.sourced
  = (Example.sourced, Some 4%nat).
Proof.
  assert (Hd : the_drawable 1 Example.with_graph
               = Some (obj_drawable (Example.layer 10 10)))
    by (vm_compute; reflexivity).
  destruct (gimp_drawable_get_source_node_cached
              1%nat Example.with_graph _ Hd)
    as (n & d' & H1 & _ & _ & H4 & _ & H6).
  rewrite (H6 ltac:(vm_compute; reflexivity)) in *.
  split; [exact H1|exact H4].
Defined.

Lemma gimp_image_map_commit_drains_witness :
  processor (image_map (gimp_image_map_commit Example.applied)) = None /\
  log (gimp_image_map_commit Example.applied) =
  [SignalUpdate 1 1 2 1; SignalFlush; SignalUpdate 1 2 2 1; SignalFlush].
Proof.
  pose proof (gimp_image_map_commit_drains
                Example.applied Example.snapshot
                (mkProcessor Example.selected
                   (gegl_processor_chunks Example.selected))
                eq_refl eq_refl eq_refl ltac:(discriminate))
    as (Hp & _ & Hl).
  split; [exact Hp | exact Hl].
Defined.

Lemma gimp_image_map_idle_turns_witness :
  processor (image_map (idle_dispatches 1 Example.applied)) =
    Some (mkProcessor Example.selected [GEGL_RECTANGLE 1 2 2 1]) /\
  log (idle_dispatches 1 Example.applied) =
    [SignalUpdate 1 1 2 1; SignalFlush] /\
  processor (image_map (idle_dispatches 5 Example.applied)) = None /\
  log (idle_dispatches 5 Example.applied) =
    [SignalUpdate 1 1 2 1; SignalFlush; SignalUpdate 1 2 2 1; SignalFlush].
Proof.
  pose proof (proj1 (gimp_image_map_idle_turns
                Example.applied Example.snapshot
                (mkProcessor Example.selected
                   (gegl_processor_chunks Example.selected)) 1%nat
                eq_refl eq_refl eq_refl ltac:(discriminate))
              ltac:(simpl; lia)) as (H1 & _ & H2).
  pose proof (proj2 (gimp_image_map_idle_turns
                Example.applied Example.snapshot
                (mkProcessor Example.selected
                   (gegl_processor_chunks Example.selected)) 5%nat
                eq_refl eq_refl eq_refl ltac:(discriminate))
              ltac:(lia) ltac:(simpl; lia)) as (H3 & _ & H4).
  repeat split; assumption.
Defined.


Lemma gimp_drawable_get_node_wired_witness :
  (gimp_drawable_get_node 1 Example.sourced).2 = Some 6%nat /\
  connections (graph (gimp_drawable_get_node 1 Example.sourced).1)
    !! (NodeRef 7%nat, "input") = Some (InputProxy 6%nat "input", "output") /\
  gimp_drawable_visibility_changed 1
    (gimp_drawable_get_node 1 Example.sourced).1 =
  (gimp_drawable_get_node 1 Example.sourced).1.
Proof.
  assert (Hd : the_drawable 1 Example.sourced = Some Example.sourced_layer)
    by (vm_compute; reflexivity).
  pose proof (gimp_drawable_get_node_wired
                1%nat Example.sourced Example.sourced_layer Hd
                example_sourced_allocated)
    as (H1 & _ & _ & H2 & H3).
  change (gimp_item_get_visible Example.sourced_layer) with true in H2.
  change (next_node (graph Example.sourced)) with 6%nat in H1, H2.
  split; [exact H1|]. split; [exact (proj1 H2) | exact H3].
Defined.
